(** * Two-deck audio mixing engine: transport, position clock and mixer bus

    A shallow embedding of the two playback engines of the repository,
    [AudioEngine] (the deck-based engine) and [AudioManager] (the
    track-handle based engine of src/services/AudioManager.ts), followed by
    the properties of the specification that concern them, and by further
    properties of the engines, of their loading and shutdown paths, and of
    the components that call them: the crossfader, the time display, the
    uploaders and the mock Spotify session.

    Modelling conventions.
    - A JavaScript [number] is a real number ([R]); NaN, the infinities and
      rounding are outside the model.  [Math.max] and [Math.min] are [Rmax]
      and [Rmin]; [x || 0] on a number is written out as a test against 0.
    - The Web Audio context is a record holding the hardware clock
      [currentTime] and the context state.  The clock only moves through the
      environment step [advance].
    - A gain node is represented by the value its gain converges to: both a
      write to [gain.value] and [gain.setTargetAtTime(v, t, 0.01)] store [v].
      The 10 ms smoothing itself belongs to the platform.
    - Every buffer source node created by a [play] is kept in the list
      [nodes]; a deck or a track refers to its source by index.  A node
      remembers what its [onended] closure captured, so that the environment
      step [dispatchEnded] can run that closure later.
    - An [async] method is modelled as one atomic step: the only [await] on
      the path is [audioContext.resume()], which is taken to succeed.  The
      one call that is not awaited, [playTrack] inside [seekTo], has finished
      when [seekTo] returns unless the context is suspended; then it stays
      pending and [seekTo] returns without it.  Exceptions thrown by the
      platform are not modelled.
    - The [ended] event of a source that was stopped is delivered by the
      platform in a later task: it is the step [Ended], which the
      environment may take at any later point.
    - [Math.floor] is [Int_part]; [Math.round] is [Int_part] of the number
      plus one half.  [Date.now()] is an integer number of milliseconds,
      passed to the function that reads it.
    - A string is a [string] of the Standard Library; the patterns used on
      file names only test for the characters [.] and [/]. *)

From Stdlib Require Import Reals Lra List String.
From stdpp Require Import base list strings.
Import ListNotations.

#[local] Open Scope R_scope.

(** ** Shared platform types *)

Inductive DeckId : Type := A | B.

(** The part of the Web Audio platform the engines rely on. *)
Module WebAudio.

Inductive AudioContextState : Type := Suspended | Running | Closed.

Record AudioContext : Type := mkContext {
  currentTime : R;
  state : AudioContextState
}.

Record AudioBuffer : Type := mkBuffer {
  buffer_duration : R
}.

Record GainNode : Type := mkGain {
  gain : R
}.

Definition isSuspended (c : AudioContext) : bool :=
  match state c with
  | Suspended => true
  | _ => false
  end.

(** [await audioContext.resume()] *)
Definition resume (c : AudioContext) : AudioContext :=
  mkContext (currentTime c) Running.

Definition resumeIfSuspended (c : AudioContext) : AudioContext :=
  if isSuspended c then resume c else c.

(** The hardware clock runs only while the context is running. *)
Definition advanceContext (dt : R) (c : AudioContext) : AudioContext :=
  match state c with
  | Running => if Rle_dec 0 dt then mkContext (currentTime c + dt) Running else c
  | _ => c
  end.

End WebAudio.
Import WebAudio.

(** [!!x] on a nullable reference *)
Definition present {X : Type} (o : option X) : bool :=
  match o with
  | Some _ => true
  | None => false
  end.

(** [Math.max(lo, Math.min(hi, x))] *)
Definition jsClamp (lo hi x : R) : R := Rmax lo (Rmin hi x).

(** The clamp of the specification, [clamp(t, lo, hi)], by cases. *)
Definition clamp (t lo hi : R) : R :=
  if Rlt_dec t lo then lo else if Rlt_dec hi t then hi else t.

(** ** The deck-based engine ([AudioEngine]) *)

Module AudioEngine.

Record AudioTrack : Type := mkTrack {
  id : string;
  audioBuffer : option AudioBuffer;
  audioUrl : option string;
  duration : R;
  isLoaded : bool
}.

(** The constant [id] field of a deck state is the deck it is stored
    under, see [deckState]. *)
Record DeckAudioState : Type := mkDeck {
  audioTrack : option AudioTrack;
  isPlaying : bool;
  position : R;
  volume : R;
  startTime : R;
  pauseTime : R
}.

(** A source node created by [playDeck].  Its [onended] closure captured
    the deck id; the other fields record how it was started. *)
Record SourceNode : Type := mkNode {
  node_deck : DeckId;
  node_length : R;
  node_offset : R;
  node_startedAt : R;
  node_stopped : bool;
  node_ended : bool
}.

Record t : Type := mkEngine {
  audioContext : option AudioContext;
  masterGainNode : option GainNode;
  deckAGainNode : option GainNode;
  deckBGainNode : option GainNode;
  crossfaderGainA : option GainNode;
  crossfaderGainB : option GainNode;
  deckASource : option nat;
  deckBSource : option nat;
  deckAState : DeckAudioState;
  deckBState : DeckAudioState;
  crossfaderPosition : R;
  masterVolume : R;
  nodes : list SourceNode
}.

(** *** Field updates *)

Definition with_isPlaying (b : bool) (d : DeckAudioState) : DeckAudioState :=
  mkDeck (audioTrack d) b (position d) (volume d) (startTime d) (pauseTime d).
Definition with_position (p : R) (d : DeckAudioState) : DeckAudioState :=
  mkDeck (audioTrack d) (isPlaying d) p (volume d) (startTime d) (pauseTime d).
Definition with_volume (v : R) (d : DeckAudioState) : DeckAudioState :=
  mkDeck (audioTrack d) (isPlaying d) (position d) v (startTime d) (pauseTime d).
Definition with_startTime (x : R) (d : DeckAudioState) : DeckAudioState :=
  mkDeck (audioTrack d) (isPlaying d) (position d) (volume d) x (pauseTime d).
Definition with_pauseTime (x : R) (d : DeckAudioState) : DeckAudioState :=
  mkDeck (audioTrack d) (isPlaying d) (position d) (volume d) (startTime d) x.
Definition with_audioTrack (a : option AudioTrack) (d : DeckAudioState) : DeckAudioState :=
  mkDeck a (isPlaying d) (position d) (volume d) (startTime d) (pauseTime d).

Definition deckState (d : DeckId) (e : t) : DeckAudioState :=
  match d with A => deckAState e | B => deckBState e end.
Definition deckSource (d : DeckId) (e : t) : option nat :=
  match d with A => deckASource e | B => deckBSource e end.
Definition deckGainNode (d : DeckId) (e : t) : option GainNode :=
  match d with A => deckAGainNode e | B => deckBGainNode e end.
Definition crossfaderGain (d : DeckId) (e : t) : option GainNode :=
  match d with A => crossfaderGainA e | B => crossfaderGainB e end.

Definition set_context (c : option AudioContext) (e : t) : t :=
  mkEngine c (masterGainNode e) (deckAGainNode e) (deckBGainNode e)
    (crossfaderGainA e) (crossfaderGainB e) (deckASource e) (deckBSource e)
    (deckAState e) (deckBState e) (crossfaderPosition e) (masterVolume e) (nodes e).
Definition set_masterGainNode (g : option GainNode) (e : t) : t :=
  mkEngine (audioContext e) g (deckAGainNode e) (deckBGainNode e)
    (crossfaderGainA e) (crossfaderGainB e) (deckASource e) (deckBSource e)
    (deckAState e) (deckBState e) (crossfaderPosition e) (masterVolume e) (nodes e).
Definition set_deckGainNode (d : DeckId) (g : option GainNode) (e : t) : t :=
  mkEngine (audioContext e) (masterGainNode e)
    (match d with A => g | B => deckAGainNode e end)
    (match d with A => deckBGainNode e | B => g end)
    (crossfaderGainA e) (crossfaderGainB e) (deckASource e) (deckBSource e)
    (deckAState e) (deckBState e) (crossfaderPosition e) (masterVolume e) (nodes e).
Definition set_crossfaderGains (ga gb : option GainNode) (e : t) : t :=
  mkEngine (audioContext e) (masterGainNode e) (deckAGainNode e) (deckBGainNode e)
    ga gb (deckASource e) (deckBSource e)
    (deckAState e) (deckBState e) (crossfaderPosition e) (masterVolume e) (nodes e).
Definition set_deckSource (d : DeckId) (src : option nat) (e : t) : t :=
  mkEngine (audioContext e) (masterGainNode e) (deckAGainNode e) (deckBGainNode e)
    (crossfaderGainA e) (crossfaderGainB e)
    (match d with A => src | B => deckASource e end)
    (match d with A => deckBSource e | B => src end)
    (deckAState e) (deckBState e) (crossfaderPosition e) (masterVolume e) (nodes e).
Definition set_deckState (d : DeckId) (ds : DeckAudioState) (e : t) : t :=
  mkEngine (audioContext e) (masterGainNode e) (deckAGainNode e) (deckBGainNode e)
    (crossfaderGainA e) (crossfaderGainB e) (deckASource e) (deckBSource e)
    (match d with A => ds | B => deckAState e end)
    (match d with A => deckBState e | B => ds end)
    (crossfaderPosition e) (masterVolume e) (nodes e).
Definition set_crossfaderPosition (p : R) (e : t) : t :=
  mkEngine (audioContext e) (masterGainNode e) (deckAGainNode e) (deckBGainNode e)
    (crossfaderGainA e) (crossfaderGainB e) (deckASource e) (deckBSource e)
    (deckAState e) (deckBState e) p (masterVolume e) (nodes e).
Definition set_masterVolume (v : R) (e : t) : t :=
  mkEngine (audioContext e) (masterGainNode e) (deckAGainNode e) (deckBGainNode e)
    (crossfaderGainA e) (crossfaderGainB e) (deckASource e) (deckBSource e)
    (deckAState e) (deckBState e) (crossfaderPosition e) v (nodes e).
Definition set_nodes (ns : list SourceNode) (e : t) : t :=
  mkEngine (audioContext e) (masterGainNode e) (deckAGainNode e) (deckBGainNode e)
    (crossfaderGainA e) (crossfaderGainB e) (deckASource e) (deckBSource e)
    (deckAState e) (deckBState e) (crossfaderPosition e) (masterVolume e) ns.

Definition mapDeck (d : DeckId) (f : DeckAudioState -> DeckAudioState) (e : t) : t :=
  set_deckState d (f (deckState d e)) e.

(** [source.stop()] on the node with index [i] *)
Definition stopNode (n : SourceNode) : SourceNode :=
  mkNode (node_deck n) (node_length n) (node_offset n) (node_startedAt n) true (node_ended n).
Definition markEnded (n : SourceNode) : SourceNode :=
  mkNode (node_deck n) (node_length n) (node_offset n) (node_startedAt n) (node_stopped n) true.
Definition stopSource (i : nat) (e : t) : t := set_nodes (alter stopNode i (nodes e)) e.

(** *** [updateCrossfader] and the setters *)

Definition updateCrossfader (p : R) (e : t) : t :=
  match crossfaderGainA e, crossfaderGainB e, audioContext e with
  | Some _, Some _, Some _ =>
      let gainA := cos (p * PI / 2) in
      let gainB := sin (p * PI / 2) in
      set_crossfaderGains (Some (mkGain gainA)) (Some (mkGain gainB)) e
  | _, _, _ => e
  end.

Definition setCrossfader (p : R) (e : t) : t :=
  let e1 := set_crossfaderPosition (jsClamp 0 1 p) e in
  updateCrossfader (crossfaderPosition e1) e1.

Definition setDeckVolume (d : DeckId) (v : R) (e : t) : t :=
  match deckGainNode d e with
  | None => e
  | Some _ =>
      let clampedVolume := jsClamp 0 1 v in
      mapDeck d (with_volume clampedVolume)
        (set_deckGainNode d (Some (mkGain clampedVolume)) e)
  end.

Definition setMasterVolume (v : R) (e : t) : t :=
  match masterGainNode e with
  | None => e
  | Some _ =>
      let clampedVolume := jsClamp 0 1 v in
      set_masterVolume clampedVolume (set_masterGainNode (Some (mkGain clampedVolume)) e)
  end.

(** *** Construction *)

Definition emptyDeck : DeckAudioState := mkDeck None false 0 0.75 0 0.

(** The object as the constructor leaves it outside a browser. *)
Definition unready : t :=
  mkEngine None None None None None None None None emptyDeck emptyDeck 0.5 0.8 [].

(** [setupAudioGraph] *)
Definition setupAudioGraph (e : t) : t :=
  match audioContext e with
  | None => e
  | Some _ =>
      let e1 :=
        mkEngine (audioContext e)
          (Some (mkGain (masterVolume e)))
          (Some (mkGain (volume (deckAState e))))
          (Some (mkGain (volume (deckBState e))))
          (Some (mkGain 1)) (Some (mkGain 1))
          (deckASource e) (deckBSource e) (deckAState e) (deckBState e)
          (crossfaderPosition e) (masterVolume e) (nodes e) in
      updateCrossfader (crossfaderPosition e1) e1
  end.

(** [initializeAudioContext] in a browser whose fresh context reads [c]. *)
Definition initializeAudioContext (c : AudioContext) (e : t) : t :=
  let e1 := setupAudioGraph (set_context (Some c) e) in
  set_context (option_map resumeIfSuspended (audioContext e1)) e1.

Definition create (c : AudioContext) : t := initializeAudioContext c unready.

(** *** Transport *)

Definition stopDeck (d : DeckId) (e : t) : t :=
  let ds := deckState d e in
  match isPlaying ds, deckSource d e with
  | true, Some src =>
      let e1 := stopSource src e in
      let e2 := mapDeck d (fun x => with_pauseTime 0 (with_startTime 0
                   (with_position 0 (with_isPlaying false x)))) e1 in
      set_deckSource d None e2
  | _, _ => mapDeck d (fun x => with_isPlaying false (with_position 0 x)) e
  end.

Definition loadTrackToDeck (a : AudioTrack) (d : DeckId) (e : t) : t :=
  let e1 := if isPlaying (deckState d e) then stopDeck d e else e in
  mapDeck d (fun x => with_position 0 (with_audioTrack (Some a) x)) e1.

Definition loadedBuffer (ds : DeckAudioState) : option AudioBuffer :=
  match audioTrack ds with
  | Some a => audioBuffer a
  | None => None
  end.

Definition playDeck (d : DeckId) (e : t) : t * bool :=
  match audioContext e, masterGainNode e with
  | Some c0, Some _ =>
      let c := resumeIfSuspended c0 in
      let e0 := set_context (Some c) e in
      let ds := deckState d e0 in
      match loadedBuffer ds with
      | None => (e0, false)
      | Some buf =>
          if isPlaying ds then (e0, true)
          else
            match deckGainNode d e0, crossfaderGain d e0 with
            | Some _, Some _ =>
                let src := length (nodes e0) in
                let now := currentTime c in
                let node := mkNode d (buffer_duration buf) (position ds) now false false in
                let e1 := set_deckSource d (Some src) (set_nodes (nodes e0 ++ [node]) e0) in
                let e2 := mapDeck d (fun x =>
                            with_startTime (now - position ds) (with_isPlaying true x)) e1 in
                (e2, true)
            | _, _ => (e0, false)
            end
      end
  | _, _ => (e, false)
  end.

Definition pauseDeck (d : DeckId) (e : t) : t :=
  let ds := deckState d e in
  match isPlaying ds, deckSource d e, audioContext e with
  | true, Some src, Some c =>
      let now := currentTime c in
      let e1 := mapDeck d (fun x =>
                  with_pauseTime now (with_position (now - startTime ds) x)) e in
      let e2 := stopSource src e1 in
      let e3 := mapDeck d (with_isPlaying false) e2 in
      set_deckSource d None e3
  | _, _, _ => e
  end.

Definition getCurrentPosition (d : DeckId) (e : t) : R :=
  let ds := deckState d e in
  match isPlaying ds, audioContext e with
  | true, Some c => currentTime c - startTime ds
  | _, _ => position ds
  end.

(** [getDeckState] refreshes the stored position of a playing deck and
    returns a copy. *)
Definition getDeckState (d : DeckId) (e : t) : t * DeckAudioState :=
  let ds := deckState d e in
  let e1 :=
    match isPlaying ds, audioContext e with
    | true, Some c => mapDeck d (with_position (currentTime c - startTime ds)) e
    | _, _ => e
    end in
  (e1, deckState d e1).

(** *** Environment steps *)

(** The closure installed by [playDeck] as [source.onended]. *)
Definition onended (d : DeckId) (e : t) : t :=
  if isPlaying (deckState d e) then stopDeck d e else e.

(** A source has finished when it was stopped or when the clock passed the
    end of its buffer. *)
Definition finished (now : R) (n : SourceNode) : bool :=
  node_stopped n
  || (if Rle_dec (node_startedAt n + (node_length n - node_offset n)) now
      then true else false).

(** The platform delivers the [ended] event of node [i], once. *)
Definition dispatchEnded (i : nat) (e : t) : t :=
  match nodes e !! i, audioContext e with
  | Some n, Some c =>
      if negb (node_ended n) && finished (currentTime c) n
      then onended (node_deck n) (set_nodes (alter markEnded i (nodes e)) e)
      else e
  | _, _ => e
  end.

Definition advance (dt : R) (e : t) : t :=
  set_context (option_map (advanceContext dt) (audioContext e)) e.

Inductive Op : Type :=
| LoadTrackToDeck (a : AudioTrack) (d : DeckId)
| PlayDeck (d : DeckId)
| PauseDeck (d : DeckId)
| StopDeck (d : DeckId)
| SetDeckVolume (d : DeckId) (v : R)
| SetMasterVolume (v : R)
| SetCrossfader (p : R)
| GetDeckState (d : DeckId)
| Advance (dt : R)
| Ended (i : nat).

Definition step (e : t) (o : Op) : t :=
  match o with
  | LoadTrackToDeck a d => loadTrackToDeck a d e
  | PlayDeck d => fst (playDeck d e)
  | PauseDeck d => pauseDeck d e
  | StopDeck d => stopDeck d e
  | SetDeckVolume d v => setDeckVolume d v e
  | SetMasterVolume v => setMasterVolume v e
  | SetCrossfader p => setCrossfader p e
  | GetDeckState d => fst (getDeckState d e)
  | Advance dt => advance dt e
  | Ended i => dispatchEnded i e
  end.

Definition run (e : t) (ops : list Op) : t := fold_left step ops e.

(** States the engine can be in: built by the constructor, then driven by
    calls and platform events. *)
Inductive reachable : t -> Prop :=
| reach_unready : reachable unready
| reach_create c : reachable (create c)
| reach_step e o : reachable e -> reachable (step e o).

(** *** Predicates used in the statements *)

(** All gain nodes of the graph exist, as after [setupAudioGraph]. *)
Definition graphReady (e : t) : Prop :=
  present (masterGainNode e) = true /\
  (forall d, present (deckGainNode d e) = true) /\
  (forall d, present (crossfaderGain d e) = true).

(** A deck holds a source node exactly while it is playing. *)
Definition sourceIffPlaying (e : t) : Prop :=
  forall d, present (deckSource d e) = isPlaying (deckState d e).

(** A deck without a track rests at position 0. *)
Definition emptyAtZero (e : t) : Prop :=
  forall d, audioTrack (deckState d e) = None ->
    position (deckState d e) = 0 /\ isPlaying (deckState d e) = false.

(** A playing deck has a decoded buffer and a graph to play it through. *)
Definition playingReady (e : t) : Prop :=
  forall d, isPlaying (deckState d e) = true ->
    present (loadedBuffer (deckState d e)) = true /\
    present (audioContext e) = true /\
    present (masterGainNode e) = true.

Definition inv (e : t) : Prop :=
  sourceIffPlaying e /\ emptyAtZero e /\ playingReady e.

(** Everything the transport owns is the same in [e] and [e']. *)
Definition sameTransport (e e' : t) : Prop :=
  audioContext e' = audioContext e /\
  nodes e' = nodes e /\
  forall d,
    deckSource d e' = deckSource d e /\
    audioTrack (deckState d e') = audioTrack (deckState d e) /\
    isPlaying (deckState d e') = isPlaying (deckState d e) /\
    position (deckState d e') = position (deckState d e) /\
    startTime (deckState d e') = startTime (deckState d e) /\
    pauseTime (deckState d e') = pauseTime (deckState d e).


(** The calls a display loop makes, and the passing of time. *)
Definition isPoll (o : Op) : Prop :=
  match o with
  | GetDeckState _ | Advance _ => True
  | _ => False
  end.

End AudioEngine.

(** ** The track-handle engine ([AudioManager]) *)

Module AudioManager.

Record AudioTrack : Type := mkTrack {
  id : string;
  audioBuffer : AudioBuffer;
  source : option nat;
  gainNode : option GainNode;
  isPlaying : bool;
  startTime : R;
  pausedAt : R;
  duration : R;
  currentTime : R
}.

(** A source node created by [playTrack].  Its [onended] closure captured
    the track object (a heap reference) and the deck id. *)
Record SourceNode : Type := mkNode {
  node_track : nat;
  node_deck : DeckId;
  node_length : R;
  node_offset : R;
  node_startedAt : R;
  node_stopped : bool;
  node_connected : bool;
  node_ended : bool
}.

(** [tracks] is the [Map] from track id to track object, in insertion
    order; the objects themselves live in [heap], so that a closure and the
    map can refer to the same object.  [onTrackEndCalls] and
    [onPositionUpdateCalls] record the calls made to the two callbacks,
    oldest first. *)
Record t : Type := mkManager {
  audioContext : option AudioContext;
  masterGain : option GainNode;
  deckAGain : option GainNode;
  deckBGain : option GainNode;
  crossfaderGain : option GainNode;
  tracks : list (string * nat);
  heap : list AudioTrack;
  nodes : list SourceNode;
  callbacksSet : bool;
  onTrackEndCalls : list DeckId;
  onPositionUpdateCalls : list (string * R * R)
}.

(** *** Field updates *)

Definition with_source (x : option nat) (a : AudioTrack) : AudioTrack :=
  mkTrack (id a) (audioBuffer a) x (gainNode a) (isPlaying a) (startTime a)
    (pausedAt a) (duration a) (currentTime a).
Definition with_gainNode (x : option GainNode) (a : AudioTrack) : AudioTrack :=
  mkTrack (id a) (audioBuffer a) (source a) x (isPlaying a) (startTime a)
    (pausedAt a) (duration a) (currentTime a).
Definition with_isPlaying (x : bool) (a : AudioTrack) : AudioTrack :=
  mkTrack (id a) (audioBuffer a) (source a) (gainNode a) x (startTime a)
    (pausedAt a) (duration a) (currentTime a).
Definition with_startTime (x : R) (a : AudioTrack) : AudioTrack :=
  mkTrack (id a) (audioBuffer a) (source a) (gainNode a) (isPlaying a) x
    (pausedAt a) (duration a) (currentTime a).
Definition with_pausedAt (x : R) (a : AudioTrack) : AudioTrack :=
  mkTrack (id a) (audioBuffer a) (source a) (gainNode a) (isPlaying a) (startTime a)
    x (duration a) (currentTime a).
Definition with_currentTime (x : R) (a : AudioTrack) : AudioTrack :=
  mkTrack (id a) (audioBuffer a) (source a) (gainNode a) (isPlaying a) (startTime a)
    (pausedAt a) (duration a) x.

Definition set_context (c : option AudioContext) (m : t) : t :=
  mkManager c (masterGain m) (deckAGain m) (deckBGain m) (crossfaderGain m)
    (tracks m) (heap m) (nodes m) (callbacksSet m) (onTrackEndCalls m)
    (onPositionUpdateCalls m).
Definition set_masterGain (g : option GainNode) (m : t) : t :=
  mkManager (audioContext m) g (deckAGain m) (deckBGain m) (crossfaderGain m)
    (tracks m) (heap m) (nodes m) (callbacksSet m) (onTrackEndCalls m)
    (onPositionUpdateCalls m).
Definition set_deckGains (ga gb : option GainNode) (m : t) : t :=
  mkManager (audioContext m) (masterGain m) ga gb (crossfaderGain m)
    (tracks m) (heap m) (nodes m) (callbacksSet m) (onTrackEndCalls m)
    (onPositionUpdateCalls m).
Definition set_tracks (ts : list (string * nat)) (m : t) : t :=
  mkManager (audioContext m) (masterGain m) (deckAGain m) (deckBGain m) (crossfaderGain m)
    ts (heap m) (nodes m) (callbacksSet m) (onTrackEndCalls m)
    (onPositionUpdateCalls m).
Definition set_heap (h : list AudioTrack) (m : t) : t :=
  mkManager (audioContext m) (masterGain m) (deckAGain m) (deckBGain m) (crossfaderGain m)
    (tracks m) h (nodes m) (callbacksSet m) (onTrackEndCalls m)
    (onPositionUpdateCalls m).
Definition set_nodes (ns : list SourceNode) (m : t) : t :=
  mkManager (audioContext m) (masterGain m) (deckAGain m) (deckBGain m) (crossfaderGain m)
    (tracks m) (heap m) ns (callbacksSet m) (onTrackEndCalls m)
    (onPositionUpdateCalls m).
Definition set_callbacksSet (b : bool) (m : t) : t :=
  mkManager (audioContext m) (masterGain m) (deckAGain m) (deckBGain m) (crossfaderGain m)
    (tracks m) (heap m) (nodes m) b (onTrackEndCalls m)
    (onPositionUpdateCalls m).
Definition set_onTrackEndCalls (l : list DeckId) (m : t) : t :=
  mkManager (audioContext m) (masterGain m) (deckAGain m) (deckBGain m) (crossfaderGain m)
    (tracks m) (heap m) (nodes m) (callbacksSet m) l
    (onPositionUpdateCalls m).
Definition set_onPositionUpdateCalls (l : list (string * R * R)) (m : t) : t :=
  mkManager (audioContext m) (masterGain m) (deckAGain m) (deckBGain m) (crossfaderGain m)
    (tracks m) (heap m) (nodes m) (callbacksSet m) (onTrackEndCalls m) l.

Definition deckGain (d : DeckId) (m : t) : option GainNode :=
  match d with A => deckAGain m | B => deckBGain m end.
Definition set_deckGain (d : DeckId) (g : option GainNode) (m : t) : t :=
  match d with
  | A => set_deckGains g (deckBGain m) m
  | B => set_deckGains (deckAGain m) g m
  end.

(** *** The [tracks] map and the objects it refers to *)

Fixpoint tracks_get (k : string) (ts : list (string * nat)) : option nat :=
  match ts with
  | [] => None
  | (k', r) :: rest => if String.eqb k k' then Some r else tracks_get k rest
  end.

(** [Map.set]: an existing key keeps its place. *)
Fixpoint tracks_set (k : string) (r : nat) (ts : list (string * nat)) : list (string * nat) :=
  match ts with
  | [] => [(k, r)]
  | (k', r') :: rest =>
      if String.eqb k k' then (k, r) :: rest else (k', r') :: tracks_set k r rest
  end.

(** [this.tracks.get(trackId)], as a reference and as the object read. *)
Definition trackRef (trackId : string) (m : t) : option nat := tracks_get trackId (tracks m).
Definition getTrack (trackId : string) (m : t) : option AudioTrack :=
  match trackRef trackId m with
  | Some r => heap m !! r
  | None => None
  end.

Definition mapTrack (r : nat) (f : AudioTrack -> AudioTrack) (m : t) : t :=
  set_heap (alter f r (heap m)) m.

(** [source.stop(); source.disconnect()] *)
Definition stopNode (n : SourceNode) : SourceNode :=
  mkNode (node_track n) (node_deck n) (node_length n) (node_offset n)
    (node_startedAt n) true false (node_ended n).
Definition markEnded (n : SourceNode) : SourceNode :=
  mkNode (node_track n) (node_deck n) (node_length n) (node_offset n)
    (node_startedAt n) (node_stopped n) (node_connected n) true.
Definition stopSource (src : option nat) (m : t) : t :=
  match src with
  | Some i => set_nodes (alter stopNode i (nodes m)) m
  | None => m
  end.

(** *** Construction *)

Definition empty : t :=
  mkManager None None None None None [] [] [] false [] [].

(** What [initializeAudioContext] sets up around the fresh context [c],
    before it starts the position tracker. *)
Definition buildGraph (c : AudioContext) (m : t) : t :=
  mkManager (Some (resumeIfSuspended c))
    (Some (mkGain 0.8)) (Some (mkGain 0.75)) (Some (mkGain 0.75)) (Some (mkGain 1))
    (tracks m) (heap m) (nodes m) (callbacksSet m) (onTrackEndCalls m)
    (onPositionUpdateCalls m).

Definition setCallbacks (m : t) : t := set_callbacksSet true m.

(** *** Loading *)

Definition freshTrack (trackId : string) (b : AudioBuffer) : AudioTrack :=
  mkTrack trackId b None None false 0 0 (buffer_duration b) 0.

(** [loadTrack]; [decoded] is what [decodeAudioData] produced, [None] when
    it rejected. *)
Definition loadTrack (decoded : option AudioBuffer) (trackId : string) (m : t) : t * bool :=
  match audioContext m, decoded with
  | Some _, Some b =>
      let r := length (heap m) in
      (set_tracks (tracks_set trackId r (tracks m))
         (set_heap (heap m ++ [freshTrack trackId b]) m), true)
  | _, _ => (m, false)
  end.

(** [createDemoTrack]; [created] is the buffer [createBuffer] returned for
    [sampleRate * duration] frames, [None] when it threw.  The samples
    written into it are [DemoTone.sample]; the track keeps the requested
    [duration], whatever the length of the buffer. *)
Definition createDemoTrack (created : option AudioBuffer) (frequency duration : R)
    (trackId : string) (m : t) : t * bool :=
  match audioContext m, created with
  | Some _, Some b =>
      let r := length (heap m) in
      (set_tracks (tracks_set trackId r (tracks m))
         (set_heap (heap m ++ [mkTrack trackId b None None false 0 0 duration 0]) m), true)
  | _, _ => (m, false)
  end.

(** *** Transport *)

(** [x || 0] *)
Definition orZero (x : R) : R := if Req_dec_T x 0 then 0 else x.

(** [playTrack].  The deck gain is used under a non-null assertion
    ([deckGain!]); it exists whenever the context does, see [graphWhole], and
    the model answers [false] where it is missing. *)
Definition playTrack (trackId : string) (deckId : DeckId) (m : t) : t * bool :=
  match audioContext m with
  | None => (m, false)
  | Some c0 =>
      match trackRef trackId m with
      | None => (m, false)
      | Some r =>
          match heap m !! r, deckGain deckId m with
          | Some track, Some _ =>
              let c := resumeIfSuspended c0 in
              let m1 := stopSource (source track) (set_context (Some c) m) in
              let src := length (nodes m1) in
              let offset := orZero (pausedAt track) in
              let now := WebAudio.currentTime c in
              let node := mkNode r deckId (buffer_duration (audioBuffer track))
                            offset now false true false in
              let m2 := set_nodes (nodes m1 ++ [node]) m1 in
              (mapTrack r (fun a =>
                 with_pausedAt 0 (with_isPlaying true (with_startTime (now - offset)
                   (with_gainNode (Some (mkGain 1)) (with_source (Some src) a))))) m2,
               true)
          | _, _ => (m, false)
          end
      end
  end.

Definition pauseTrack (trackId : string) (m : t) : t * bool :=
  match trackRef trackId m, audioContext m with
  | Some r, Some c =>
      match heap m !! r with
      | Some track =>
          if isPlaying track then
            let m1 := stopSource (source track) m in
            let p := WebAudio.currentTime c - startTime track in
            (mapTrack r (fun a =>
               with_currentTime p (with_isPlaying false (with_pausedAt p a))) m1, true)
          else (m, false)
      | None => (m, false)
      end
  | _, _ => (m, false)
  end.

Definition stopTrack (trackId : string) (m : t) : t * bool :=
  match trackRef trackId m with
  | Some r =>
      match heap m !! r with
      | Some track =>
          let m1 := stopSource (source track) m in
          (mapTrack r (fun a =>
             with_startTime 0 (with_currentTime 0 (with_pausedAt 0
               (with_isPlaying false a)))) m1, true)
      | None => (m, false)
      end
  | None => (m, false)
  end.

Definition getCurrentTime (trackId : string) (m : t) : R :=
  match getTrack trackId m, audioContext m with
  | Some track, Some c =>
      if isPlaying track then WebAudio.currentTime c - startTime track
      else pausedAt track
  | _, _ => 0
  end.

(** The context is suspended: [playTrack] waits for it to resume. *)
Definition suspended (m : t) : bool :=
  match audioContext m with
  | Some c => isSuspended c
  | None => false
  end.

(** [seekTo] calls [playTrack] without awaiting it.  With a running context
    [playTrack] has finished when [seekTo] returns; with a suspended one it is
    still waiting for the context, and what it does then is a later
    [playTrack]. *)
Definition seekTo (trackId : string) (pos : R) (deckId : DeckId) (m : t) : t * bool :=
  match trackRef trackId m with
  | Some r =>
      match heap m !! r with
      | Some track =>
          let wasPlaying := isPlaying track in
          let m1 := fst (stopTrack trackId m) in
          let m2 := mapTrack r (with_pausedAt (jsClamp 0 (duration track) pos)) m1 in
          let m3 :=
            if wasPlaying && negb (suspended m2)
            then fst (playTrack trackId deckId m2) else m2 in
          (m3, true)
      | None => (m, false)
      end
  | None => (m, false)
  end.

(** *** The mixer *)

Definition setDeckVolume (d : DeckId) (v : R) (m : t) : t :=
  match deckGain d m with
  | Some _ => set_deckGain d (Some (mkGain (jsClamp 0 1 v))) m
  | None => m
  end.

Definition setMasterVolume (v : R) (m : t) : t :=
  match masterGain m, audioContext m with
  | Some _, Some _ => set_masterGain (Some (mkGain (jsClamp 0 1 v))) m
  | _, _ => m
  end.

Definition crossfadeA (clampedPosition : R) : R :=
  if Rle_dec clampedPosition 0 then 1 else 1 - clampedPosition.
Definition crossfadeB (clampedPosition : R) : R :=
  if Rge_dec clampedPosition 0 then 1 else 1 + clampedPosition.

Definition setCrossfader (p : R) (m : t) : t :=
  match deckAGain m, deckBGain m, audioContext m with
  | Some _, Some _, Some _ =>
      let clampedPosition := jsClamp (-1) 1 p in
      set_deckGains (Some (mkGain (crossfadeA clampedPosition)))
                    (Some (mkGain (crossfadeB clampedPosition))) m
  | _, _, _ => m
  end.

(** *** Position tracking and platform events *)

Definition notifyTrackEnd (d : DeckId) (m : t) : t :=
  if callbacksSet m then set_onTrackEndCalls (onTrackEndCalls m ++ [d]) m else m.
Definition notifyPosition (trackId : string) (p dur : R) (m : t) : t :=
  if callbacksSet m
  then set_onPositionUpdateCalls (onPositionUpdateCalls m ++ [(trackId, p, dur)]) m
  else m.

(** The body of the [forEach] in [updatePositions], for one map entry. *)
Definition updatePosition (m : t) (entry : string * nat) : t :=
  let '(trackId, r) := entry in
  match heap m !! r, audioContext m with
  | Some track, Some c =>
      if isPlaying track then
        let p := WebAudio.currentTime c - startTime track in
        let m1 := mapTrack r (with_currentTime p) m in
        if Rge_dec p (duration track)
        then fst (stopTrack trackId m1)
        else notifyPosition trackId p (duration track) m1
      else m
  | _, _ => m
  end.

(** One animation frame of [startPositionTracking]. *)
Definition updatePositions (m : t) : t := fold_left updatePosition (tracks m) m.

(** [initializeAudioContext] in a browser whose fresh context reads [c]; it
    ends with [startPositionTracking], whose first pass runs within the
    call. *)
Definition initializeAudioContext (c : AudioContext) (m : t) : t :=
  updatePositions (buildGraph c m).

(** [audioContext.close()] *)
Definition close (c : AudioContext) : AudioContext :=
  mkContext (WebAudio.currentTime c) Closed.

(** The [forEach] of [cleanup] over the entries [ts] of the map. *)
Definition stopAll (ts : list (string * nat)) (m : t) : t :=
  fold_left (fun s (entry : string * nat) => fst (stopTrack (fst entry) s)) ts m.

(** [cleanup]; the pending animation frame it cancels is a [Frame] that is
    not delivered afterwards. *)
Definition cleanup (m : t) : t :=
  let m1 := stopAll (tracks m) m in
  let m2 := set_tracks [] m1 in
  set_context (option_map close (audioContext m2)) m2.

(** The closure installed by [playTrack] as [source.onended]; [r] is the
    track object it captured. *)
Definition onended (r : nat) (d : DeckId) (m : t) : t :=
  match heap m !! r with
  | Some track =>
      if isPlaying track then
        notifyTrackEnd d
          (mapTrack r (fun a =>
             with_pausedAt 0 (with_currentTime 0 (with_isPlaying false a))) m)
      else m
  | None => m
  end.

Definition finished (now : R) (n : SourceNode) : bool :=
  node_stopped n
  || (if Rle_dec (node_startedAt n + (node_length n - node_offset n)) now
      then true else false).

(** The platform delivers the [ended] event of node [i], once. *)
Definition dispatchEnded (i : nat) (m : t) : t :=
  match nodes m !! i, audioContext m with
  | Some n, Some c =>
      if negb (node_ended n) && finished (WebAudio.currentTime c) n
      then onended (node_track n) (node_deck n)
             (set_nodes (alter markEnded i (nodes m)) m)
      else m
  | _, _ => m
  end.

Definition advance (dt : R) (m : t) : t :=
  set_context (option_map (advanceContext dt) (audioContext m)) m.

(** The public methods that change the manager, and the steps of the
    environment.  [LoadTrack] stands for [loadTrack] and [loadTrackFromURL],
    which differ only in where the bytes come from; [getTrackInfo],
    [getCurrentTime] and [getAudioContextState] only read. *)
Inductive Op : Type :=
| Initialize (c : AudioContext)
| SetCallbacks
| LoadTrack (decoded : option AudioBuffer) (trackId : string)
| PlayTrack (trackId : string) (d : DeckId)
| PauseTrack (trackId : string)
| StopTrack (trackId : string)
| SeekTo (trackId : string) (pos : R) (d : DeckId)
| SetDeckVolume (d : DeckId) (v : R)
| SetMasterVolume (v : R)
| SetCrossfader (p : R)
| Frame
| Advance (dt : R)
| Ended (i : nat)
| CreateDemoTrack (created : option AudioBuffer) (frequency duration : R)
    (trackId : string)
| Cleanup.

Definition step (m : t) (o : Op) : t :=
  match o with
  | Initialize c => initializeAudioContext c m
  | SetCallbacks => setCallbacks m
  | LoadTrack decoded trackId => fst (loadTrack decoded trackId m)
  | PlayTrack trackId d => fst (playTrack trackId d m)
  | PauseTrack trackId => fst (pauseTrack trackId m)
  | StopTrack trackId => fst (stopTrack trackId m)
  | SeekTo trackId pos d => fst (seekTo trackId pos d m)
  | SetDeckVolume d v => setDeckVolume d v m
  | SetMasterVolume v => setMasterVolume v m
  | SetCrossfader p => setCrossfader p m
  | Frame => updatePositions m
  | Advance dt => advance dt m
  | Ended i => dispatchEnded i m
  | CreateDemoTrack created frequency duration trackId =>
      fst (createDemoTrack created frequency duration trackId m)
  | Cleanup => cleanup m
  end.

Definition run (m : t) (ops : list Op) : t := fold_left step ops m.

Inductive reachable : t -> Prop :=
| reach_empty : reachable empty
| reach_step m o : reachable m -> reachable (step m o).

(** *** Predicates used in the statements *)

Definition playingHasSource (a : AudioTrack) : Prop :=
  isPlaying a = true -> present (source a) = true.

(** The shape of every state the manager builds: the map has one entry per
    id, every entry refers to an object of the heap, and a playing track has
    a source. *)
Record wf (m : t) : Prop := mkWf {
  wf_keys : NoDup (map fst (tracks m));
  wf_refs : forall k r, In (k, r) (tracks m) -> is_Some (heap m !! r);
  wf_playing : Forall playingHasSource (heap m)
}.


(** Which parts of the audio graph exist: context, master gain, deck gains. *)
Definition graphView (m : t) : bool * bool * bool * bool :=
  (present (audioContext m), present (masterGain m),
   present (deckAGain m), present (deckBGain m)).

(** The graph is built in one piece by [initializeAudioContext]. *)
Definition graphWhole (m : t) : Prop :=
  graphView m = (false, false, false, false) \/ graphView m = (true, true, true, true).



(** Everything the transport owns is the same in [m] and [m']. *)
Definition sameTransport (m m' : t) : Prop :=
  audioContext m' = audioContext m /\
  tracks m' = tracks m /\
  heap m' = heap m /\
  nodes m' = nodes m /\
  callbacksSet m' = callbacksSet m /\
  onTrackEndCalls m' = onTrackEndCalls m /\
  onPositionUpdateCalls m' = onPositionUpdateCalls m.

(** Both deck bus gains, when the nodes exist. *)
Definition deckGains (m : t) : option (R * R) :=
  match deckAGain m, deckBGain m with
  | Some ga, Some gb => Some (gain ga, gain gb)
  | _, _ => None
  end.

(** The display loop and the passing of time. *)
Definition isPoll (o : Op) : Prop :=
  match o with
  | Frame | Advance _ => True
  | _ => False
  end.

End AudioManager.

(** ** Notions of the specification and concrete scenarios *)


Module Scenario.

#[local] Open Scope string_scope.

(** A running context whose clock reads 0. *)
Definition ctx0 : AudioContext := mkContext 0 Running.

(** The deck engine in a browser, with a 180 second track on deck A. *)
Definition track180 : AudioEngine.AudioTrack :=
  AudioEngine.mkTrack "track_180" (Some (mkBuffer 180)) None 180 true.

Definition engine0 : AudioEngine.t := AudioEngine.create ctx0.

Definition engine180 : AudioEngine.t :=
  AudioEngine.run engine0 [AudioEngine.LoadTrackToDeck track180 A].

(** Deck A paused 90 seconds into the track. *)
Definition enginePausedAt90 : AudioEngine.t :=
  AudioEngine.run engine180
    [AudioEngine.PlayDeck A; AudioEngine.Advance 90; AudioEngine.PauseDeck A].

(** Deck A resumed from there and played for 5 more seconds. *)
Definition engineResumedAt95 : AudioEngine.t :=
  AudioEngine.run enginePausedAt90 [AudioEngine.PlayDeck A; AudioEngine.Advance 5].

(** The manager, initialised, with callbacks, and a 180 second track "a". *)
Definition manager0 : AudioManager.t :=
  AudioManager.run AudioManager.empty
    [AudioManager.Initialize ctx0; AudioManager.SetCallbacks].

Definition manager180 : AudioManager.t :=
  AudioManager.run manager0 [AudioManager.LoadTrack (Some (mkBuffer 180)) "a"].

(** Track "a" playing on deck A for 5 seconds. *)
Definition managerPlaying5 : AudioManager.t :=
  AudioManager.run manager180 [AudioManager.PlayTrack "a" A; AudioManager.Advance 5].

(** Track "a" played for 90 seconds, then paused. *)
Definition managerPausedAt90 : AudioManager.t :=
  AudioManager.run manager180
    [AudioManager.PlayTrack "a" A; AudioManager.Advance 90; AudioManager.PauseTrack "a"].

(** A 10 second track played on deck A until the clock reads 11. *)
Definition managerPast10 : AudioManager.t :=
  AudioManager.run manager0
    [AudioManager.LoadTrack (Some (mkBuffer 10)) "a"; AudioManager.PlayTrack "a" A;
     AudioManager.Advance 11].

(** Track "a" is playing, 5 seconds in, when the user seeks to 30. *)
Definition managerSeekedAt5 : AudioManager.t :=
  AudioManager.run managerPlaying5 [AudioManager.SeekTo "a" 30 A].

(** Track "a" is playing when another file is loaded under the same id. *)
Definition managerReloaded : AudioManager.t :=
  AudioManager.run manager180
    [AudioManager.PlayTrack "a" A; AudioManager.LoadTrack (Some (mkBuffer 60)) "a"].

End Scenario.

(** ** Loading, lifecycle and the callers of the two engines *)

(** The gain node [g], where it exists, is set to a fraction. *)
Definition gainInRange (g : option GainNode) : Prop :=
  match g with
  | Some n => 0 <= gain n <= 1
  | None => True
  end.

(** [loadAudioFile], [isReady] and the notions used to state what the deck
    engine keeps true. *)
Module AudioEngineLoading.
Import AudioEngine.

#[local] Open Scope string_scope.

(** [loadAudioFile]: [stamp] is [Date.now()] as printed, [url] the object
    URL of the file, [decoded] what [decodeAudioData] produced; [None] is the
    exception the method throws. *)
Definition loadAudioFile (stamp url : string) (decoded : option AudioBuffer) (e : t)
  : option AudioTrack :=
  match audioContext e, decoded with
  | Some _, Some b =>
      Some (mkTrack ("track_" ++ stamp) (Some b) (Some url) (buffer_duration b) true)
  | _, _ => None
  end.


(** The deck a call addresses; an [ended] event addresses the deck whose
    source it belongs to. *)
Definition opDeck (e : t) (o : Op) : option DeckId :=
  match o with
  | LoadTrackToDeck _ d | PlayDeck d | PauseDeck d | StopDeck d
  | SetDeckVolume d _ | GetDeckState d => Some d
  | Ended i => option_map node_deck (nodes e !! i)
  | SetMasterVolume _ | SetCrossfader _ | Advance _ => None
  end.

(** The gain node [g], where it exists, is set to [x]. *)
Definition gainIs (g : option GainNode) (x : R) : Prop :=
  match g with
  | Some n => gain n = x
  | None => True
  end.

Definition inUnit (x : R) : Prop := 0 <= x <= 1.

(** The mixer values the engine stores are fractions. *)
Definition mixerInRange (e : t) : Prop :=
  inUnit (crossfaderPosition e) /\ inUnit (masterVolume e) /\
  forall d, inUnit (volume (deckState d e)).

(** Every gain node carries the value stored for it. *)
Definition mixerApplied (e : t) : Prop :=
  gainIs (masterGainNode e) (masterVolume e) /\
  (forall d, gainIs (deckGainNode d e) (volume (deckState d e))) /\
  gainIs (crossfaderGainA e) (cos (crossfaderPosition e * PI / 2)) /\
  gainIs (crossfaderGainB e) (sin (crossfaderPosition e * PI / 2)).

(** The graph and the context exist together or not at all. *)
Definition graphBuilt (e : t) : Prop :=
  present (audioContext e) = present (masterGainNode e) /\
  (forall d, present (deckGainNode d e) = present (masterGainNode e)) /\
  (forall d, present (crossfaderGain d e) = present (masterGainNode e)).

(** Everything the mixer owns, and whether there is a context. *)
Definition mixerView (e : t) :=
  (crossfaderPosition e, masterVolume e,
   volume (deckAState e), volume (deckBState e),
   masterGainNode e, deckAGainNode e, deckBGainNode e,
   crossfaderGainA e, crossfaderGainB e, present (audioContext e)).

Definition mixerSound (e : t) : Prop :=
  mixerInRange e /\ mixerApplied e /\ graphBuilt e.

(** The clock of [c] has reached [x]. *)
Definition reached (c : option AudioContext) (x : R) : Prop :=
  match c with
  | Some c => x <= currentTime c
  | None => False
  end.

(** Stored positions are not negative, and a playing deck was anchored in
    the past. *)
Definition clockAhead (e : t) : Prop :=
  forall d,
    0 <= position (deckState d e) /\
    (isPlaying (deckState d e) = true ->
     reached (audioContext e) (startTime (deckState d e))).

End AudioEngineLoading.

(** [getTrackInfo], [getAudioContextState] and the notions used to state
    what the manager keeps true. *)
Module AudioManagerLifecycle.
Import AudioManager.

(** [this.tracks.get(trackId) || null] *)
Definition getTrackInfo (trackId : string) (m : t) : option AudioTrack :=
  getTrack trackId m.

(** [this.audioContext?.state || 'closed'] *)
Definition getAudioContextState (m : t) : AudioContextState :=
  match audioContext m with
  | Some c => state c
  | None => Closed
  end.

Definition gainsInRange (m : t) : Prop :=
  gainInRange (masterGain m) /\
  (forall d, gainInRange (deckGain d m)) /\
  gainInRange (crossfaderGain m).

(** The four gain nodes of the graph. *)
Definition graphGains (m : t)
  : option GainNode * option GainNode * option GainNode * option GainNode :=
  (masterGain m, deckAGain m, deckBGain m, crossfaderGain m).

(** What the transport calls and the animation frame leave alone: the gains
    of the graph, the registration of the callbacks and the log of
    [onTrackEnd] calls. *)
Definition transportFrame (m : t) :=
  (graphGains m, callbacksSet m, onTrackEndCalls m).

(** What every track object satisfies: a playing track has no pause point
    left, and the track's own gain node, once created, stays at its
    default. *)
Definition trackSound (a : AudioTrack) : Prop :=
  (isPlaying a = true -> pausedAt a = 0) /\
  (gainNode a = None \/ gainNode a = Some (mkGain 1)).

(** No track of the map plays beyond its duration at clock reading [now]. *)
Definition noneOverdue (now : R) (m : t) : Prop :=
  forall k a, getTrack k m = Some a -> isPlaying a = true ->
    now - startTime a < duration a.


End AudioManagerLifecycle.

(** The sample loop of [createDemoTrack]. *)
Module DemoTone.

(** The fade in and out, at [t] seconds into a tone of [duration] seconds. *)
Definition envelope (duration t : R) : R :=
  Rmin 1 (Rmin (t * 10) ((duration - t) * 10)).

(** [channelData[i]], before it is stored as a 32-bit float. *)
Definition sample (frequency duration sampleRate : R) (i : nat) : R :=
  let t := INR i / sampleRate in
  sin (frequency * 2 * PI * t) * envelope duration t * 0.3.

End DemoTone.

(** The crossfader component, which drives [AudioManager.setCrossfader]. *)
Module RealCrossfader.

(** What [getBoundingClientRect] reports of the slider. *)
Record Rect : Type := mkRect { rect_left : R; rect_width : R }.

(** [updateCrossfaderPosition]: the new [crossfaderPosition]; [sliderRef] is
    [None] while the slider is not mounted. *)
Definition updateCrossfaderPosition (sliderRef : option Rect) (clientX : R)
    (crossfaderPosition : R) : R :=
  match sliderRef with
  | None => crossfaderPosition
  | Some rect =>
      let x := clientX - rect_left rect in
      let width := rect_width rect in
      let position := (x / width) * 2 - 1 in
      Rmax (-1) (Rmin 1 position)
  end.

Definition getCrossfaderPercentage (crossfaderPosition : R) : R :=
  ((crossfaderPosition + 1) / 2) * 100.

(** [Math.round]: the nearest integer, halves upwards. *)
Definition jsRound (x : R) : Z := Int_part (x + 1 / 2).

Definition getChannelVolume (channel : DeckId) (crossfaderPosition : R) : Z :=
  match channel with
  | A => if Rle_dec crossfaderPosition 0 then 100%Z
         else jsRound ((1 - crossfaderPosition) * 100)
  | B => if Rge_dec crossfaderPosition 0 then 100%Z
         else jsRound ((1 + crossfaderPosition) * 100)
  end.

(** The effect that follows a change of [crossfaderPosition]. *)
Definition onCrossfaderPosition (crossfaderPosition : R) (m : AudioManager.t)
  : AudioManager.t :=
  AudioManager.setCrossfader crossfaderPosition m.

End RealCrossfader.

(** The time display of the deck component. *)
Module DeckController.

(** [Math.floor] *)
Definition jsFloor (x : R) : Z := Int_part x.

(** [x % y]: the remainder takes the sign of [x]. *)
Definition jsRem (x y : R) : R :=
  let q := x / y in
  let truncated := if Rle_dec 0 q then Int_part q else (- Int_part (- q))%Z in
  x - y * IZR truncated.

(** The two numbers [formatTime] prints as [mins:secs], the seconds padded to
    two digits. *)
Definition formatTime (seconds : R) : Z * Z :=
  let mins := jsFloor (seconds / 60) in
  let secs := jsFloor (jsRem seconds 60) in
  (mins, secs).

End DeckController.

(** The title the uploaders derive from a file name. *)
Module Uploader.
Import Stdlib.Strings.Ascii.

#[local] Open Scope char_scope.

Definition dotOrSlash (c : Ascii.ascii) : bool :=
  (Ascii.eqb c ".") || (Ascii.eqb c "/").

(** [[^/.]*$] matches all of [s] *)
Fixpoint plainTail (s : string) : bool :=
  match s with
  | EmptyString => true
  | String c rest => negb (dotOrSlash c) && plainTail rest
  end.

(** [[^/.]+$] matches all of [s] *)
Definition plainSuffix (s : string) : bool :=
  match s with
  | EmptyString => false
  | String _ _ => plainTail s
  end.

(** [name.replace(/\.[^/.]+$/, "")]: the leftmost place where the pattern
    matches is cut off. *)
Fixpoint stripExtension (name : string) : string :=
  match name with
  | EmptyString => EmptyString
  | String c rest =>
      if Ascii.eqb c "." && plainSuffix rest then EmptyString
      else String c (stripExtension rest)
  end.

End Uploader.

(** The session of the mock [SpotifyAPI] client.  Times are the
    milliseconds [Date.now()] reads. *)
Module SpotifyAPI.

#[local] Open Scope string_scope.
#[local] Open Scope Z_scope.

Record t : Type := mkSession {
  accessToken : option string;
  tokenExpiry : option Z
}.

Definition signedOut : t := mkSession None None.

(** [authenticate]: [stamp] is the first reading of [Date.now()] as printed,
    [now] the second. *)
Definition authenticate (stamp : string) (now : Z) (s : t) : t * bool :=
  (mkSession (Some ("mock_spotify_access_token_" ++ stamp)) (Some (now + 3600 * 1000)),
   true).

Definition isAuthenticated (now : Z) (s : t) : bool :=
  match accessToken s, tokenExpiry s with
  | Some _, Some expiry => now <? expiry
  | _, _ => false
  end.

(** [refreshToken]: [now] is read by the test, [stamp] and [now'] by the
    [authenticate] it may call.  An expiry of 0 is falsy. *)
Definition refreshToken (now : Z) (stamp : string) (now' : Z) (s : t) : t * bool :=
  match tokenExpiry s with
  | Some expiry =>
      if negb (expiry =? 0) && (expiry - 300000 <? now)
      then authenticate stamp now' s
      else (s, true)
  | None => (s, true)
  end.

Definition logout (s : t) : t := mkSession None None.

End SpotifyAPI.

(** * Proofs *)

(** The arithmetic of the reals is used through [lra] only: conversion must
    never try to compute with it. *)
#[local] Opaque Rplus Rmult Ropp Rinv Rle_dec Rlt_dec Rge_dec Req_dec_T.

(** ** Tactics *)

Ltac break_match :=
  match goal with
  | |- context [match ?x with _ => _ end] => destruct x eqn:?
  | H : context [match ?x with _ => _ end] |- _ => destruct x eqn:?
  end.

Ltac rewrite_eqs :=
  repeat match goal with
         | H : ?x = _ |- context [?x] => rewrite H
         end.

Ltac case_crush :=
  repeat (simpl in *; try break_match); simpl in *;
  repeat split; intros; simpl in *; rewrite_eqs; simpl;
  try congruence; try lra; try solve [intuition (try congruence; try lra)].

Ltac both_decks H :=
  let HA := fresh "HA" in
  let HB := fresh "HB" in
  pose proof (H A) as HA; pose proof (H B) as HB; clear H; simpl in HA, HB.

(** Settle a comparison of two concrete reals that blocks evaluation: one of
    the two outcomes is refuted by [lra].  An outer comparison whose
    arguments still contain an unsettled one fails here, so the match moves
    on to the inner one. *)
Ltac settle c :=
  first [ destruct c; [ | exfalso; lra ] | destruct c; [ exfalso; lra | ] ].

Ltac decide_R :=
  match goal with
  | |- context [Req_dec_T ?a ?b] => settle (Req_dec_T a b)
  | |- context [Rle_dec ?a ?b] => settle (Rle_dec a b)
  | |- context [Rge_dec ?a ?b] => settle (Rge_dec a b)
  | |- context [Rlt_dec ?a ?b] => settle (Rlt_dec a b)
  end.

(** Run a concrete scenario: evaluate by value everything but the
    arithmetic of the reals, and settle the comparisons that are left. *)
Ltac evaluate :=
  cbv -[Rplus Rminus Rmult Ropp Rinv Rdiv IZR Rle_dec Rlt_dec Rge_dec Req_dec_T];
  repeat (decide_R; cbv beta iota).

(** Close an equation between records or options that differ only in the
    way their real fields are written. *)
Ltac equate_reals :=
  repeat match goal with
         | |- @eq R _ _ => simpl; lra
         | |- _ => reflexivity
         | |- _ = _ => progress f_equal
         end.

(** ** The platform and the clamps *)

Lemma resumeIfSuspended_time c : currentTime (resumeIfSuspended c) = currentTime c.
Proof. unfold resumeIfSuspended, isSuspended. destruct (state c); reflexivity. Qed.

Lemma resumeIfSuspended_state c : state c <> Closed -> state (resumeIfSuspended c) = Running.
Proof. unfold resumeIfSuspended, isSuspended. destruct (state c) eqn:E; simpl; congruence. Qed.

Lemma advanceContext_running dt c :
  state c = Running -> 0 <= dt ->
  advanceContext dt c = mkContext (currentTime c + dt) Running.
Proof.
  intros Hs Hdt. unfold advanceContext. rewrite Hs.
  destruct (Rle_dec 0 dt); [reflexivity | contradiction].
Qed.

Lemma advanceContext_mono dt c : currentTime c <= currentTime (advanceContext dt c).
Proof.
  unfold advanceContext. destruct (state c); try lra.
  destruct (Rle_dec 0 dt); simpl; lra.
Qed.

Lemma jsClamp_clamp lo hi x : lo <= hi -> jsClamp lo hi x = clamp x lo hi.
Proof.
  intros Hle. unfold jsClamp, clamp, Rmax, Rmin.
  destruct (Rle_dec hi x), (Rlt_dec x lo), (Rlt_dec hi x);
    repeat match goal with |- context [Rle_dec ?a ?b] => destruct (Rle_dec a b) end; lra.
Qed.

Lemma jsClamp_inside lo hi x : lo <= x <= hi -> jsClamp lo hi x = x.
Proof.
  intros [H1 H2]. unfold jsClamp, Rmax, Rmin.
  destruct (Rle_dec hi x);
    repeat match goal with |- context [Rle_dec ?a ?b] => destruct (Rle_dec a b) end; lra.
Qed.

Lemma jsClamp_bounds lo hi x : lo <= hi -> lo <= jsClamp lo hi x <= hi.
Proof.
  intros Hle. unfold jsClamp, Rmax, Rmin.
  destruct (Rle_dec hi x);
    repeat match goal with |- context [Rle_dec ?a ?b] => destruct (Rle_dec a b) end; lra.
Qed.

Lemma fold_left_preserves {X Y : Type} (P : X -> Prop) (f : X -> Y -> X) (l : list Y) :
  (forall x y, P x -> P (f x y)) -> forall x, P x -> P (fold_left f l x).
Proof. intros Hf. induction l; simpl; auto. Qed.

(** ** The deck-based engine *)

Module EngineFacts.
Import AudioEngine.

(** *** The invariant of reachable states *)

Lemma stopDeck_inv d e : inv e -> inv (stopDeck d e).
Proof.
  intros (H1 & H2 & H3). both_decks H1. both_decks H2. both_decks H3.
  split; [|split]; intros d'; unfold stopDeck, mapDeck, stopSource, loadedBuffer in *;
    destruct d, d'; case_crush.
Qed.

Lemma loadTrackToDeck_inv a d e : inv e -> inv (loadTrackToDeck a d e).
Proof.
  intros (H1 & H2 & H3). both_decks H1. both_decks H2. both_decks H3.
  split; [|split]; intros d';
    unfold loadTrackToDeck, stopDeck, mapDeck, stopSource, loadedBuffer in *;
    destruct d, d'; case_crush.
Qed.

Lemma playDeck_inv d e : inv e -> inv (fst (playDeck d e)).
Proof.
  intros (H1 & H2 & H3). both_decks H1. both_decks H2. both_decks H3.
  split; [|split]; intros d'; unfold playDeck, loadedBuffer, mapDeck in *;
    destruct d, d'; case_crush.
Qed.

Lemma pauseDeck_inv d e : inv e -> inv (pauseDeck d e).
Proof.
  intros (H1 & H2 & H3). both_decks H1. both_decks H2. both_decks H3.
  split; [|split]; intros d'; unfold pauseDeck, mapDeck, stopSource, loadedBuffer in *;
    destruct d, d'; case_crush.
Qed.

Lemma setDeckVolume_inv d v e : inv e -> inv (setDeckVolume d v e).
Proof.
  intros (H1 & H2 & H3). both_decks H1. both_decks H2. both_decks H3.
  split; [|split]; intros d'; unfold setDeckVolume, mapDeck, loadedBuffer in *;
    destruct d, d'; case_crush.
Qed.

Lemma setMasterVolume_inv v e : inv e -> inv (setMasterVolume v e).
Proof.
  intros (H1 & H2 & H3). both_decks H1. both_decks H2. both_decks H3.
  split; [|split]; intros d'; unfold setMasterVolume, loadedBuffer in *;
    destruct d'; case_crush.
Qed.

Lemma setCrossfader_inv p e : inv e -> inv (setCrossfader p e).
Proof.
  intros (H1 & H2 & H3). both_decks H1. both_decks H2. both_decks H3.
  split; [|split]; intros d'; unfold setCrossfader, updateCrossfader, loadedBuffer in *;
    destruct d'; case_crush.
Qed.

Lemma getDeckState_inv d e : inv e -> inv (fst (getDeckState d e)).
Proof.
  intros (H1 & H2 & H3). both_decks H1. both_decks H2. both_decks H3.
  split; [|split]; intros d'; unfold getDeckState, mapDeck, loadedBuffer in *;
    destruct d, d'; case_crush.
Qed.

Lemma advance_deckState dt d e : deckState d (advance dt e) = deckState d e.
Proof. destruct d; reflexivity. Qed.

Lemma advance_deckSource dt d e : deckSource d (advance dt e) = deckSource d e.
Proof. destruct d; reflexivity. Qed.

Lemma advance_inv dt e : inv e -> inv (advance dt e).
Proof.
  intros (H1 & H2 & H3). split; [|split]; intros d'.
  - rewrite advance_deckSource, advance_deckState. apply H1.
  - rewrite advance_deckState. apply H2.
  - rewrite advance_deckState. intros Hp.
    destruct (H3 d' Hp) as (Hb & Hc & Hm). repeat split; [exact Hb | | exact Hm].
    unfold advance. simpl. destruct (audioContext e); [reflexivity | discriminate].
Qed.

Lemma set_nodes_inv ns e : inv e -> inv (set_nodes ns e).
Proof.
  intros (H1 & H2 & H3).
  split; [|split]; intros d'; [apply (H1 d') | apply (H2 d') | apply (H3 d')].
Qed.

Lemma dispatchEnded_inv i e : inv e -> inv (dispatchEnded i e).
Proof.
  intros H. unfold dispatchEnded.
  destruct (nodes e !! i); [|assumption].
  destruct (audioContext e) eqn:Hc; [|assumption].
  destruct (_ && _); [|assumption].
  unfold onended.
  pose proof (set_nodes_inv (alter markEnded i (nodes e)) e H) as He1.
  destruct (isPlaying _); [apply stopDeck_inv|]; assumption.
Qed.

Lemma step_inv e o : inv e -> inv (step e o).
Proof.
  destruct o; unfold step;
    auto using stopDeck_inv, loadTrackToDeck_inv, playDeck_inv, pauseDeck_inv,
      setDeckVolume_inv, setMasterVolume_inv, setCrossfader_inv, getDeckState_inv,
      advance_inv, dispatchEnded_inv.
Qed.

Lemma reachable_inv e : reachable e -> inv e.
Proof.
  induction 1.
  - split; [|split]; intros []; simpl; auto; discriminate.
  - split; [|split]; intros [];
      unfold create, initializeAudioContext, setupAudioGraph, updateCrossfader;
      simpl; auto; discriminate.
  - now apply step_inv.
Qed.

(** *** Transport on one deck *)

(** What [playDeck] does to a loaded deck that is not playing. *)
Lemma playDeck_starts d e c buf :
  graphReady e -> audioContext e = Some c ->
  loadedBuffer (deckState d e) = Some buf ->
  isPlaying (deckState d e) = false ->
  let e' := fst (playDeck d e) in
  snd (playDeck d e) = true /\
  audioContext e' = Some (resumeIfSuspended c) /\
  graphReady e' /\
  isPlaying (deckState d e') = true /\
  startTime (deckState d e') = currentTime c - position (deckState d e) /\
  audioTrack (deckState d e') = audioTrack (deckState d e) /\
  deckSource d e' = Some (length (nodes e)) /\
  nodes e' = nodes e ++ [mkNode d (buffer_duration buf) (position (deckState d e)) (currentTime c) false false].
Proof.
  intros (Hm & Hd & Hx) Hc Hb Hp.
  pose proof (Hd d) as Hd'. pose proof (Hx d) as Hx'.
  unfold playDeck. rewrite Hc.
  destruct (masterGainNode e) eqn:Em; [|discriminate].
  assert (Hds : forall c', deckState d (set_context c' e) = deckState d e) by (destruct d; reflexivity).
  assert (Hdg : forall c', deckGainNode d (set_context c' e) = deckGainNode d e) by (destruct d; reflexivity).
  assert (Hxg : forall c', crossfaderGain d (set_context c' e) = crossfaderGain d e) by (destruct d; reflexivity).
  rewrite Hds, Hdg, Hxg, Hb, Hp.
  destruct (deckGainNode d e) eqn:Eg; [|discriminate].
  destruct (crossfaderGain d e) eqn:Ex; [|discriminate].
  rewrite resumeIfSuspended_time.
  cbn [fst snd].
  repeat split; try (destruct d; reflexivity).
  - simpl. now rewrite Em.
  - intros d'. specialize (Hd d'). destruct d, d'; assumption.
  - intros d'. specialize (Hx d'). destruct d, d'; assumption.
Qed.


Lemma pauseDeck_pauses d e c src :
  audioContext e = Some c ->
  isPlaying (deckState d e) = true ->
  deckSource d e = Some src ->
  let e' := pauseDeck d e in
  audioContext e' = Some c /\
  (graphReady e -> graphReady e') /\
  isPlaying (deckState d e') = false /\
  position (deckState d e') = currentTime c - startTime (deckState d e) /\
  audioTrack (deckState d e') = audioTrack (deckState d e) /\
  deckSource d e' = None /\
  nodes e' = alter stopNode src (nodes e).
Proof.
  intros Hc Hp Hs. unfold pauseDeck. rewrite Hp, Hs, Hc.
  split; [destruct d; exact Hc|].
  split.
  { intros (Hm & Hd & Hx). split; [exact Hm|].
    split; intros d'; [specialize (Hd d') | specialize (Hx d')]; destruct d, d'; assumption. }
  repeat split; destruct d; reflexivity.
Qed.



Lemma advance_graphReady dt e : graphReady e -> graphReady (advance dt e).
Proof.
  intros (Hm & Hd & Hx). repeat split; [exact Hm | |]; intros d';
    [specialize (Hd d') | specialize (Hx d')]; destruct d'; assumption.
Qed.

Lemma deck_advance_running dt e c :
  audioContext e = Some c -> state c = Running -> 0 <= dt ->
  audioContext (advance dt e) = Some (mkContext (currentTime c + dt) Running).
Proof.
  intros Hc Hs Hdt. unfold advance. rewrite Hc. simpl.
  now rewrite advanceContext_running.
Qed.

Lemma getCurrentPosition_playing d e c :
  audioContext e = Some c -> isPlaying (deckState d e) = true ->
  getCurrentPosition d e = currentTime c - startTime (deckState d e).
Proof. intros Hc Hp. unfold getCurrentPosition. now rewrite Hp, Hc. Qed.

Lemma getCurrentPosition_stopped d e :
  isPlaying (deckState d e) = false ->
  getCurrentPosition d e = position (deckState d e).
Proof. intros Hp. unfold getCurrentPosition. now rewrite Hp. Qed.

Lemma loadedBuffer_audioTrack ds ds' :
  audioTrack ds' = audioTrack ds -> loadedBuffer ds' = loadedBuffer ds.
Proof. unfold loadedBuffer. now intros ->. Qed.

Lemma engine_round_trip d e c buf t1 t2 :
  graphReady e -> audioContext e = Some c -> state c <> Closed ->
  loadedBuffer (deckState d e) = Some buf ->
  isPlaying (deckState d e) = false ->
  0 <= t1 -> 0 <= t2 ->
  let p0 := position (deckState d e) in
  let paused := pauseDeck d (advance t1 (fst (playDeck d e))) in
  let resumed := advance t2 (fst (playDeck d paused)) in
  isPlaying (deckState d paused) = false /\
  getCurrentPosition d paused = p0 + t1 /\
  isPlaying (deckState d resumed) = true /\
  getCurrentPosition d resumed = p0 + t1 + t2.
Proof.
  intros Hg Hc Hs Hb Hp Ht1 Ht2 p0 paused resumed.
  destruct (playDeck_starts d e c buf Hg Hc Hb Hp)
    as (_ & Hc1 & Hg1 & Hp1 & Hst1 & Ha1 & Hsrc1 & _).
  set (e1 := fst (playDeck d e)) in *.
  pose proof (deck_advance_running t1 e1 _ Hc1 (resumeIfSuspended_state c Hs) Ht1) as Hc2.
  rewrite resumeIfSuspended_time in Hc2.
  set (e2 := advance t1 e1) in *.
  assert (Hd2 : deckState d e2 = deckState d e1) by apply advance_deckState.
  assert (Hp2 : isPlaying (deckState d e2) = true) by now rewrite Hd2.
  assert (Hsrc2 : deckSource d e2 = Some (length (nodes e))).
  { unfold e2. now rewrite advance_deckSource. }
  destruct (pauseDeck_pauses d e2 _ _ Hc2 Hp2 Hsrc2)
    as (Hc3 & Hg3 & Hp3 & Hpos3 & Ha3 & _ & _).
  fold paused in Hc3, Hg3, Hp3, Hpos3, Ha3.
  simpl in Hpos3. rewrite Hd2, Hst1 in Hpos3.
  assert (Hb3 : loadedBuffer (deckState d paused) = Some buf).
  { rewrite <- Hb. apply loadedBuffer_audioTrack. now rewrite Ha3, Hd2, Ha1. }
  specialize (Hg3 (advance_graphReady t1 e1 Hg1)).
  destruct (playDeck_starts d paused _ buf Hg3 Hc3 Hb3 Hp3)
    as (_ & Hc4 & Hg4 & Hp4 & Hst4 & _).
  set (e4 := fst (playDeck d paused)) in *.
  assert (Hrun : state (resumeIfSuspended (mkContext (currentTime c + t1) Running)) = Running)
    by reflexivity.
  pose proof (deck_advance_running t2 e4 _ Hc4 Hrun Ht2) as Hc5.
  fold resumed in Hc5. simpl in Hc5, Hst4.
  assert (Hd5 : deckState d resumed = deckState d e4) by apply advance_deckState.
  repeat split.
  - exact Hp3.
  - rewrite getCurrentPosition_stopped by exact Hp3. rewrite Hpos3. unfold p0. lra.
  - now rewrite Hd5.
  - rewrite (getCurrentPosition_playing d resumed _ Hc5) by now rewrite Hd5.
    rewrite Hd5, Hst4, Hpos3. simpl. unfold p0. lra.
Qed.


(** *** The ended event *)

(** Delivered while its deck is not playing, an [ended] event changes
    nothing but the flag of its node. *)
Lemma deck_ended_while_idle i e n :
  nodes e !! i = Some n ->
  isPlaying (deckState (node_deck n) e) = false ->
  audioContext (dispatchEnded i e) = audioContext e /\
  (forall d, deckState d (dispatchEnded i e) = deckState d e) /\
  (forall d, deckSource d (dispatchEnded i e) = deckSource d e).
Proof.
  intros Hn Hp. unfold dispatchEnded. rewrite Hn.
  destruct (audioContext e) as [c|] eqn:Hc; [|now repeat split].
  destruct (_ && _); [|now repeat split].
  unfold onended.
  assert (Hd : forall d ns, deckState d (set_nodes ns e) = deckState d e)
    by (intros []; reflexivity).
  rewrite Hd, Hp. repeat split; try assumption; intros []; reflexivity.
Qed.

(** *** Play without a buffer *)

Lemma deck_play_unloaded d e :
  loadedBuffer (deckState d e) = None ->
  snd (playDeck d e) = false /\
  (forall d', deckState d' (fst (playDeck d e)) = deckState d' e) /\
  (forall d', deckSource d' (fst (playDeck d e)) = deckSource d' e) /\
  nodes (fst (playDeck d e)) = nodes e.
Proof.
  intros Hb. unfold playDeck.
  destruct (audioContext e) as [c|]; [|repeat split].
  destruct (masterGainNode e); [|repeat split].
  assert (Hds : deckState d (set_context (Some (resumeIfSuspended c)) e) = deckState d e)
    by (destruct d; reflexivity).
  rewrite Hds, Hb. repeat split; intros []; reflexivity.
Qed.

(** *** Redundant calls *)






Lemma deck_stop_resets d e :
  isPlaying (deckState d (stopDeck d e)) = false /\
  position (deckState d (stopDeck d e)) = 0.
Proof. unfold stopDeck, mapDeck, stopSource. destruct d; case_crush. Qed.


(** *** The position clock *)





(** *** Loading *)

Lemma deck_load_resets a d e :
  sourceIffPlaying e ->
  let e' := loadTrackToDeck a d e in
  audioTrack (deckState d e') = Some a /\
  position (deckState d e') = 0 /\
  isPlaying (deckState d e') = false /\
  deckSource d e' = None /\
  (forall src, deckSource d e = Some src -> nodes e' = alter stopNode src (nodes e)).
Proof.
  intros H. both_decks H.
  unfold loadTrackToDeck, stopDeck, mapDeck, stopSource. destruct d; case_crush;
    match goal with
    | H : present ?o = false |- _ => destruct o; simpl in H; congruence
    end.
Qed.

(** *** The gain setters *)

Lemma deck_setDeckVolume_frame d v e : sameTransport e (setDeckVolume d v e).
Proof.
  unfold sameTransport, setDeckVolume, mapDeck.
  destruct (deckGainNode d e);
    (split; [|split; [|intros d0; destruct d, d0; repeat split]]); destruct d; reflexivity.
Qed.

Lemma deck_setMasterVolume_frame v e : sameTransport e (setMasterVolume v e).
Proof.
  unfold sameTransport, setMasterVolume.
  destruct (masterGainNode e);
    (split; [|split; [|intros d0; destruct d0; repeat split]]); reflexivity.
Qed.

Lemma deck_setCrossfader_frame p e : sameTransport e (setCrossfader p e).
Proof.
  unfold sameTransport, setCrossfader, updateCrossfader. simpl.
  destruct (crossfaderGainA e) eqn:Ha, (crossfaderGainB e) eqn:Hb, (audioContext e) eqn:Hc;
    (split; [|split; [|intros d0; destruct d0; repeat split]]); simpl; congruence.
Qed.

(** *** The crossfader *)


End EngineFacts.

(** ** The track-handle engine *)

Module ManagerFacts.
Import AudioManager.

(** *** The [tracks] map *)

Lemma In_tracks_get k r ts :
  NoDup (map fst ts) -> In (k, r) ts -> tracks_get k ts = Some r.
Proof.
  induction ts as [|[k' r'] ts IH]; simpl; [tauto|].
  intros Hnd [Heq|Hin].
  - inversion Heq; subst. now rewrite String.eqb_refl.
  - apply NoDup_cons in Hnd as [Hnotin Hnd].
    destruct (String.eqb_spec k k') as [->|Hne]; [|auto].
    exfalso. apply Hnotin. apply list_elem_of_In. apply (in_map fst) in Hin. exact Hin.
Qed.

Lemma tracks_set_keys k r ts x :
  In x (map fst (tracks_set k r ts)) -> x = k \/ In x (map fst ts).
Proof.
  induction ts as [|[k' r'] ts IH]; simpl.
  - intuition congruence.
  - destruct (String.eqb_spec k k') as [->|Hne]; simpl; intuition congruence.
Qed.

Lemma tracks_set_NoDup k r ts :
  NoDup (map fst ts) -> NoDup (map fst (tracks_set k r ts)).
Proof.
  induction ts as [|[k' r'] ts IH]; simpl; intros Hnd.
  - apply NoDup_cons. split; [apply not_elem_of_nil | constructor].
  - apply NoDup_cons in Hnd as [Hnotin Hnd].
    destruct (String.eqb_spec k k') as [->|Hne]; simpl.
    + apply NoDup_cons. auto.
    + apply NoDup_cons. split; [|auto].
      intros Hin. apply list_elem_of_In in Hin. apply tracks_set_keys in Hin as [->|Hin]; [congruence|].
      apply Hnotin. now apply list_elem_of_In.
Qed.

Lemma tracks_set_In k r ts k0 r0 :
  In (k0, r0) (tracks_set k r ts) -> (k0, r0) = (k, r) \/ In (k0, r0) ts.
Proof.
  induction ts as [|[k' r'] ts IH]; simpl.
  - intuition congruence.
  - destruct (String.eqb_spec k k') as [->|Hne]; simpl; intuition congruence.
Qed.

Lemma tracks_get_set_eq k r ts : tracks_get k (tracks_set k r ts) = Some r.
Proof.
  induction ts as [|[k' r'] ts IH]; simpl.
  - now rewrite String.eqb_refl.
  - destruct (String.eqb_spec k k') as [->|Hne]; simpl.
    + now rewrite String.eqb_refl.
    + destruct (String.eqb_spec k k'); congruence.
Qed.

Lemma tracks_get_set_ne k k0 r ts :
  k0 <> k -> tracks_get k0 (tracks_set k r ts) = tracks_get k0 ts.
Proof.
  intros Hne. induction ts as [|[k' r'] ts IH]; simpl.
  - destruct (String.eqb_spec k0 k); congruence.
  - destruct (String.eqb_spec k k') as [->|Hne']; simpl.
    + destruct (String.eqb_spec k0 k'); congruence.
    + destruct (String.eqb_spec k0 k'); congruence.
Qed.


Lemma wf_ext m m' : tracks m' = tracks m -> heap m' = heap m -> wf m -> wf m'.
Proof. intros Ht Hh [H1 H2 H3]. split; rewrite ?Ht, ?Hh; assumption. Qed.

Lemma wf_mapTrack r f m :
  (forall a, heap m !! r = Some a -> playingHasSource a -> playingHasSource (f a)) ->
  wf m -> wf (mapTrack r f m).
Proof.
  intros Hf [H1 H2 H3]. split; simpl.
  - assumption.
  - intros k r' Hin. apply lookup_lt_is_Some. rewrite length_alter.
    apply lookup_lt_is_Some. eauto.
  - apply Forall_alter; [assumption|]. intros a Ha. apply Hf. assumption.
Qed.

Lemma wf_stopSource src m : wf m -> wf (stopSource src m).
Proof. destruct src; [apply wf_ext; reflexivity | auto]. Qed.

Lemma playTrack_wf k d m : wf m -> wf (fst (playTrack k d m)).
Proof.
  intros H. unfold playTrack.
  destruct (audioContext m) as [c|]; [|assumption].
  destruct (trackRef k m) as [r|]; [|assumption].
  destruct (heap m !! r) as [a|] eqn:Hr; [|assumption].
  destruct (deckGain d m); [|assumption].
  cbn [fst]. apply wf_mapTrack; [intros; intro; reflexivity|].
  eapply wf_ext;
    [| |apply (wf_stopSource (source a)),
          (wf_ext m (set_context (Some (resumeIfSuspended c)) m)); try reflexivity; exact H];
  destruct (source a); reflexivity.
Qed.

Lemma pauseTrack_wf k m : wf m -> wf (fst (pauseTrack k m)).
Proof.
  intros H. unfold pauseTrack.
  destruct (trackRef k m) as [r|]; [|assumption].
  destruct (audioContext m) as [c|]; [|assumption].
  destruct (heap m !! r) as [a|] eqn:Hr; [|assumption].
  destruct (isPlaying a); [|assumption].
  cbn [fst]. apply wf_mapTrack; [intros ? ? ? ?; discriminate|].
  now apply wf_stopSource.
Qed.

Lemma stopTrack_wf k m : wf m -> wf (fst (stopTrack k m)).
Proof.
  intros H. unfold stopTrack.
  destruct (trackRef k m) as [r|]; [|assumption].
  destruct (heap m !! r) as [a|] eqn:Hr; [|assumption].
  cbn [fst]. apply wf_mapTrack; [intros ? ? ? ?; discriminate|].
  now apply wf_stopSource.
Qed.

Lemma seekTo_wf k p d m : wf m -> wf (fst (seekTo k p d m)).
Proof.
  intros H. unfold seekTo.
  destruct (trackRef k m) as [r|]; [|assumption].
  destruct (heap m !! r) as [a|] eqn:Hr; [|assumption].
  cbn [fst].
  assert (H2 : wf (mapTrack r (with_pausedAt (jsClamp 0 (duration a) p)) (fst (stopTrack k m)))).
  { apply wf_mapTrack; [intros ? ? Hp; exact Hp | now apply stopTrack_wf]. }
  destruct (_ && _); [now apply playTrack_wf | assumption].
Qed.

Lemma updatePosition_wf m entry : wf m -> wf (updatePosition m entry).
Proof.
  intros H. destruct entry as [k r]. unfold updatePosition.
  destruct (heap m !! r) as [a|] eqn:Hr; [|assumption].
  destruct (audioContext m) as [c|]; [|assumption].
  destruct (isPlaying a); [|assumption].
  assert (H1 : wf (mapTrack r (with_currentTime (WebAudio.currentTime c - startTime a)) m)).
  { apply wf_mapTrack; [intros ? ? Hp; exact Hp | assumption]. }
  destruct (Rge_dec _ _); [now apply stopTrack_wf|].
  unfold notifyPosition. destruct (callbacksSet _); [|assumption].
  eapply wf_ext; [| |exact H1]; reflexivity.
Qed.


Lemma updatePositions_wf m : wf m -> wf (updatePositions m).
Proof. apply fold_left_preserves. intros; now apply updatePosition_wf. Qed.

Lemma onended_wf r d m : wf m -> wf (onended r d m).
Proof.
  intros H. unfold onended.
  destruct (heap m !! r) eqn:Hr; [|assumption].
  destruct (isPlaying a); [|assumption].
  unfold notifyTrackEnd.
  assert (H1 : wf (mapTrack r (fun a => with_pausedAt 0 (with_currentTime 0 (with_isPlaying false a))) m)).
  { apply wf_mapTrack; [intros ? ? ? ?; discriminate | assumption]. }
  destruct (callbacksSet _); [|assumption].
  eapply wf_ext; [| |exact H1]; reflexivity.
Qed.

Lemma dispatchEnded_wf i m : wf m -> wf (dispatchEnded i m).
Proof.
  intros H. unfold dispatchEnded.
  destruct (nodes m !! i); [|assumption].
  destruct (audioContext m); [|assumption].
  destruct (_ && _); [|assumption].
  apply onended_wf. eapply wf_ext; [| |exact H]; reflexivity.
Qed.

Lemma loadTrack_wf b k m : wf m -> wf (fst (loadTrack b k m)).
Proof.
  intros [H1 H2 H3]. unfold loadTrack.
  destruct (audioContext m); [|split; assumption].
  destruct b as [b|]; [|split; assumption].
  split; simpl.
  - now apply tracks_set_NoDup.
  - intros k0 r0 Hin. apply tracks_set_In in Hin as [Heq|Hin].
    + inversion Heq; subst. exists (freshTrack k b).
      rewrite lookup_app_r by reflexivity. now rewrite Nat.sub_diag.
    + destruct (H2 _ _ Hin) as [x Hx]. exists x. now apply lookup_app_l_Some.
  - apply Forall_app. split; [assumption|]. constructor; [|constructor].
    intros Hp. discriminate.
Qed.

Lemma createDemoTrack_wf b f dur k m : wf m -> wf (fst (createDemoTrack b f dur k m)).
Proof.
  intros [H1 H2 H3]. unfold createDemoTrack.
  destruct (audioContext m); [|split; assumption].
  destruct b as [b|]; [|split; assumption].
  split; simpl.
  - now apply tracks_set_NoDup.
  - intros k0 r0 Hin. apply tracks_set_In in Hin as [Heq|Hin].
    + inversion Heq; subst. eexists.
      rewrite lookup_app_r by reflexivity. now rewrite Nat.sub_diag.
    + destruct (H2 _ _ Hin) as [x Hx]. exists x. now apply lookup_app_l_Some.
  - apply Forall_app. split; [assumption|]. constructor; [|constructor].
    intros Hp. discriminate.
Qed.

Lemma initializeAudioContext_wf c m : wf m -> wf (initializeAudioContext c m).
Proof.
  intros H. apply updatePositions_wf. revert H. apply wf_ext; reflexivity.
Qed.

Lemma cleanup_wf m : wf m -> wf (cleanup m).
Proof.
  intros H.
  assert (H1 : wf (stopAll (tracks m) m)).
  { unfold stopAll. apply fold_left_preserves; [|exact H].
    intros x y. apply stopTrack_wf. }
  destruct H1 as [_ _ H3]. split; simpl; [constructor | tauto | exact H3].
Qed.

Lemma step_wf m o : wf m -> wf (step m o).
Proof.
  destruct o; unfold step;
    auto using playTrack_wf, pauseTrack_wf, stopTrack_wf, seekTo_wf,
      updatePositions_wf, dispatchEnded_wf, loadTrack_wf, createDemoTrack_wf,
      initializeAudioContext_wf, cleanup_wf.
  - apply wf_ext; reflexivity.
  - apply wf_ext; unfold setDeckVolume; destruct (deckGain d m), d; reflexivity.
  - apply wf_ext; unfold setMasterVolume; destruct (masterGain m), (audioContext m); reflexivity.
  - apply wf_ext; unfold setCrossfader;
      destruct (deckAGain m), (deckBGain m), (audioContext m); reflexivity.
  - apply wf_ext; reflexivity.
Qed.

Lemma reachable_wf m : reachable m -> wf m.
Proof.
  induction 1; [|now apply step_wf].
  split; simpl; [constructor | tauto | constructor].
Qed.


(** *** Loading *)

(** [loadTrack] registers a fresh track at rest under the id; it touches no
    source node and no track object that existed before. *)
Lemma loadTrack_registers b k m c :
  audioContext m = Some c ->
  let m' := fst (loadTrack (Some b) k m) in
  snd (loadTrack (Some b) k m) = true /\
  getTrack k m' = Some (freshTrack k b) /\
  (forall k', k' <> k -> trackRef k' m' = trackRef k' m) /\
  nodes m' = nodes m /\
  (forall r a, heap m !! r = Some a -> heap m' !! r = Some a).
Proof.
  intros Hc. unfold loadTrack. rewrite Hc. cbn [fst snd].
  split; [reflexivity|]. split; [|split; [|split]].
  - unfold getTrack, trackRef. simpl. rewrite tracks_get_set_eq.
    rewrite lookup_app_r by reflexivity. now rewrite Nat.sub_diag.
  - intros k' Hne. unfold trackRef. simpl. now apply tracks_get_set_ne.
  - reflexivity.
  - intros r a Ha. simpl. now apply lookup_app_l_Some.
Qed.

(** *** Transport on one track *)



Lemma orZero_id x : orZero x = x.
Proof. unfold orZero. destruct (Req_dec_T x 0); congruence. Qed.

Lemma length_stopSource src m : length (nodes (stopSource src m)) = length (nodes m).
Proof. destruct src; simpl; [apply length_alter | reflexivity]. Qed.

Lemma mapTrack_lookup r f m a :
  heap m !! r = Some a -> heap (mapTrack r f m) !! r = Some (f a).
Proof. intros H. simpl. rewrite list_lookup_alter_eq. now rewrite H. Qed.

Lemma mapTrack_lookup_ne r r' f m :
  r <> r' -> heap (mapTrack r f m) !! r' = heap m !! r'.
Proof. intros H. simpl. now apply list_lookup_alter_ne. Qed.

Lemma getTrack_lookup k m r a :
  trackRef k m = Some r -> heap m !! r = Some a -> getTrack k m = Some a.
Proof. intros Hr Ha. unfold getTrack. now rewrite Hr. Qed.

(** What [playTrack] does to a track of the map. *)
Lemma playTrack_starts k d m c r a g :
  audioContext m = Some c -> trackRef k m = Some r -> heap m !! r = Some a ->
  deckGain d m = Some g ->
  let m' := fst (playTrack k d m) in
  let offset := pausedAt a in
  let now := WebAudio.currentTime c in
  snd (playTrack k d m) = true /\
  audioContext m' = Some (resumeIfSuspended c) /\
  tracks m' = tracks m /\
  (forall d', deckGain d' m' = deckGain d' m) /\
  heap m' !! r =
    Some (mkTrack (id a) (audioBuffer a) (Some (length (nodes m))) (Some (mkGain 1))
            true (now - offset) 0 (duration a) (currentTime a)) /\
  nodes m' = nodes (stopSource (source a) m)
             ++ [mkNode r d (buffer_duration (audioBuffer a)) offset now false true false] /\
  onTrackEndCalls m' = onTrackEndCalls m.
Proof.
  intros Hc Hr Ha Hg. unfold playTrack. rewrite Hc, Hr, Ha, Hg.
  rewrite orZero_id, resumeIfSuspended_time. cbn [fst snd].
  rewrite length_stopSource.
  destruct a as [i b [src|] gn p st pa du ct]; simpl;
    (split; [reflexivity|]; split; [reflexivity|]; split; [reflexivity|];
     split; [intros []; reflexivity|]; split; [|split; reflexivity]);
    rewrite list_lookup_alter_eq, Ha; reflexivity.
Qed.

Lemma pauseTrack_pauses k m c r a :
  audioContext m = Some c -> trackRef k m = Some r -> heap m !! r = Some a ->
  isPlaying a = true ->
  let m' := fst (pauseTrack k m) in
  let p := WebAudio.currentTime c - startTime a in
  snd (pauseTrack k m) = true /\
  audioContext m' = Some c /\
  tracks m' = tracks m /\
  (forall d', deckGain d' m' = deckGain d' m) /\
  heap m' !! r =
    Some (mkTrack (id a) (audioBuffer a) (source a) (gainNode a)
            false (startTime a) p (duration a) p) /\
  nodes m' = nodes (stopSource (source a) m) /\
  onTrackEndCalls m' = onTrackEndCalls m.
Proof.
  intros Hc Hr Ha Hp. unfold pauseTrack. rewrite Hc, Hr, Ha, Hp. cbn [fst snd].
  destruct a as [i b [src|] gn p st pa du ct]; simpl;
    (split; [reflexivity|]; split; [exact Hc|]; split; [reflexivity|];
     split; [intros []; reflexivity|]; split; [|split; reflexivity]);
    rewrite list_lookup_alter_eq, Ha; reflexivity.
Qed.

Lemma stopTrack_stops k m r a :
  trackRef k m = Some r -> heap m !! r = Some a ->
  let m' := fst (stopTrack k m) in
  snd (stopTrack k m) = true /\
  audioContext m' = audioContext m /\
  tracks m' = tracks m /\
  (forall d', deckGain d' m' = deckGain d' m) /\
  heap m' !! r =
    Some (mkTrack (id a) (audioBuffer a) (source a) (gainNode a)
            false 0 0 (duration a) 0) /\
  nodes m' = nodes (stopSource (source a) m) /\
  onTrackEndCalls m' = onTrackEndCalls m.
Proof.
  intros Hr Ha. unfold stopTrack. rewrite Hr, Ha. cbn [fst snd].
  destruct a as [i b [src|] gn p st pa du ct]; simpl;
    (split; [reflexivity|]; split; [reflexivity|]; split; [reflexivity|];
     split; [intros []; reflexivity|]; split; [|split; reflexivity]);
    rewrite list_lookup_alter_eq, Ha; reflexivity.
Qed.

Lemma track_advance_running dt m c :
  audioContext m = Some c -> state c = Running -> 0 <= dt ->
  audioContext (advance dt m) = Some (mkContext (WebAudio.currentTime c + dt) Running).
Proof.
  intros Hc Hs Hdt. unfold advance. rewrite Hc. simpl.
  now rewrite advanceContext_running.
Qed.

Lemma getCurrentTime_playing k m c r a :
  audioContext m = Some c -> trackRef k m = Some r -> heap m !! r = Some a ->
  isPlaying a = true ->
  getCurrentTime k m = WebAudio.currentTime c - startTime a.
Proof.
  intros Hc Hr Ha Hp. unfold getCurrentTime.
  now rewrite (getTrack_lookup k m r a Hr Ha), Hc, Hp.
Qed.

Lemma getCurrentTime_stopped k m c r a :
  audioContext m = Some c -> trackRef k m = Some r -> heap m !! r = Some a ->
  isPlaying a = false ->
  getCurrentTime k m = pausedAt a.
Proof.
  intros Hc Hr Ha Hp. unfold getCurrentTime.
  now rewrite (getTrack_lookup k m r a Hr Ha), Hc, Hp.
Qed.

Lemma manager_round_trip k d m c r a g t1 t2 :
  audioContext m = Some c -> state c <> Closed ->
  trackRef k m = Some r -> heap m !! r = Some a -> deckGain d m = Some g ->
  isPlaying a = false ->
  0 <= t1 -> 0 <= t2 ->
  let p0 := pausedAt a in
  let paused := fst (pauseTrack k (advance t1 (fst (playTrack k d m)))) in
  let resumed := advance t2 (fst (playTrack k d paused)) in
  snd (pauseTrack k (advance t1 (fst (playTrack k d m)))) = true /\
  getCurrentTime k paused = p0 + t1 /\
  snd (playTrack k d paused) = true /\
  getCurrentTime k resumed = p0 + t1 + t2.
Proof.
  intros Hc Hs Hr Ha Hg Hp Ht1 Ht2 p0 paused resumed.
  destruct (playTrack_starts k d m c r a g Hc Hr Ha Hg)
    as (_ & Hc1 & Htr1 & Hg1 & Ha1 & _).
  set (m1 := fst (playTrack k d m)) in *.
  pose proof (track_advance_running t1 m1 _ Hc1 (resumeIfSuspended_state c Hs) Ht1) as Hc2.
  rewrite resumeIfSuspended_time in Hc2.
  set (m2 := advance t1 m1) in *.
  assert (Hr2 : trackRef k m2 = Some r) by (unfold trackRef in *; simpl; now rewrite Htr1).
  destruct (pauseTrack_pauses k m2 _ r _ Hc2 Hr2 Ha1 eq_refl)
    as (Hok3 & Hc3 & Htr3 & Hg3 & Ha3 & _).
  fold paused in Hc3, Htr3, Hg3, Ha3. cbn [startTime WebAudio.currentTime] in Ha3.
  assert (Hr3 : trackRef k paused = Some r) by (unfold trackRef in *; now rewrite Htr3).
  assert (Hg3' : deckGain d paused = Some g).
  { rewrite Hg3. rewrite <- Hg, <- (Hg1 d). destruct d; reflexivity. }
  destruct (playTrack_starts k d paused _ r _ g Hc3 Hr3 Ha3 Hg3')
    as (Hok4 & Hc4 & Htr4 & _ & Ha4 & _).
  set (m4 := fst (playTrack k d paused)) in *.
  cbn [pausedAt WebAudio.currentTime] in Ha4.
  assert (Hrun : state (resumeIfSuspended (mkContext (WebAudio.currentTime c + t1) Running))
                 = Running) by reflexivity.
  pose proof (track_advance_running t2 m4 _ Hc4 Hrun Ht2) as Hc5. fold resumed in Hc5.
  assert (Hr5 : trackRef k resumed = Some r) by (unfold trackRef in *; simpl; now rewrite Htr4).
  repeat split.
  - exact Hok3.
  - rewrite (getCurrentTime_stopped k paused _ r _ Hc3 Hr3 Ha3 eq_refl). simpl.
    unfold p0. lra.
  - exact Hok4.
  - rewrite (getCurrentTime_playing k resumed _ r _ Hc5 Hr5 Ha4 eq_refl). simpl.
    unfold p0. lra.
Qed.


Lemma alter_twice {X : Type} (f : X -> X) i (l : list X) :
  (forall x, f (f x) = f x) -> alter f i (alter f i l) = alter f i l.
Proof.
  intros Hf. revert i. induction l as [|x l IH]; intros [|i]; simpl; try reflexivity.
  - now rewrite Hf.
  - f_equal. apply IH.
Qed.

(** *** The ended event *)

(** Delivered while its track is not playing, an [ended] event changes
    nothing but the flag of its node. *)
Lemma track_ended_while_idle i m n a :
  nodes m !! i = Some n ->
  heap m !! node_track n = Some a -> isPlaying a = false ->
  audioContext (dispatchEnded i m) = audioContext m /\
  tracks (dispatchEnded i m) = tracks m /\
  heap (dispatchEnded i m) = heap m /\
  onTrackEndCalls (dispatchEnded i m) = onTrackEndCalls m.
Proof.
  intros Hn Ha Hp. unfold dispatchEnded. rewrite Hn.
  destruct (audioContext m) as [c|] eqn:Hc; [|now repeat split].
  destruct (_ && _); [|now repeat split].
  unfold onended. simpl. rewrite Ha, Hp. repeat split. exact Hc.
Qed.

(** *** The audio graph is built in one piece *)

Lemma graphView_stopTrack k m : graphView (fst (stopTrack k m)) = graphView m.
Proof.
  unfold stopTrack. destruct (trackRef k m) as [r|]; [|reflexivity].
  destruct (heap m !! r) as [a|]; [|reflexivity]. now destruct (source a).
Qed.

Lemma graphView_playTrack k d m : graphView (fst (playTrack k d m)) = graphView m.
Proof.
  unfold playTrack. destruct (audioContext m) as [c|] eqn:Hc; [|reflexivity].
  destruct (trackRef k m) as [r|]; [|reflexivity].
  destruct (heap m !! r) as [a|]; [|reflexivity].
  destruct (deckGain d m); [|reflexivity].
  unfold graphView. rewrite Hc. now destruct (source a).
Qed.

Lemma graphView_pauseTrack k m : graphView (fst (pauseTrack k m)) = graphView m.
Proof.
  unfold pauseTrack. destruct (trackRef k m) as [r|]; [|reflexivity].
  destruct (audioContext m) as [c|] eqn:Hc; [|reflexivity].
  destruct (heap m !! r) as [a|]; [|reflexivity].
  destruct (isPlaying a); [|reflexivity].
  destruct (source a); unfold graphView; simpl; now rewrite Hc.
Qed.

Lemma graphView_seekTo k p d m : graphView (fst (seekTo k p d m)) = graphView m.
Proof.
  unfold seekTo. destruct (trackRef k m) as [r|]; [|reflexivity].
  destruct (heap m !! r) as [a|]; [|reflexivity]. cbn [fst].
  destruct (_ && _); [rewrite graphView_playTrack|]; apply (graphView_stopTrack k m).
Qed.

Lemma graphView_updatePosition m entry : graphView (updatePosition m entry) = graphView m.
Proof.
  destruct entry as [k r]. unfold updatePosition.
  destruct (heap m !! r) as [a|]; [|reflexivity].
  destruct (audioContext m) as [c|] eqn:Hc; [|reflexivity].
  destruct (isPlaying a); [|reflexivity].
  destruct (Rge_dec _ _).
  - rewrite graphView_stopTrack. unfold graphView. simpl. now rewrite Hc.
  - unfold notifyPosition, graphView. destruct (callbacksSet _); simpl; now rewrite Hc.
Qed.

Lemma graphView_dispatchEnded i m : graphView (dispatchEnded i m) = graphView m.
Proof.
  unfold dispatchEnded. destruct (nodes m !! i) as [n|]; [|reflexivity].
  destruct (audioContext m) as [c|] eqn:Hc; [|reflexivity].
  destruct (_ && _); [|unfold graphView; now rewrite Hc].
  unfold onended. simpl.
  destruct (heap m !! node_track n) as [a|]; [|unfold graphView; simpl; now rewrite Hc].
  destruct (isPlaying a); [|unfold graphView; simpl; now rewrite Hc].
  unfold notifyTrackEnd, graphView. simpl. destruct (callbacksSet m); simpl; now rewrite Hc.
Qed.

Lemma graphView_updatePositions m : graphView (updatePositions m) = graphView m.
Proof.
  unfold updatePositions.
  apply (fold_left_preserves (fun s => graphView s = graphView m)); auto.
  intros x y Hx. now rewrite graphView_updatePosition.
Qed.

Lemma graphView_cleanup m : graphView (cleanup m) = graphView m.
Proof.
  assert (H : graphView (stopAll (tracks m) m) = graphView m).
  { unfold stopAll.
    apply (fold_left_preserves (fun s => graphView s = graphView m)); auto.
    intros x y Hx. now rewrite graphView_stopTrack. }
  rewrite <- H. unfold cleanup, graphView. simpl.
  now destruct (audioContext (stopAll (tracks m) m)).
Qed.

Lemma step_graphWhole m o : graphWhole m -> graphWhole (step m o).
Proof.
  intros H. destruct o; unfold step.
  - right. unfold initializeAudioContext. now rewrite graphView_updatePositions.
  - exact H.
  - unfold graphWhole, loadTrack.
    destruct (audioContext m) eqn:Hc; [|exact H]. destruct decoded; exact H.
  - unfold graphWhole. now rewrite graphView_playTrack.
  - unfold graphWhole. now rewrite graphView_pauseTrack.
  - unfold graphWhole. now rewrite graphView_stopTrack.
  - unfold graphWhole. now rewrite graphView_seekTo.
  - assert (Hv : graphView (setDeckVolume d v m) = graphView m); [|unfold graphWhole; now rewrite Hv].
    unfold setDeckVolume.
    destruct d; simpl; [destruct (deckAGain m) eqn:Hg | destruct (deckBGain m) eqn:Hg];
      unfold graphView; simpl; now rewrite ?Hg.
  - assert (Hv : graphView (setMasterVolume v m) = graphView m); [|unfold graphWhole; now rewrite Hv].
    unfold setMasterVolume.
    destruct (masterGain m) eqn:Hg, (audioContext m) eqn:Hc;
      unfold graphView; simpl; now rewrite ?Hg, ?Hc.
  - assert (Hv : graphView (setCrossfader p m) = graphView m); [|unfold graphWhole; now rewrite Hv].
    unfold setCrossfader.
    destruct (deckAGain m) eqn:Ha, (deckBGain m) eqn:Hb, (audioContext m) eqn:Hc;
      unfold graphView; simpl; now rewrite ?Ha, ?Hb, ?Hc.
  - unfold graphWhole. now rewrite graphView_updatePositions.
  - assert (Hv : graphView (advance dt m) = graphView m); [|unfold graphWhole; now rewrite Hv].
    unfold graphView, advance. simpl. now destruct (audioContext m).
  - unfold graphWhole. now rewrite graphView_dispatchEnded.
  - unfold graphWhole, createDemoTrack.
    destruct (audioContext m) eqn:Hc; [|exact H]. destruct created; exact H.
  - unfold graphWhole. now rewrite graphView_cleanup.
Qed.

(** Whenever the manager has a context it has both deck gains, so the
    non-null assertion in [playTrack] never fails. *)
Lemma reachable_graphWhole m : reachable m -> graphWhole m.
Proof.
  induction 1; [left; reflexivity | now apply step_graphWhole].
Qed.

Lemma reachable_deckGain m d :
  reachable m -> present (audioContext m) = true -> present (deckGain d m) = true.
Proof.
  intros Hr Hc. destruct (reachable_graphWhole m Hr) as [H|H];
    unfold graphView in H; inversion H; destruct d; simpl; congruence.
Qed.

(** *** Seeking *)

Lemma seek_paused k pos d m c r a :
  audioContext m = Some c -> trackRef k m = Some r -> heap m !! r = Some a ->
  isPlaying a = false -> 0 <= duration a ->
  let m' := fst (seekTo k pos d m) in
  snd (seekTo k pos d m) = true /\
  getCurrentTime k m' = clamp pos 0 (duration a) /\
  exists a', heap m' !! r = Some a' /\ isPlaying a' = false /\
             pausedAt a' = clamp pos 0 (duration a) /\ source a' = source a.
Proof.
  intros Hc Hr Ha Hp Hd. unfold seekTo. rewrite Hr, Ha, Hp. cbn [fst snd andb].
  destruct (stopTrack_stops k m r a Hr Ha) as (_ & Hc1 & Htr1 & _ & Ha1 & _).
  set (m1 := fst (stopTrack k m)) in *.
  pose proof (mapTrack_lookup r (with_pausedAt (jsClamp 0 (duration a) pos)) m1 _ Ha1) as Ha2.
  set (m2 := mapTrack r _ m1) in *.
  assert (Hc2 : audioContext m2 = Some c) by (simpl; congruence).
  assert (Hr2 : trackRef k m2 = Some r) by (unfold trackRef in *; simpl; now rewrite Htr1).
  split; [reflexivity|]. split.
  - rewrite (getCurrentTime_stopped k m2 c r _ Hc2 Hr2 Ha2 eq_refl). simpl.
    now apply jsClamp_clamp.
  - eexists. split; [exact Ha2|]. simpl. repeat split. now apply jsClamp_clamp.
Qed.

Lemma seek_playing k pos d m c r a g :
  audioContext m = Some c -> isSuspended c = false ->
  trackRef k m = Some r -> heap m !! r = Some a ->
  deckGain d m = Some g ->
  isPlaying a = true -> 0 <= duration a ->
  let m' := fst (seekTo k pos d m) in
  let q := clamp pos 0 (duration a) in
  snd (seekTo k pos d m) = true /\
  getCurrentTime k m' = q /\
  nodes m' = nodes (stopSource (source a) m)
             ++ [mkNode r d (buffer_duration (audioBuffer a)) q (WebAudio.currentTime c)
                   false true false] /\
  exists a', heap m' !! r = Some a' /\ isPlaying a' = true /\
             source a' = Some (length (nodes m)).
Proof.
  intros Hc Hs Hr Ha Hg Hp Hd. unfold seekTo. rewrite Hr, Ha, Hp. cbn [fst snd andb].
  destruct (stopTrack_stops k m r a Hr Ha) as (_ & Hc1 & Htr1 & Hg1 & Ha1 & Hn1 & _).
  set (m1 := fst (stopTrack k m)) in *.
  pose proof (mapTrack_lookup r (with_pausedAt (jsClamp 0 (duration a) pos)) m1 _ Ha1) as Ha2.
  set (m2 := mapTrack r _ m1) in *.
  assert (Hc2 : audioContext m2 = Some c) by (simpl; congruence).
  assert (Hr2 : trackRef k m2 = Some r) by (unfold trackRef in *; simpl; now rewrite Htr1).
  assert (Hg2 : deckGain d m2 = Some g).
  { rewrite <- Hg, <- (Hg1 d). destruct d; reflexivity. }
  assert (Hs2 : suspended m2 = false) by (unfold suspended; rewrite Hc2; exact Hs).
  rewrite Hs2. cbn [negb].
  destruct (playTrack_starts k d m2 c r _ g Hc2 Hr2 Ha2 Hg2)
    as (_ & Hc3 & Htr3 & _ & Ha3 & Hn3 & _).
  set (m3 := fst (playTrack k d m2)) in *.
  assert (Hr3 : trackRef k m3 = Some r) by (unfold trackRef in *; now rewrite Htr3).
  assert (Hlen : length (nodes m2) = length (nodes m)).
  { change (nodes m2) with (nodes m1). rewrite Hn1. apply length_stopSource. }
  assert (Hidem : nodes (stopSource (source a) m2) = nodes (stopSource (source a) m)).
  { destruct (source a) as [src|]; unfold m2; simpl in *; [|exact Hn1].
    rewrite Hn1. apply alter_twice. reflexivity. }
  simpl in Ha3, Hn3. rewrite (jsClamp_clamp 0 (duration a) pos Hd) in Ha3, Hn3.
  split; [reflexivity|]. split; [|split].
  - rewrite (getCurrentTime_playing k m3 _ r _ Hc3 Hr3 Ha3 eq_refl). simpl.
    rewrite resumeIfSuspended_time. lra.
  - rewrite Hn3, Hidem. reflexivity.
  - eexists. split; [exact Ha3|]. simpl. split; [reflexivity|].
    f_equal. exact Hlen.
Qed.

(** *** Play without a track *)

Lemma track_play_unloaded k d m : getTrack k m = None -> playTrack k d m = (m, false).
Proof.
  unfold getTrack, playTrack. intros H.
  destruct (audioContext m); [|reflexivity].
  destruct (trackRef k m) as [r|]; [|reflexivity].
  now rewrite H.
Qed.

(** *** Redundant calls *)




(** *** The position clock *)

Lemma updatePosition_tracks m entry : tracks (updatePosition m entry) = tracks m.
Proof.
  destruct entry as [k r]. unfold updatePosition.
  destruct (heap m !! r) as [a|]; [|reflexivity].
  destruct (audioContext m); [|reflexivity].
  destruct (isPlaying a); [|reflexivity].
  destruct (Rge_dec _ _).
  - unfold stopTrack. destruct (trackRef _ _); [|reflexivity].
    destruct (heap _ !! _) as [a'|]; [|reflexivity]. now destruct (source a').
  - unfold notifyPosition. now destruct (callbacksSet _).
Qed.

Lemma updatePosition_context m entry :
  audioContext (updatePosition m entry) = audioContext m.
Proof.
  destruct entry as [k r]. unfold updatePosition.
  destruct (heap m !! r) as [a|]; [|reflexivity].
  destruct (audioContext m) eqn:Hc; [|assumption].
  destruct (isPlaying a); [|assumption].
  destruct (Rge_dec _ _).
  - unfold stopTrack. destruct (trackRef _ _); [|assumption].
    destruct (heap _ !! _) as [a'|]; [|assumption]. now destruct (source a').
  - unfold notifyPosition. now destruct (callbacksSet _).
Qed.

Lemma updatePositions_context m : audioContext (updatePositions m) = audioContext m.
Proof.
  unfold updatePositions. generalize (tracks m). intros l. revert m.
  induction l as [|x l IH]; intros m; simpl; [reflexivity|].
  now rewrite IH, updatePosition_context.
Qed.

Lemma updatePositions_tracks m : tracks (updatePositions m) = tracks m.
Proof.
  unfold updatePositions.
  apply (fold_left_preserves (fun s => tracks s = tracks m)); [|reflexivity].
  intros s y Hs. now rewrite updatePosition_tracks.
Qed.
















(** *** The mixer *)

Lemma track_setDeckVolume_frame d v m : sameTransport m (setDeckVolume d v m).
Proof. unfold setDeckVolume. destruct (deckGain d m), d; repeat split. Qed.

Lemma track_setMasterVolume_frame v m : sameTransport m (setMasterVolume v m).
Proof.
  unfold setMasterVolume.
  destruct (masterGain m), (audioContext m); repeat split.
Qed.

Lemma track_setCrossfader_frame p m : sameTransport m (setCrossfader p m).
Proof.
  unfold setCrossfader.
  destruct (deckAGain m), (deckBGain m), (audioContext m); repeat split.
Qed.

Lemma track_setCrossfader_gains p m :
  present (deckAGain m) = true -> present (deckBGain m) = true ->
  present (audioContext m) = true ->
  let q := jsClamp (-1) 1 p in
  deckAGain (setCrossfader p m) = Some (mkGain (crossfadeA q)) /\
  deckBGain (setCrossfader p m) = Some (mkGain (crossfadeB q)).
Proof.
  intros Ha Hb Hc. unfold setCrossfader.
  destruct (deckAGain m), (deckBGain m), (audioContext m); try discriminate.
  split; reflexivity.
Qed.

End ManagerFacts.

(** * The properties of the specification *)

Import Scenario.

(** ** C1: the crossfader law *)






(** ** C2: a source exactly while playing *)


Lemma engine_reachable_run ops : forall e,
  AudioEngine.reachable e -> AudioEngine.reachable (AudioEngine.run e ops).
Proof.
  induction ops as [|o ops IH]; intros e He; simpl; [exact He|].
  apply IH. now constructor.
Qed.

Lemma manager_reachable_run ops : forall m,
  AudioManager.reachable m -> AudioManager.reachable (AudioManager.run m ops).
Proof.
  induction ops as [|o ops IH]; intros m Hm; simpl; [exact Hm|].
  apply IH. now constructor.
Qed.





(** ** C3: pause and resume *)


(** C3 at the failing input: the 180 second track, played for 90 seconds,
    paused and resumed.  [pauseDeck] and [pauseTrack] stop the source, which
    owes an [ended] event.  When that event is delivered before the resume,
    the position reads 95 five seconds later.  When the resume comes first,
    as it does for [pause(); play()] run in one task, the handler of the old
    source acts on the new run: the deck engine stops the deck and its new
    source, and the position reads 0; the manager marks the track as not
    playing at position 0 and calls [onTrackEnd], while the new source keeps
    rendering. *)
Theorem stale_ended_event_after_resume :
  let eventFirst :=
    AudioEngine.run enginePausedAt90
      [AudioEngine.Ended 0; AudioEngine.PlayDeck A; AudioEngine.Advance 5] in
  let resumeFirst :=
    AudioEngine.run enginePausedAt90
      [AudioEngine.PlayDeck A; AudioEngine.Ended 0; AudioEngine.Advance 5] in
  let trackEventFirst :=
    AudioManager.run managerPausedAt90
      [AudioManager.Ended 0; AudioManager.PlayTrack "a" A; AudioManager.Advance 5] in
  let trackResumeFirst :=
    AudioManager.run managerPausedAt90
      [AudioManager.PlayTrack "a" A; AudioManager.Ended 0; AudioManager.Advance 5] in
  (AudioEngine.getCurrentPosition A enginePausedAt90 = 90 /\
   AudioEngine.isPlaying (AudioEngine.deckState A eventFirst) = true /\
   AudioEngine.getCurrentPosition A eventFirst = 95 /\
   AudioEngine.isPlaying (AudioEngine.deckState A resumeFirst) = false /\
   AudioEngine.getCurrentPosition A resumeFirst = 0 /\
   AudioEngine.deckSource A resumeFirst = None /\
   exists n, AudioEngine.nodes resumeFirst !! 1%nat = Some n /\
             AudioEngine.node_stopped n = true) /\
  (AudioManager.getCurrentTime "a" managerPausedAt90 = 90 /\
   AudioManager.getCurrentTime "a" trackEventFirst = 95 /\
   AudioManager.onTrackEndCalls trackEventFirst = [] /\
   AudioManager.getCurrentTime "a" trackResumeFirst = 0 /\
   AudioManager.onTrackEndCalls trackResumeFirst = [A] /\
   (exists a, AudioManager.getTrack "a" trackResumeFirst = Some a /\
              AudioManager.isPlaying a = false) /\
   exists n, AudioManager.nodes trackResumeFirst !! 1%nat = Some n /\
             AudioManager.node_stopped n = false /\
             AudioManager.node_connected n = true).
Proof.
  split.
  - evaluate. repeat split; try reflexivity; try lra.
    eexists. split; reflexivity.
  - evaluate. repeat split; try reflexivity; try lra.
    + eexists. split; reflexivity.
    + eexists. split; [reflexivity|]. split; reflexivity.
Qed.

(** ** C5: seeking *)

Lemma managerSeekedAt5_state :
  managerSeekedAt5 =
  AudioManager.mkManager (Some (mkContext 5 Running))
    (Some (mkGain 0.8)) (Some (mkGain 0.75)) (Some (mkGain 0.75)) (Some (mkGain 1))
    [("a", 0%nat)]
    [AudioManager.mkTrack "a" (mkBuffer 180) (Some 1%nat) (Some (mkGain 1))
       true (5 - 30) 0 180 0]
    [AudioManager.mkNode 0 A 180 0 0 true false false;
     AudioManager.mkNode 0 A 180 30 5 false true false]
    true [] [].
Proof. evaluate. equate_reals. Qed.

(** C5 at the failing input.  A seek on a paused track behaves as asked:
    track "a", paused at 90 seconds, is sought to 200 on a 180 second buffer;
    the position reads 180, and still does after the [ended] event that the
    pause owed, an animation frame and 5 more seconds.  A seek on a playing
    track does not: track "a" is 5 seconds in when it is sought to 30.  When
    [seekTo] returns the track plays from 30 on a new source; the [ended]
    event of the source that [seekTo] stopped can only arrive afterwards, and
    its handler, which does not check which source ended, marks the track as
    not playing at position 0 and calls [onTrackEnd], while the new source
    keeps rendering. *)
Theorem stale_ended_event_after_seek :
  let pausedSeek := fst (AudioManager.seekTo "a" 200 A managerPausedAt90) in
  let pausedLater :=
    AudioManager.run pausedSeek
      [AudioManager.Ended 0; AudioManager.Frame; AudioManager.Advance 5] in
  let m := AudioManager.run managerSeekedAt5 [AudioManager.Ended 0] in
  (AudioManager.getCurrentTime "a" pausedSeek = 180 /\
   AudioManager.getCurrentTime "a" pausedLater = 180 /\
   AudioManager.onTrackEndCalls pausedLater = []) /\
  (AudioManager.getCurrentTime "a" managerSeekedAt5 = 30 /\
   AudioManager.onTrackEndCalls managerSeekedAt5 = [] /\
   exists a, AudioManager.getTrack "a" managerSeekedAt5 = Some a /\
             AudioManager.isPlaying a = true) /\
  (AudioManager.getCurrentTime "a" m = 0 /\
   AudioManager.onTrackEndCalls m = [A] /\
   (exists a, AudioManager.getTrack "a" m = Some a /\
              AudioManager.isPlaying a = false /\ AudioManager.source a = Some 1%nat) /\
   (exists n, AudioManager.nodes m !! 1%nat = Some n /\
              AudioManager.node_stopped n = false /\
              AudioManager.node_connected n = true)).
Proof.
  split; [|split].
  - evaluate. repeat split; try reflexivity; try lra.
  - rewrite managerSeekedAt5_state. evaluate.
    repeat split; try reflexivity; try lra.
    eexists. split; reflexivity.
  - rewrite managerSeekedAt5_state. evaluate.
    split; [reflexivity|]. split; [reflexivity|].
    split; eexists; (split; [reflexivity|]); split; reflexivity.
Qed.

(** ** C6: play without a buffer *)

(** C6.  [playDeck] on a deck without a decoded buffer answers [false] and
    leaves every deck state, every deck source and the source nodes as they
    were; [playTrack] on an id that has no track answers [false] and returns
    the manager unchanged. *)
Theorem play_without_buffer_is_refused
    (e : AudioEngine.t) (d : DeckId) (m : AudioManager.t) (k : string) (dk : DeckId) :
  AudioEngine.loadedBuffer (AudioEngine.deckState d e) = None ->
  AudioManager.getTrack k m = None ->
  (snd (AudioEngine.playDeck d e) = false /\
   (forall d', AudioEngine.deckState d' (fst (AudioEngine.playDeck d e))
               = AudioEngine.deckState d' e) /\
   (forall d', AudioEngine.deckSource d' (fst (AudioEngine.playDeck d e))
               = AudioEngine.deckSource d' e) /\
   AudioEngine.nodes (fst (AudioEngine.playDeck d e)) = AudioEngine.nodes e) /\
  AudioManager.playTrack k dk m = (m, false).
Proof.
  intros He Hm. split.
  - now apply EngineFacts.deck_play_unloaded.
  - now apply ManagerFacts.track_play_unloaded.
Qed.

Lemma play_without_buffer_is_refused_witness :
  snd (AudioEngine.playDeck B engine180) = false /\
  AudioManager.playTrack "b" B manager180 = (manager180, false).
Proof.
  pose proof (play_without_buffer_is_refused engine180 B manager180 "b" B
                eq_refl eq_refl) as H.
  destruct H as ((H1 & _) & H2). split; assumption.
Defined.

(** ** C7: redundant transport calls *)






(** ** C8: the position clock *)





(** ** C10: the gain setters leave the transport alone *)

(** C10.  On both engines [setDeckVolume], [setMasterVolume] and
    [setCrossfader] leave the context, the source nodes and, for every deck
    or track, the buffer reference, the playing flag, the start time, the
    paused position and the source reference as they were; in [AudioManager]
    the set of loaded tracks and the callback records are unchanged too. *)
Theorem gain_setters_keep_transport
    (e : AudioEngine.t) (m : AudioManager.t) (d : DeckId) (v : R) :
  AudioEngine.sameTransport e (AudioEngine.setDeckVolume d v e) /\
  AudioEngine.sameTransport e (AudioEngine.setMasterVolume v e) /\
  AudioEngine.sameTransport e (AudioEngine.setCrossfader v e) /\
  AudioManager.sameTransport m (AudioManager.setDeckVolume d v m) /\
  AudioManager.sameTransport m (AudioManager.setMasterVolume v m) /\
  AudioManager.sameTransport m (AudioManager.setCrossfader v m).
Proof.
  split; [apply EngineFacts.deck_setDeckVolume_frame|].
  split; [apply EngineFacts.deck_setMasterVolume_frame|].
  split; [apply EngineFacts.deck_setCrossfader_frame|].
  split; [apply ManagerFacts.track_setDeckVolume_frame|].
  split; [apply ManagerFacts.track_setMasterVolume_frame|].
  apply ManagerFacts.track_setCrossfader_frame.
Qed.

(** ** C4: end of track *)

Lemma managerPast10_state :
  managerPast10 =
  AudioManager.mkManager (Some (mkContext 11 Running))
    (Some (mkGain 0.8)) (Some (mkGain 0.75)) (Some (mkGain 0.75)) (Some (mkGain 1))
    [("a", 0%nat)]
    [AudioManager.mkTrack "a" (mkBuffer 10) (Some 0%nat) (Some (mkGain 1))
       true 0 0 10 0]
    [AudioManager.mkNode 0 A 10 0 0 false true false]
    true [] [].
Proof. evaluate. equate_reals. Qed.

(** C4 at the failing input: a 10 second track is played until the clock
    reads 11.  When the display loop runs before the platform delivers the
    [ended] event, the track goes back to rest at position 0 but
    [onTrackEnd] is never called; when the event comes first it is called
    exactly once. *)
Theorem polled_end_of_track_is_silent :
  let polledFirst := AudioManager.run managerPast10 [AudioManager.Frame; AudioManager.Ended 0] in
  let eventFirst := AudioManager.run managerPast10 [AudioManager.Ended 0; AudioManager.Frame] in
  (AudioManager.onTrackEndCalls polledFirst = [] /\
   exists a, AudioManager.getTrack "a" polledFirst = Some a /\
             AudioManager.isPlaying a = false /\ AudioManager.pausedAt a = 0) /\
  (AudioManager.onTrackEndCalls eventFirst = [A] /\
   exists a, AudioManager.getTrack "a" eventFirst = Some a /\
             AudioManager.isPlaying a = false /\ AudioManager.pausedAt a = 0).
Proof.
  rewrite managerPast10_state. split.
  - evaluate. split; [reflexivity|]. eexists. split; [reflexivity|]. split; reflexivity.
  - evaluate. split; [reflexivity|]. eexists. split; [reflexivity|]. split; reflexivity.
Qed.

(** ** C9: loading *)

(** C9 at the failing input: track "a" is playing when another file is
    loaded under the same id.  The map then holds a fresh track at rest, but
    the source node of the replaced track was never stopped and stays
    connected, and the replaced track object still counts as playing. *)
Theorem manager_load_leaves_source_running :
  (exists a, AudioManager.getTrack "a" managerReloaded = Some a /\
             AudioManager.audioBuffer a = mkBuffer 60 /\
             AudioManager.isPlaying a = false /\ AudioManager.pausedAt a = 0) /\
  (exists n, AudioManager.nodes managerReloaded !! 0%nat = Some n /\
             AudioManager.node_stopped n = false /\
             AudioManager.node_connected n = true) /\
  (exists old, AudioManager.heap managerReloaded !! 0%nat = Some old /\
               AudioManager.isPlaying old = true).
Proof.
  evaluate. split; [|split]; eexists; (split; [reflexivity|]); repeat split.
Qed.

(** * Further properties of the two engines and their callers *)

(** ** The deck-based engine *)

Module EnginePosition.
Import AudioEngine AudioEngineLoading.

(** *** Positions are not negative *)

Lemma stopDeck_clockAhead d e : clockAhead e -> clockAhead (stopDeck d e).
Proof.
  intros H. both_decks H. intros d'.
  unfold stopDeck, mapDeck, stopSource, reached in *; destruct d, d'; case_crush.
Qed.

Lemma advance_clockAhead dt e : clockAhead e -> clockAhead (advance dt e).
Proof.
  intros H d'. rewrite EngineFacts.advance_deckState.
  destruct (H d') as [Hp Hs]. split; [exact Hp|].
  intros Hplay. specialize (Hs Hplay). unfold reached, advance in *. simpl.
  destruct (audioContext e) as [c|]; simpl; [|exact Hs].
  pose proof (advanceContext_mono dt c). lra.
Qed.

Lemma dispatchEnded_clockAhead i e : clockAhead e -> clockAhead (dispatchEnded i e).
Proof.
  intros H. unfold dispatchEnded.
  destruct (nodes e !! i); [|assumption].
  destruct (audioContext e) eqn:Hc; [|assumption].
  destruct (_ && _); [|assumption].
  assert (He1 : clockAhead (set_nodes (alter markEnded i (nodes e)) e))
    by (intros d'; apply (H d')).
  unfold onended. destruct (isPlaying _); [apply stopDeck_clockAhead|]; assumption.
Qed.

Lemma step_clockAhead e o : clockAhead e -> clockAhead (step e o).
Proof.
  intros H.
  destruct o; unfold step;
    auto using stopDeck_clockAhead, advance_clockAhead, dispatchEnded_clockAhead;
    both_decks H; intros d'.
  - unfold loadTrackToDeck, stopDeck, mapDeck, stopSource, reached in *;
      destruct d, d'; case_crush.
  - unfold playDeck, loadedBuffer, mapDeck, reached in *; destruct d, d'; case_crush;
      rewrite ?resumeIfSuspended_time; intuition lra.
  - unfold pauseDeck, mapDeck, stopSource, reached in *; destruct d, d'; case_crush.
  - unfold setDeckVolume, mapDeck, reached in *; destruct d, d'; case_crush.
  - unfold setMasterVolume, reached in *; destruct d'; case_crush.
  - unfold setCrossfader, updateCrossfader, reached in *; destruct d'; case_crush.
  - unfold getDeckState, mapDeck, reached in *; destruct d, d'; case_crush.
Qed.

Lemma reachable_clockAhead e : reachable e -> clockAhead e.
Proof.
  induction 1.
  - intros []; simpl; split; try lra; discriminate.
  - intros [];
      unfold create, initializeAudioContext, setupAudioGraph, updateCrossfader;
      simpl; split; try lra; discriminate.
  - now apply step_clockAhead.
Qed.

(** X1.  The position [getCurrentPosition] reports is never negative, on
    either deck, in any state the engine can reach. *)
Theorem deck_position_never_negative e d :
  reachable e -> 0 <= getCurrentPosition d e.
Proof.
  intros Hr. destruct (reachable_clockAhead e Hr d) as [Hp Hs].
  unfold getCurrentPosition.
  destruct (isPlaying (deckState d e)); [|exact Hp].
  specialize (Hs eq_refl). unfold reached in Hs.
  destruct (audioContext e); [lra | contradiction].
Qed.

Lemma deck_position_never_negative_witness :
  reachable Scenario.engineResumedAt95 /\
  0 <= getCurrentPosition A Scenario.engineResumedAt95.
Proof.
  assert (Hr : reachable Scenario.engineResumedAt95).
    by (do 3 apply engine_reachable_run; apply reach_create).
  split; [exact Hr | exact (deck_position_never_negative _ A Hr)].
Defined.

End EnginePosition.

Module EngineMixer.
Import AudioEngine AudioEngineLoading.

Lemma mixerSound_view e e' : mixerView e' = mixerView e -> mixerSound e -> mixerSound e'.
Proof.
  unfold mixerView, mixerSound, mixerInRange, mixerApplied, graphBuilt.
  intros Hv ((Hx & Hm & Hd) & (Gm & Gd & Ga & Gb) & (Bc & Bd & Bx)).
  injection Hv as E1 E2 E3 E4 E5 E6 E7 E8 E9 E10.
  both_decks Hd. both_decks Gd. both_decks Bd. both_decks Bx.
  rewrite E1, E2, E5, E8, E9, E10.
  split; [|split].
  - split; [exact Hx|]. split; [exact Hm|].
    intros []; simpl; rewrite ?E3, ?E4; assumption.
  - split; [exact Gm|]. split; [|split; assumption].
    intros []; simpl; rewrite ?E3, ?E4, ?E6, ?E7; assumption.
  - split; [exact Bc|].
    split; intros []; simpl; rewrite ?E6, ?E7, ?E8, ?E9; assumption.
Qed.

Ltac same_view := 
  unfold mixerView; repeat (simpl; try break_match); simpl;
  try reflexivity; try congruence; rewrite_eqs; simpl; try reflexivity.

Lemma stopDeck_mixerView d e : mixerView (stopDeck d e) = mixerView e.
Proof. unfold stopDeck, mapDeck, stopSource. destruct d; same_view. Qed.

Lemma loadTrackToDeck_mixerView a d e : mixerView (loadTrackToDeck a d e) = mixerView e.
Proof.
  unfold loadTrackToDeck. destruct (isPlaying _).
  - rewrite <- (stopDeck_mixerView d e). unfold mapDeck. destruct d; same_view.
  - unfold mapDeck. destruct d; same_view.
Qed.

Lemma playDeck_mixerView d e : mixerView (fst (playDeck d e)) = mixerView e.
Proof. unfold playDeck, mapDeck. destruct d; same_view. Qed.

Lemma pauseDeck_mixerView d e : mixerView (pauseDeck d e) = mixerView e.
Proof. unfold pauseDeck, mapDeck, stopSource. destruct d; same_view. Qed.

Lemma getDeckState_mixerView d e : mixerView (fst (getDeckState d e)) = mixerView e.
Proof. unfold getDeckState, mapDeck. destruct d; same_view. Qed.

Lemma advance_mixerView dt e : mixerView (advance dt e) = mixerView e.
Proof. unfold advance, mixerView. simpl. destruct (audioContext e); reflexivity. Qed.

Lemma dispatchEnded_mixerView i e : mixerView (dispatchEnded i e) = mixerView e.
Proof.
  unfold dispatchEnded.
  destruct (nodes e !! i); [|reflexivity].
  destruct (audioContext e) eqn:Hc; [|reflexivity].
  destruct (_ && _); [|reflexivity].
  unfold onended. destruct (isPlaying _); [|reflexivity].
  rewrite stopDeck_mixerView. reflexivity.
Qed.


Lemma setDeckVolume_mixerSound d v e : mixerSound e -> mixerSound (setDeckVolume d v e).
Proof.
  unfold mixerSound, mixerInRange, mixerApplied, graphBuilt, inUnit.
  intros ((Hx & Hm & Hd) & (Gm & Gd & Ga & Gb) & (Bc & Bd & Bx)).
  both_decks Hd. both_decks Gd. both_decks Bd. both_decks Bx.
  pose proof (jsClamp_bounds 0 1 v ltac:(lra)) as Hv.
  unfold setDeckVolume, mapDeck.
  destruct d; simpl; break_match; simpl;
    (split; [|split]; [split; [|split] | split; [|split; [|split]] | split; [|split]]);
    try assumption; try intros []; simpl; try assumption; try reflexivity;
    rewrite_eqs; simpl; try assumption; try reflexivity.
Qed.


Lemma setMasterVolume_mixerSound v e : mixerSound e -> mixerSound (setMasterVolume v e).
Proof.
  unfold mixerSound, mixerInRange, mixerApplied, graphBuilt, inUnit.
  intros ((Hx & Hm & Hd) & (Gm & Gd & Ga & Gb) & (Bc & Bd & Bx)).
  both_decks Hd. both_decks Gd. both_decks Bd. both_decks Bx.
  pose proof (jsClamp_bounds 0 1 v ltac:(lra)) as Hv.
  unfold setMasterVolume.
  simpl; break_match; simpl;
    (split; [|split]; [split; [|split] | split; [|split; [|split]] | split; [|split]]);
    try assumption; try intros []; simpl; try assumption; try reflexivity;
    rewrite_eqs; simpl; try assumption; try reflexivity.
Qed.

Lemma setCrossfader_mixerSound p e : mixerSound e -> mixerSound (setCrossfader p e).
Proof.
  unfold mixerSound, mixerInRange, mixerApplied, graphBuilt, inUnit.
  intros ((Hx & Hm & Hd) & (Gm & Gd & Ga & Gb) & (Bc & Bd & Bx)).
  pose proof (jsClamp_bounds 0 1 p ltac:(lra)) as Hv.
  pose proof (Bx A) as BxA. pose proof (Bx B) as BxB. simpl in BxA, BxB.
  unfold setCrossfader, updateCrossfader. simpl.
  destruct (crossfaderGainA e) as [ga|] eqn:Ea, (crossfaderGainB e) as [gb|] eqn:Eb,
    (audioContext e) as [c|] eqn:Ec; simpl in Bc, BxA, BxB; try congruence;
    (split; [|split];
      [ split; [exact Hv | split; [exact Hm | exact Hd]]
      | split; [exact Gm | split; [exact Gd | simpl; rewrite ?Ea, ?Eb; split; first [reflexivity | exact I]]]
      | split; [simpl; rewrite ?Ec; exact Bc
               | split; [exact Bd | intros []; simpl; rewrite ?Ea, ?Eb; assumption]] ]).
Qed.

Lemma step_mixerSound e o : mixerSound e -> mixerSound (step e o).
Proof.
  intros H.
  destruct o; unfold step;
    auto using setDeckVolume_mixerSound, setMasterVolume_mixerSound,
      setCrossfader_mixerSound;
    apply (mixerSound_view e); auto using stopDeck_mixerView, loadTrackToDeck_mixerView,
      playDeck_mixerView, pauseDeck_mixerView, getDeckState_mixerView,
      advance_mixerView, dispatchEnded_mixerView.
Qed.

Ltac mixer_leaves :=
  split; [|split];
  [ split; [|split; [|intros []]]
  | split; [|split; [intros [] | split]]
  | split; [|split; intros []] ];
  simpl; try exact I; try reflexivity; lra.

Lemma reachable_mixerSound e : reachable e -> mixerSound e.
Proof.
  induction 1.
  - unfold mixerSound, mixerInRange, mixerApplied, graphBuilt, inUnit. mixer_leaves.
  - unfold mixerSound, mixerInRange, mixerApplied, graphBuilt, inUnit.
    unfold create, initializeAudioContext, setupAudioGraph, updateCrossfader. mixer_leaves.
  - now apply step_mixerSound.
Qed.

Lemma quarter_cos_sin x :
  0 <= x <= 1 -> 0 <= cos (x * PI / 2) <= 1 /\ 0 <= sin (x * PI / 2) <= 1.
Proof.
  intros [H0 H1]. pose proof PI_RGT_0 as Hpi.
  assert (Hlo : 0 <= x * PI / 2) by nra.
  assert (Hhi : x * PI / 2 <= PI / 2) by nra.
  pose proof (COS_bound (x * PI / 2)) as [_ Hc].
  pose proof (SIN_bound (x * PI / 2)) as [_ Hs].
  split; split; try assumption.
  - apply cos_ge_0; lra.
  - apply sin_ge_0; lra.
Qed.

(** X2.  In every state the deck engine can reach, each gain node carries
    the value the engine stores for it (master volume, deck volume, and the
    cosine and sine of the crossfader position), the stored values are
    fractions, and so every gain lies between 0 and 1. *)
Theorem deck_mixer_gains_follow_stored_values e :
  reachable e ->
  mixerApplied e /\ mixerInRange e /\
  gainInRange (masterGainNode e) /\
  forall d, gainInRange (deckGainNode d e) /\ gainInRange (crossfaderGain d e).
Proof.
  intros Hr. destruct (reachable_mixerSound e Hr) as (Hin & Happ & _).
  split; [exact Happ|]. split; [exact Hin|].
  destruct Hin as (Hx & Hm & Hd). destruct Happ as (Gm & Gd & Ga & Gb).
  destruct (quarter_cos_sin _ Hx) as [Hc Hs].
  unfold gainIs, gainInRange, inUnit in *. split.
  - destruct (masterGainNode e); [rewrite Gm; exact Hm | exact I].
  - intros d. specialize (Hd d). specialize (Gd d). split.
    + destruct (deckGainNode d e); [rewrite Gd; exact Hd | exact I].
    + destruct d; simpl.
      * destruct (crossfaderGainA e); [rewrite Ga; exact Hc | exact I].
      * destruct (crossfaderGainB e); [rewrite Gb; exact Hs | exact I].
Qed.

Lemma deck_mixer_gains_follow_stored_values_witness :
  reachable (step (step Scenario.engine180 (SetCrossfader 2)) (SetDeckVolume B (-1))) /\
  gainInRange (deckGainNode B
                 (step (step Scenario.engine180 (SetCrossfader 2)) (SetDeckVolume B (-1)))).
Proof.
  assert (Hr : reachable
                 (step (step Scenario.engine180 (SetCrossfader 2)) (SetDeckVolume B (-1))))
    by (do 2 apply reach_step; apply engine_reachable_run; apply reach_create).
  split; [exact Hr|].
  exact (proj1 (proj2 (proj2 (proj2 (deck_mixer_gains_follow_stored_values _ Hr))) B)).
Defined.

End EngineMixer.

Module EngineDecks.
#[local] Open Scope string_scope.
Import AudioEngine AudioEngineLoading.

Lemma stopDeck_other d d' e :
  d <> d' ->
  deckState d' (stopDeck d e) = deckState d' e /\
  deckSource d' (stopDeck d e) = deckSource d' e.
Proof.
  intros Hd. unfold stopDeck, mapDeck, stopSource.
  destruct d, d'; try congruence; repeat (simpl; try break_match); auto.
Qed.

(** X3.  The decks are independent: a call that addresses one deck, and an
    [ended] event of a source of that deck, leave the state and the source of
    the other deck as they were; the mixer calls and the passing of time
    change no deck. *)
Theorem deck_calls_leave_other_deck e o d' :
  opDeck e o <> Some d' ->
  deckState d' (step e o) = deckState d' e /\
  deckSource d' (step e o) = deckSource d' e.
Proof.
  destruct o; unfold opDeck, step; intros Hd.
  - unfold loadTrackToDeck, stopDeck, mapDeck, stopSource.
    destruct d, d'; try congruence; repeat (simpl; try break_match); auto.
  - unfold playDeck, mapDeck.
    destruct d, d'; try congruence; repeat (simpl; try break_match); auto.
  - unfold pauseDeck, mapDeck, stopSource.
    destruct d, d'; try congruence; repeat (simpl; try break_match); auto.
  - apply stopDeck_other. congruence.
  - unfold setDeckVolume, mapDeck.
    destruct d, d'; try congruence; repeat (simpl; try break_match); auto.
  - unfold setMasterVolume. destruct d'; repeat (simpl; try break_match); auto.
  - unfold setCrossfader, updateCrossfader.
    destruct d'; repeat (simpl; try break_match); auto.
  - unfold getDeckState, mapDeck.
    destruct d, d'; try congruence; repeat (simpl; try break_match); auto.
  - destruct d'; auto.
  - unfold dispatchEnded.
    destruct (nodes e !! i) as [n|] eqn:En; [|auto].
    destruct (audioContext e); [|auto].
    destruct (_ && _); [|auto].
    unfold onended. destruct (isPlaying _).
    + destruct (stopDeck_other (node_deck n) d'
                  (set_nodes (alter markEnded i (nodes e)) e)) as [H1 H2].
      { simpl in Hd. congruence. }
      rewrite H1, H2. destruct d'; auto.
    + destruct d'; auto.
Qed.

Lemma deck_calls_leave_other_deck_witness :
  opDeck Scenario.engine180 (StopDeck A) <> Some B /\
  deckState B (step Scenario.engine180 (StopDeck A)) = deckState B Scenario.engine180.
Proof.
  assert (H : opDeck Scenario.engine180 (StopDeck A) <> Some B) by (simpl; congruence).
  split; [exact H|].
  exact (proj1 (deck_calls_leave_other_deck Scenario.engine180 (StopDeck A) B H)).
Defined.

(** X4.  In every state the engine can reach, a playing deck holds a track
    with a decoded buffer, and the context and the master gain exist: the
    engine never plays an empty deck. *)
Theorem playing_deck_is_loaded e d :
  reachable e -> isPlaying (deckState d e) = true ->
  exists a buf c,
    audioTrack (deckState d e) = Some a /\ audioBuffer a = Some buf /\
    audioContext e = Some c /\ present (masterGainNode e) = true.
Proof.
  intros Hr Hp. destruct (EngineFacts.reachable_inv e Hr) as (_ & _ & H3).
  destruct (H3 d Hp) as (Hb & Hc & Hm). unfold loadedBuffer in Hb.
  destruct (audioTrack (deckState d e)) as [a|]; [|discriminate].
  destruct (audioBuffer a) as [buf|] eqn:Eb; [|discriminate].
  destruct (audioContext e) as [c|]; [|discriminate].
  exists a, buf, c. auto.
Qed.

Lemma playing_deck_is_loaded_witness :
  reachable Scenario.engineResumedAt95 /\
  isPlaying (deckState A Scenario.engineResumedAt95) = true /\
  exists a buf c,
    audioTrack (deckState A Scenario.engineResumedAt95) = Some a /\
    audioBuffer a = Some buf /\
    audioContext Scenario.engineResumedAt95 = Some c /\
    present (masterGainNode Scenario.engineResumedAt95) = true.
Proof.
  assert (Hr : reachable Scenario.engineResumedAt95)
    by (do 3 apply engine_reachable_run; apply reach_create).
  assert (Hp : isPlaying (deckState A Scenario.engineResumedAt95) = true)
    by (evaluate; reflexivity).
  split; [exact Hr|]. split; [exact Hp|].
  exact (playing_deck_is_loaded _ A Hr Hp).
Defined.

(** X5.  [getDeckState] reports the position [getCurrentPosition] reports,
    copies every other field of the deck, and changes neither what
    [getCurrentPosition] reports afterwards nor the other deck. *)
Theorem getDeckState_reports_current_position e d :
  let ds := snd (getDeckState d e) in
  let e' := fst (getDeckState d e) in
  position ds = getCurrentPosition d e /\
  audioTrack ds = audioTrack (deckState d e) /\
  isPlaying ds = isPlaying (deckState d e) /\
  volume ds = volume (deckState d e) /\
  startTime ds = startTime (deckState d e) /\
  pauseTime ds = pauseTime (deckState d e) /\
  deckState d e' = ds /\
  forall d', getCurrentPosition d' e' = getCurrentPosition d' e.
Proof.
  unfold getDeckState, getCurrentPosition, mapDeck.
  destruct d; simpl.
  - destruct (isPlaying (deckAState e)) eqn:Hp, (audioContext e) eqn:Hc; simpl;
      rewrite ?Hp, ?Hc; (repeat split; try reflexivity); intros []; simpl;
      rewrite ?Hp, ?Hc; reflexivity.
  - destruct (isPlaying (deckBState e)) eqn:Hp, (audioContext e) eqn:Hc; simpl;
      rewrite ?Hp, ?Hc; (repeat split; try reflexivity); intros []; simpl;
      rewrite ?Hp, ?Hc; reflexivity.
Qed.

Lemma loadTrackToDeck_loaded a d e :
  let e1 := loadTrackToDeck a d e in
  audioContext e1 = audioContext e /\
  audioTrack (deckState d e1) = Some a /\
  position (deckState d e1) = 0 /\
  isPlaying (deckState d e1) = false.
Proof.
  unfold loadTrackToDeck, stopDeck, stopSource, mapDeck.
  destruct d; simpl.
  - destruct (isPlaying (deckAState e)) eqn:Hp; simpl; [|auto].
    destruct (deckASource e); simpl; auto.
  - destruct (isPlaying (deckBState e)) eqn:Hp; simpl; [|auto].
    destruct (deckBSource e); simpl; auto.
Qed.

Lemma graphReady_view e e' : mixerView e' = mixerView e -> graphReady e -> graphReady e'.
Proof.
  unfold mixerView. intros Hv (Hm & Hd & Hx).
  injection Hv as _ _ _ _ E5 E6 E7 E8 E9 _.
  both_decks Hd. both_decks Hx.
  split; [rewrite E5; exact Hm|].
  split; intros []; simpl; rewrite ?E6, ?E7, ?E8, ?E9; assumption.
Qed.

(** X6.  A file that [loadAudioFile] decoded plays at once: after
    [loadTrackToDeck] on a deck of an engine whose graph is built, whatever
    the deck was doing, [playDeck] succeeds, the deck plays from position 0
    and holds a fresh source that plays the buffer from offset 0. *)
Theorem loaded_file_plays_from_start e d stamp url decoded a :
  graphReady e ->
  loadAudioFile stamp url decoded e = Some a ->
  let e1 := loadTrackToDeck a d e in
  let e2 := fst (playDeck d e1) in
  snd (playDeck d e1) = true /\
  isPlaying (deckState d e2) = true /\
  getCurrentPosition d e2 = 0 /\
  deckSource d e2 = Some (length (nodes e1)) /\
  exists n, nodes e2 !! length (nodes e1) = Some n /\
            node_offset n = 0 /\ node_length n = duration a /\ node_stopped n = false.
Proof.
  intros Hg Hload e1. unfold loadAudioFile in Hload.
  destruct (audioContext e) as [c|] eqn:Ec; [|discriminate].
  destruct decoded as [b|]; [|discriminate].
  injection Hload as <-.
  destruct (loadTrackToDeck_loaded
              (mkTrack ("track_" ++ stamp) (Some b) (Some url) (buffer_duration b) true) d e)
    as (Hc1 & Ha1 & Hp1 & Hi1).
  fold e1 in Hc1, Ha1, Hp1, Hi1. rewrite Ec in Hc1.
  assert (Hg1 : graphReady e1)
    by (apply (graphReady_view e); [apply EngineMixer.loadTrackToDeck_mixerView | exact Hg]).
  assert (Hb1 : loadedBuffer (deckState d e1) = Some b)
    by (unfold loadedBuffer; rewrite Ha1; reflexivity).
  destruct (EngineFacts.playDeck_starts d e1 c b Hg1 Hc1 Hb1 Hi1)
    as (Hok & Hc2 & _ & Hi2 & Hs2 & _ & Hsrc & Hn).
  intros e2. fold e2 in Hc2, Hi2, Hs2, Hsrc, Hn.
  split; [exact Hok|]. split; [exact Hi2|]. split; [|split; [exact Hsrc|]].
  - unfold getCurrentPosition. rewrite Hi2, Hc2, Hs2, Hp1, resumeIfSuspended_time. lra.
  - rewrite Hn. rewrite lookup_app_r by lia. rewrite Nat.sub_diag. simpl.
    eexists. split; [reflexivity|]. simpl. rewrite Hp1. auto.
Qed.

Lemma loaded_file_plays_from_start_witness :
  graphReady Scenario.engineResumedAt95 /\
  loadAudioFile "1757527749575" "blob:1" (Some (mkBuffer 60)) Scenario.engineResumedAt95
    = Some (mkTrack "track_1757527749575" (Some (mkBuffer 60)) (Some "blob:1") 60 true) /\
  getCurrentPosition A
    (fst (playDeck A
       (loadTrackToDeck
          (mkTrack "track_1757527749575" (Some (mkBuffer 60)) (Some "blob:1") 60 true)
          A Scenario.engineResumedAt95))) = 0.
Proof.
  assert (Hg : graphReady Scenario.engineResumedAt95).
  { split; [|split]; try intros []; evaluate; reflexivity. }
  assert (Hl : loadAudioFile "1757527749575" "blob:1" (Some (mkBuffer 60))
                 Scenario.engineResumedAt95
               = Some (mkTrack "track_1757527749575" (Some (mkBuffer 60))
                         (Some "blob:1") 60 true))
    by (evaluate; reflexivity).
  split; [exact Hg|]. split; [exact Hl|].
  exact (proj1 (proj2 (proj2
           (loaded_file_plays_from_start _ A _ _ _ _ Hg Hl)))).
Defined.

End EngineDecks.

Module EngineSetters.
Import AudioEngine AudioEngineLoading.

Ltac setter_crush e :=
  destruct e;
  unfold setDeckVolume, setMasterVolume, setCrossfader, updateCrossfader, mapDeck,
    set_deckGainNode, set_masterGainNode, set_masterVolume, set_crossfaderPosition,
    set_crossfaderGains, set_deckState, deckGainNode, deckState;
  cbn [audioContext masterGainNode deckAGainNode deckBGainNode crossfaderGainA
       crossfaderGainB deckASource deckBSource deckAState deckBState
       crossfaderPosition masterVolume nodes];
  repeat match goal with
         | |- context [match ?x with Some _ => _ | None => _ end] => is_var x; destruct x
         end;
  cbn [audioContext masterGainNode deckAGainNode deckBGainNode crossfaderGainA
       crossfaderGainB deckASource deckBSource deckAState deckBState
       crossfaderPosition masterVolume nodes];
  reflexivity.

(** X7.  In the deck engine the three mixer setters act on separate nodes:
    they commute with one another, the volumes of the two decks commute, and
    a setter called twice leaves what the second call alone leaves. *)
Theorem deck_mixer_setters_commute e d v w p :
  setDeckVolume d v (setMasterVolume w e) = setMasterVolume w (setDeckVolume d v e) /\
  setDeckVolume d v (setCrossfader p e) = setCrossfader p (setDeckVolume d v e) /\
  setMasterVolume w (setCrossfader p e) = setCrossfader p (setMasterVolume w e) /\
  setDeckVolume A v (setDeckVolume B w e) = setDeckVolume B w (setDeckVolume A v e) /\
  setDeckVolume d w (setDeckVolume d v e) = setDeckVolume d w e /\
  setMasterVolume w (setMasterVolume v e) = setMasterVolume w e /\
  setCrossfader w (setCrossfader v e) = setCrossfader w e.
Proof.
  repeat split; try (destruct d); setter_crush e.
Qed.

End EngineSetters.

Module EngineEnd.
Import AudioEngine AudioEngineLoading.

Lemma stopDeck_playing d e i :
  isPlaying (deckState d e) = true -> deckSource d e = Some i ->
  deckSource d (stopDeck d e) = None /\
  audioTrack (deckState d (stopDeck d e)) = audioTrack (deckState d e) /\
  nodes (stopDeck d e) = alter stopNode i (nodes e).
Proof.
  intros Hp Hs. unfold stopDeck. rewrite Hp, Hs.
  unfold mapDeck, stopSource. destruct d; simpl; auto.
Qed.

(** X8.  A deck that plays to the end goes back to the start.  After
    [playDeck] from position [p] on a buffer of length [L], once the clock
    has advanced by [dt >= L - p] the position read is [p + dt], not clamped
    to the length; when the platform then delivers the [ended] event of the
    source, the deck stops, keeps its track, releases the source and reads
    position 0. *)
Theorem deck_plays_to_the_end e d c buf dt :
  graphReady e -> audioContext e = Some c -> state c <> Closed ->
  loadedBuffer (deckState d e) = Some buf ->
  isPlaying (deckState d e) = false ->
  0 <= dt -> buffer_duration buf - position (deckState d e) <= dt ->
  let e1 := fst (playDeck d e) in
  let e2 := advance dt e1 in
  let e3 := dispatchEnded (length (nodes e)) e2 in
  getCurrentPosition d e2 = position (deckState d e) + dt /\
  isPlaying (deckState d e3) = false /\
  getCurrentPosition d e3 = 0 /\
  deckSource d e3 = None /\
  audioTrack (deckState d e3) = audioTrack (deckState d e).
Proof.
  intros Hg Hc Hs Hb Hp Hdt Hend e1 e2 e3.
  destruct (EngineFacts.playDeck_starts d e c buf Hg Hc Hb Hp)
    as (_ & Hc1 & _ & Hp1 & Hst1 & Ha1 & Hsrc1 & Hn1).
  fold e1 in Hc1, Hp1, Hst1, Ha1, Hsrc1, Hn1.
  assert (Hc2 : audioContext e2 = Some (mkContext (currentTime c + dt) Running)).
  { unfold e2. rewrite <- (resumeIfSuspended_time c).
    apply EngineFacts.deck_advance_running;
      [exact Hc1 | now apply resumeIfSuspended_state | exact Hdt]. }
  assert (Hd2 : deckState d e2 = deckState d e1) by apply EngineFacts.advance_deckState.
  assert (Hs2 : deckSource d e2 = deckSource d e1) by apply EngineFacts.advance_deckSource.
  assert (Hn2 : nodes e2 = nodes e1) by reflexivity.
  split.
  - rewrite (EngineFacts.getCurrentPosition_playing d e2 _ Hc2) by (now rewrite Hd2).
    rewrite Hd2, Hst1. simpl. lra.
  - unfold e3, dispatchEnded. rewrite Hn2, Hn1, Hc2.
    rewrite lookup_app_r by lia. rewrite Nat.sub_diag. cbn [lookup list_lookup].
    cbn [node_ended negb andb finished node_stopped orb node_startedAt node_length
         node_offset WebAudio.currentTime node_deck].
    destruct (Rle_dec _ _) as [_|Hn]; [|exfalso; apply Hn; simpl; lra].
    set (e2' := set_nodes _ e2).
    assert (Hd2' : deckState d e2' = deckState d e1) by (rewrite <- Hd2; now destruct d).
    assert (Hs2' : deckSource d e2' = Some (length (nodes e)))
      by (rewrite <- Hsrc1, <- Hs2; now destruct d).
    unfold onended. rewrite Hd2', Hp1.
    assert (Hp2' : isPlaying (deckState d e2') = true) by (now rewrite Hd2').
    destruct (stopDeck_playing d e2' _ Hp2' Hs2') as (Hsrc & Htr & _).
    destruct (EngineFacts.deck_stop_resets d e2') as [Hnp Hpos].
    split; [exact Hnp|]. split; [|split].
    + rewrite EngineFacts.getCurrentPosition_stopped by exact Hnp. exact Hpos.
    + exact Hsrc.
    + now rewrite Htr, Hd2', Ha1.
Qed.

Lemma deck_plays_to_the_end_witness :
  getCurrentPosition A
    (dispatchEnded (length (nodes Scenario.engine180))
       (advance 200 (fst (playDeck A Scenario.engine180)))) = 0.
Proof.
  assert (Hg : graphReady Scenario.engine180)
    by (split; [|split]; try intros []; evaluate; reflexivity).
  assert (Hc : audioContext Scenario.engine180 = Some (mkContext 0 Running))
    by (evaluate; reflexivity).
  assert (Hs : state (mkContext 0 Running) <> Closed) by discriminate.
  assert (Hb : loadedBuffer (deckState A Scenario.engine180) = Some (mkBuffer 180))
    by (evaluate; reflexivity).
  assert (Hp : isPlaying (deckState A Scenario.engine180) = false)
    by (evaluate; reflexivity).
  assert (Hpos : position (deckState A Scenario.engine180) = 0)
    by (evaluate; reflexivity).
  assert (Hdt : 0 <= 200) by lra.
  assert (Hend : buffer_duration (mkBuffer 180) - position (deckState A Scenario.engine180)
                 <= 200) by (rewrite Hpos; simpl; lra).
  exact (proj1 (proj2 (proj2
           (deck_plays_to_the_end _ A _ _ 200 Hg Hc Hs Hb Hp Hdt Hend)))).
Defined.

End EngineEnd.

Module EngineReady.
Import AudioEngine AudioEngineLoading.







End EngineReady.

(** ** The track-based manager *)

Module ManagerGraph.
Import AudioManager AudioManagerLifecycle.

(** *** What the transport leaves alone *)

Lemma transportFrame_stopTrack k m : transportFrame (fst (stopTrack k m)) = transportFrame m.
Proof.
  unfold stopTrack. destruct (trackRef k m) as [r|]; [|reflexivity].
  destruct (heap m !! r) as [a|]; [|reflexivity]. now destruct (source a).
Qed.

Lemma transportFrame_playTrack k d m :
  transportFrame (fst (playTrack k d m)) = transportFrame m.
Proof.
  unfold playTrack. destruct (audioContext m) as [c|]; [|reflexivity].
  destruct (trackRef k m) as [r|]; [|reflexivity].
  destruct (heap m !! r) as [a|]; [|reflexivity].
  destruct (deckGain d m); [|reflexivity]. now destruct (source a).
Qed.

Lemma transportFrame_pauseTrack k m :
  transportFrame (fst (pauseTrack k m)) = transportFrame m.
Proof.
  unfold pauseTrack. destruct (trackRef k m) as [r|]; [|reflexivity].
  destruct (audioContext m) as [c|]; [|reflexivity].
  destruct (heap m !! r) as [a|]; [|reflexivity].
  destruct (isPlaying a); [|reflexivity]. now destruct (source a).
Qed.

Lemma transportFrame_seekTo k p d m :
  transportFrame (fst (seekTo k p d m)) = transportFrame m.
Proof.
  unfold seekTo. destruct (trackRef k m) as [r|]; [|reflexivity].
  destruct (heap m !! r) as [a|]; [|reflexivity]. cbn [fst].
  destruct (_ && _); [rewrite transportFrame_playTrack|];
    apply (transportFrame_stopTrack k m).
Qed.

Lemma transportFrame_updatePosition m entry :
  transportFrame (updatePosition m entry) = transportFrame m.
Proof.
  destruct entry as [k r]. unfold updatePosition.
  destruct (heap m !! r) as [a|]; [|reflexivity].
  destruct (audioContext m) as [c|]; [|reflexivity].
  destruct (isPlaying a); [|reflexivity].
  destruct (Rge_dec _ _).
  - now rewrite transportFrame_stopTrack.
  - unfold notifyPosition. now destruct (callbacksSet _).
Qed.

Lemma transportFrame_updatePositions m :
  transportFrame (updatePositions m) = transportFrame m.
Proof.
  unfold updatePositions.
  apply (fold_left_preserves (fun s => transportFrame s = transportFrame m)); auto.
  intros x y Hx. now rewrite transportFrame_updatePosition.
Qed.

Lemma transportFrame_loadTrack decoded k m :
  transportFrame (fst (loadTrack decoded k m)) = transportFrame m.
Proof.
  unfold loadTrack. destruct (audioContext m); [|reflexivity]. now destruct decoded.
Qed.

Lemma transportFrame_createDemoTrack created f dur k m :
  transportFrame (fst (createDemoTrack created f dur k m)) = transportFrame m.
Proof.
  unfold createDemoTrack. destruct (audioContext m); [|reflexivity]. now destruct created.
Qed.

Lemma transportFrame_cleanup m : transportFrame (cleanup m) = transportFrame m.
Proof.
  assert (H : transportFrame (stopAll (tracks m) m) = transportFrame m).
  { unfold stopAll.
    apply (fold_left_preserves (fun s => transportFrame s = transportFrame m)); auto.
    intros x y Hx. now rewrite transportFrame_stopTrack. }
  rewrite <- H. reflexivity.
Qed.

(** [initializeAudioContext] replaces the gains and leaves the callbacks and
    the calls made alone. *)
Lemma initializeAudioContext_frame c m :
  graphGains (initializeAudioContext c m)
  = (Some (mkGain 0.8), Some (mkGain 0.75), Some (mkGain 0.75), Some (mkGain 1)) /\
  callbacksSet (initializeAudioContext c m) = callbacksSet m /\
  onTrackEndCalls (initializeAudioContext c m) = onTrackEndCalls m.
Proof.
  pose proof (transportFrame_updatePositions (buildGraph c m)) as H.
  unfold initializeAudioContext.
  split; [exact (f_equal (fun x => fst (fst x)) H)|].
  split; [exact (f_equal (fun x => snd (fst x)) H) | exact (f_equal snd H)].
Qed.

(** X10.  Only the [ended] event of a source calls [onTrackEnd]: no call of
    the manager and no animation frame adds to the calls made, and an
    [ended] event adds at most one call, for the deck its source was started
    on, and only once the callbacks are set. *)
Theorem only_ended_events_notify m o :
  match o with
  | Ended i =>
      onTrackEndCalls (step m o) = onTrackEndCalls m \/
      (callbacksSet m = true /\
       exists n, nodes m !! i = Some n /\
                 onTrackEndCalls (step m o) = onTrackEndCalls m ++ [node_deck n])
  | _ => onTrackEndCalls (step m o) = onTrackEndCalls m
  end.
Proof.
  assert (Hf : forall m', transportFrame m' = transportFrame m ->
                          onTrackEndCalls m' = onTrackEndCalls m)
    by (unfold transportFrame; intros m' H; now injection H).
  destruct o as [c| |decoded k|k d|k|k|k pos d|d v|v|p| |dt|i|created f dur k| ];
    unfold step;
    auto using transportFrame_stopTrack, transportFrame_playTrack,
      transportFrame_pauseTrack, transportFrame_seekTo, transportFrame_updatePositions,
      transportFrame_loadTrack, transportFrame_createDemoTrack, transportFrame_cleanup.
  - apply initializeAudioContext_frame.
  - unfold setDeckVolume. destruct (deckGain d m); [|reflexivity]. now destruct d.
  - unfold setMasterVolume. now destruct (masterGain m), (audioContext m).
  - unfold setCrossfader. now destruct (deckAGain m), (deckBGain m), (audioContext m).
  - unfold dispatchEnded. destruct (nodes m !! i) as [n|] eqn:En; [|now left].
    destruct (audioContext m) as [ctx|]; [|now left].
    destruct (_ && _); [|now left].
    unfold onended. cbn [heap set_nodes].
    destruct (heap m !! node_track n) as [tr|]; [|now left].
    destruct (isPlaying tr); [|now left].
    unfold notifyTrackEnd. cbn [callbacksSet mapTrack set_heap set_nodes].
    destruct (callbacksSet m) eqn:Hcb; [|now left].
    right. split; [reflexivity|]. exists n. split; reflexivity.
Qed.

(** *** The gains of the graph *)

Lemma crossfade_bounds p :
  -1 <= p <= 1 -> 0 <= crossfadeA p <= 1 /\ 0 <= crossfadeB p <= 1.
Proof.
  intros [H1 H2]. unfold crossfadeA, crossfadeB.
  destruct (Rle_dec p 0), (Rge_dec p 0); lra.
Qed.

Lemma gainsInRange_frame m m' :
  graphGains m' = graphGains m -> gainsInRange m -> gainsInRange m'.
Proof.
  unfold graphGains, gainsInRange.
  intros Hf (Hm & Hd & Hx). injection Hf as E1 E2 E3 E4.
  both_decks Hd. rewrite E1, E4.
  split; [exact Hm|]. split; [|exact Hx].
  intros []; simpl; rewrite ?E2, ?E3; assumption.
Qed.

Lemma transportFrame_graphGains m m' :
  transportFrame m' = transportFrame m -> graphGains m' = graphGains m.
Proof. intros H. exact (f_equal (fun x => fst (fst x)) H). Qed.

Lemma graphGains_dispatchEnded i m : graphGains (dispatchEnded i m) = graphGains m.
Proof.
  unfold dispatchEnded. destruct (nodes m !! i) as [n|]; [|reflexivity].
  destruct (audioContext m) as [c|]; [|reflexivity].
  destruct (_ && _); [|reflexivity].
  unfold onended. cbn [heap set_nodes].
  destruct (heap m !! node_track n) as [tr|]; [|reflexivity].
  destruct (isPlaying tr); [|reflexivity].
  unfold notifyTrackEnd. cbn [callbacksSet mapTrack set_heap set_nodes].
  destruct (callbacksSet m); reflexivity.
Qed.

Lemma step_gainsInRange m o : gainsInRange m -> gainsInRange (step m o).
Proof.
  intros H.
  destruct o as [c| |decoded k|k d|k|k|k pos d|d v|v|p| |dt|i|created f dur k| ];
    unfold step.
  - apply (gainsInRange_frame (buildGraph c m)).
    { apply transportFrame_graphGains, transportFrame_updatePositions. }
    unfold gainsInRange, gainInRange. simpl.
    split; [lra|]. split; [intros []; simpl; lra | lra].
  - exact H.
  - apply (gainsInRange_frame m), H. apply transportFrame_graphGains, transportFrame_loadTrack.
  - apply (gainsInRange_frame m), H. apply transportFrame_graphGains, transportFrame_playTrack.
  - apply (gainsInRange_frame m), H. apply transportFrame_graphGains, transportFrame_pauseTrack.
  - apply (gainsInRange_frame m), H. apply transportFrame_graphGains, transportFrame_stopTrack.
  - apply (gainsInRange_frame m), H. apply transportFrame_graphGains, transportFrame_seekTo.
  - destruct H as (Hm & Hd & Hx). both_decks Hd.
    pose proof (jsClamp_bounds 0 1 v ltac:(lra)) as Hv.
    unfold setDeckVolume, gainsInRange.
    destruct d; simpl.
    + destruct (deckAGain m) eqn:Ea; simpl;
        (split; [exact Hm|]; split; [|exact Hx]); intros []; simpl; rewrite ?Ea; assumption.
    + destruct (deckBGain m) eqn:Eb; simpl;
        (split; [exact Hm|]; split; [|exact Hx]); intros []; simpl; rewrite ?Eb; assumption.
  - destruct H as (Hm & Hd & Hx).
    pose proof (jsClamp_bounds 0 1 v ltac:(lra)) as Hv.
    unfold setMasterVolume, gainsInRange.
    destruct (masterGain m) eqn:Em, (audioContext m); simpl; rewrite ?Em;
      (split; [assumption|]; split; assumption).
  - destruct H as (Hm & Hd & Hx). both_decks Hd.
    destruct (crossfade_bounds (jsClamp (-1) 1 p) (jsClamp_bounds (-1) 1 p ltac:(lra)))
      as [Ha Hb].
    unfold setCrossfader, gainsInRange.
    destruct (deckAGain m) eqn:Ea, (deckBGain m) eqn:Eb, (audioContext m); simpl;
      (split; [exact Hm|]; split; [|exact Hx]); intros []; simpl; rewrite ?Ea, ?Eb;
      assumption.
  - apply (gainsInRange_frame m), H.
    apply transportFrame_graphGains, transportFrame_updatePositions.
  - exact H.
  - apply (gainsInRange_frame m), H. apply graphGains_dispatchEnded.
  - apply (gainsInRange_frame m), H.
    apply transportFrame_graphGains, transportFrame_createDemoTrack.
  - apply (gainsInRange_frame m), H. apply transportFrame_graphGains, transportFrame_cleanup.
Qed.

Lemma reachable_gainsInRange m : reachable m -> gainsInRange m.
Proof.
  induction 1; [|now apply step_gainsInRange].
  split; [exact I|]. split; [intros []; exact I | exact I].
Qed.

(** X11.  In every state the manager can reach, the master gain, both deck
    gains and the crossfader gain lie between 0 and 1. *)
Theorem manager_gains_stay_in_range m :
  reachable m ->
  gainInRange (masterGain m) /\
  (forall d, gainInRange (deckGain d m)) /\
  gainInRange (crossfaderGain m).
Proof. exact (reachable_gainsInRange m). Qed.

Lemma manager_gains_stay_in_range_witness :
  reachable (run Scenario.manager180 [SetCrossfader (-3); SetDeckVolume A 7]) /\
  gainInRange (deckGain A (run Scenario.manager180 [SetCrossfader (-3); SetDeckVolume A 7])).
Proof.
  assert (Hr : reachable (run Scenario.manager180 [SetCrossfader (-3); SetDeckVolume A 7]))
    by (do 3 apply manager_reachable_run; constructor).
  split; [exact Hr|].
  exact (proj1 (proj2 (manager_gains_stay_in_range _ Hr)) A).
Defined.

(** X12.  In the manager the volume of a deck and the crossfader write the
    same gain node of the deck: once the graph is built, [setCrossfader]
    leaves the state it would leave had [setDeckVolume] never been called,
    and [setDeckVolume] after [setCrossfader] replaces the crossfader's gain
    for that deck by the clamped volume. *)
Theorem crossfader_overwrites_deck_volume m d v p :
  reachable m -> present (audioContext m) = true ->
  setCrossfader p (setDeckVolume d v m) = setCrossfader p m /\
  deckGain d (setDeckVolume d v (setCrossfader p m)) = Some (mkGain (jsClamp 0 1 v)).
Proof.
  intros Hr Hc.
  pose proof (ManagerFacts.reachable_deckGain m A Hr Hc) as Ha.
  pose proof (ManagerFacts.reachable_deckGain m B Hr Hc) as Hb.
  destruct m as [c mg ga gb xg ts h ns cb e1 e2]. simpl in Hc, Ha, Hb.
  destruct c as [c|]; [|discriminate]. destruct ga as [ga|]; [|discriminate].
  destruct gb as [gb|]; [|discriminate].
  destruct d; split; reflexivity.
Qed.

Lemma crossfader_overwrites_deck_volume_witness :
  reachable Scenario.manager180 /\
  present (audioContext Scenario.manager180) = true /\
  deckGains (setCrossfader 0 (setDeckVolume A 0.2 Scenario.manager180)) = Some (1, 1).
Proof.
  assert (Hr : reachable Scenario.manager180)
    by (do 2 apply manager_reachable_run; constructor).
  assert (Hc : present (audioContext Scenario.manager180) = true) by reflexivity.
  split; [exact Hr|]. split; [exact Hc|].
  rewrite (proj1 (crossfader_overwrites_deck_volume _ A 0.2 0 Hr Hc)).
  evaluate. reflexivity.
Defined.

End ManagerGraph.

Module ManagerTracks.
Import AudioManager AudioManagerLifecycle.

(** *** What every track object satisfies *)

Lemma heap_stopSource src m : heap (stopSource src m) = heap m.
Proof. now destruct src. Qed.

Lemma Forall_mapTrack (P : AudioTrack -> Prop) r f m :
  (forall a, P a -> P (f a)) -> Forall P (heap m) -> Forall P (heap (mapTrack r f m)).
Proof. intros Hf H. simpl. apply Forall_alter; auto. Qed.

Lemma stopTrack_sound k m :
  Forall trackSound (heap m) -> Forall trackSound (heap (fst (stopTrack k m))).
Proof.
  intros H. unfold stopTrack.
  destruct (trackRef k m) as [r|]; [|assumption].
  destruct (heap m !! r) as [a|]; [|assumption]. cbn [fst].
  apply Forall_mapTrack; [|now rewrite heap_stopSource].
  intros x (H1 & H3). split; [discriminate | assumption].
Qed.

Lemma playTrack_sound k d m :
  Forall trackSound (heap m) -> Forall trackSound (heap (fst (playTrack k d m))).
Proof.
  intros H. unfold playTrack.
  destruct (audioContext m) as [c|]; [|assumption].
  destruct (trackRef k m) as [r|]; [|assumption].
  destruct (heap m !! r) as [a|]; [|assumption].
  destruct (deckGain d m); [|assumption]. cbn [fst].
  apply Forall_mapTrack; [|simpl; now rewrite heap_stopSource].
  intros x (H1 & H3). split; [reflexivity | now right].
Qed.

Lemma pauseTrack_sound k m :
  Forall trackSound (heap m) -> Forall trackSound (heap (fst (pauseTrack k m))).
Proof.
  intros H. unfold pauseTrack.
  destruct (trackRef k m) as [r|]; [|assumption].
  destruct (audioContext m) as [c|]; [|assumption].
  destruct (heap m !! r) as [a|]; [|assumption].
  destruct (isPlaying a); [|assumption]. cbn [fst].
  apply Forall_mapTrack; [|now rewrite heap_stopSource].
  intros x (H1 & H3). split; [discriminate | assumption].
Qed.

Lemma seekTo_sound k p d m :
  Forall trackSound (heap m) -> Forall trackSound (heap (fst (seekTo k p d m))).
Proof.
  intros H. unfold seekTo.
  destruct (trackRef k m) as [r|] eqn:Er; [|assumption].
  destruct (heap m !! r) as [a|] eqn:Ea; [|assumption]. cbn [fst].
  assert (H2 : Forall trackSound
                 (heap (mapTrack r (with_pausedAt (jsClamp 0 (duration a) p))
                          (fst (stopTrack k m))))).
  { unfold stopTrack. rewrite Er, Ea. cbn [fst]. simpl.
    rewrite heap_stopSource, list_alter_alter_eq.
    apply Forall_alter; [exact H|].
    intros x _ (H1 & H3). split; [discriminate | assumption]. }
  destruct (_ && _); [now apply playTrack_sound | assumption].
Qed.

Lemma updatePosition_sound m entry :
  Forall trackSound (heap m) -> Forall trackSound (heap (updatePosition m entry)).
Proof.
  intros H. destruct entry as [k r]. unfold updatePosition.
  destruct (heap m !! r) as [a|]; [|assumption].
  destruct (audioContext m) as [c|]; [|assumption].
  destruct (isPlaying a); [|assumption].
  assert (H1 : Forall trackSound
                 (heap (mapTrack r (with_currentTime (WebAudio.currentTime c - startTime a)) m))).
  { apply Forall_mapTrack; [|assumption]. intros x Hx. exact Hx. }
  destruct (Rge_dec _ _); [now apply stopTrack_sound|].
  unfold notifyPosition. destruct (callbacksSet _); assumption.
Qed.

Lemma dispatchEnded_sound i m :
  Forall trackSound (heap m) -> Forall trackSound (heap (dispatchEnded i m)).
Proof.
  intros H. unfold dispatchEnded.
  destruct (nodes m !! i) as [n|]; [|assumption].
  destruct (audioContext m) as [c|]; [|assumption].
  destruct (_ && _); [|assumption].
  unfold onended. cbn [heap set_nodes].
  destruct (heap m !! node_track n) as [tr|]; [|assumption].
  destruct (isPlaying tr); [|assumption].
  assert (H1 : Forall trackSound
                 (heap (mapTrack (node_track n)
                          (fun a => with_pausedAt 0 (with_currentTime 0 (with_isPlaying false a)))
                          (set_nodes (alter markEnded i (nodes m)) m)))).
  { apply Forall_mapTrack; [|assumption].
    intros x (H1 & H3). split; [discriminate | assumption]. }
  unfold notifyTrackEnd. destruct (callbacksSet _); assumption.
Qed.

Lemma updatePositions_sound m :
  Forall trackSound (heap m) -> Forall trackSound (heap (updatePositions m)).
Proof.
  unfold updatePositions.
  apply (fold_left_preserves (fun s => Forall trackSound (heap s))).
  intros; now apply updatePosition_sound.
Qed.

Lemma cleanup_sound m :
  Forall trackSound (heap m) -> Forall trackSound (heap (cleanup m)).
Proof.
  intros H. change (heap (cleanup m)) with (heap (stopAll (tracks m) m)).
  unfold stopAll. apply (fold_left_preserves (fun s => Forall trackSound (heap s))); auto.
  intros x y. apply stopTrack_sound.
Qed.

Lemma step_sound m o :
  Forall trackSound (heap m) -> Forall trackSound (heap (step m o)).
Proof.
  intros H.
  destruct o as [c| |decoded k|k d|k|k|k pos d|d v|v|p| |dt|i|created f dur k| ];
    unfold step;
    auto using stopTrack_sound, playTrack_sound, pauseTrack_sound, seekTo_sound,
      dispatchEnded_sound, updatePositions_sound, cleanup_sound.
  - apply updatePositions_sound. exact H.
  - unfold loadTrack. destruct (audioContext m); [|assumption].
    destruct decoded as [b|]; [|assumption]. simpl.
    apply Forall_app. split; [assumption|]. constructor; [|constructor].
    split; [discriminate | now left].
  - unfold setDeckVolume. destruct (deckGain d m); [|assumption]. now destruct d.
  - unfold setMasterVolume. now destruct (masterGain m), (audioContext m).
  - unfold setCrossfader. now destruct (deckAGain m), (deckBGain m), (audioContext m).
  - unfold createDemoTrack. destruct (audioContext m); [|assumption].
    destruct created as [b|]; [|assumption]. simpl.
    apply Forall_app. split; [assumption|]. constructor; [|constructor].
    split; [discriminate | now left].
Qed.

Lemma reachable_sound m : reachable m -> Forall trackSound (heap m).
Proof. induction 1; [constructor | now apply step_sound]. Qed.

Lemma tracks_get_In k r ts : tracks_get k ts = Some r -> In (k, r) ts.
Proof.
  induction ts as [|[k' r'] ts IH]; simpl; [discriminate|].
  destruct (String.eqb_spec k k') as [->|Hne].
  - intros [= ->]. now left.
  - intros H. right. auto.
Qed.

Lemma getTrack_inv k m a :
  getTrack k m = Some a ->
  exists r, trackRef k m = Some r /\ heap m !! r = Some a /\ In (k, r) (tracks m).
Proof.
  unfold getTrack. destruct (trackRef k m) as [r|] eqn:Hr; [|discriminate].
  intros Ha. exists r. split; [reflexivity|]. split; [exact Ha|].
  now apply tracks_get_In.
Qed.

(** X13.  In every state the manager can reach, whichever of its methods
    were called, the own gain node of a track of the map is absent or at the
    default 1, and a playing track has no pause point left.  So [playTrack]
    on a track that is already playing restarts it from the beginning. *)
Theorem playing_track_restarts_from_zero m k d a c :
  reachable m -> audioContext m = Some c ->
  getTrack k m = Some a ->
  (gainNode a = None \/ gainNode a = Some (mkGain 1)) /\
  (isPlaying a = true ->
   pausedAt a = 0 /\
   snd (playTrack k d m) = true /\
   getCurrentTime k (fst (playTrack k d m)) = 0).
Proof.
  intros Hr Hc Ha.
  destruct (getTrack_inv k m a Ha) as (r & Href & Hh & _).
  pose proof (reachable_sound m Hr) as Hs.
  rewrite Forall_lookup in Hs. destruct (Hs r a Hh) as (H1 & H3).
  split; [exact H3|]. intros Hp. specialize (H1 Hp).
  split; [exact H1|].
  assert (Hg : present (deckGain d m) = true)
    by (apply ManagerFacts.reachable_deckGain; [exact Hr | now rewrite Hc]).
  destruct (deckGain d m) as [g|] eqn:Eg; [|discriminate].
  destruct (ManagerFacts.playTrack_starts k d m c r a g Hc Href Hh Eg)
    as (Hok & Hc' & Ht' & _ & Hh' & _).
  split; [exact Hok|].
  rewrite (ManagerFacts.getCurrentTime_playing k (fst (playTrack k d m))
             (resumeIfSuspended c) r _ Hc'
             ltac:(unfold trackRef; rewrite Ht'; exact Href) Hh' eq_refl).
  simpl. rewrite resumeIfSuspended_time, H1. lra.
Qed.

Lemma playing_track_restarts_from_zero_witness :
  reachable Scenario.managerPlaying5 /\
  getCurrentTime "a" Scenario.managerPlaying5 = 5 /\
  getCurrentTime "a" (fst (playTrack "a" A Scenario.managerPlaying5)) = 0.
Proof.
  assert (Hr : reachable Scenario.managerPlaying5)
    by (do 3 apply manager_reachable_run; constructor).
  assert (Hc : audioContext Scenario.managerPlaying5 = Some (mkContext (0 + 5) Running))
    by (evaluate; reflexivity).
  assert (Ha : getTrack "a" Scenario.managerPlaying5
               = Some (mkTrack "a" (mkBuffer 180) (Some 0%nat) (Some (mkGain 1))
                         true (0 - 0) 0 180 0))
    by (evaluate; reflexivity).
  split; [exact Hr|]. split; [evaluate; lra|].
  exact (proj2 (proj2 (proj2
           (playing_track_restarts_from_zero _ "a" A _ _ Hr Hc Ha) eq_refl))).
Defined.

(** *** One animation frame *)

(** Track object [r], if it plays, has not reached its end at [now]. *)
Lemma updatePosition_settles m k r c :
  audioContext m = Some c -> NoDup (map fst (tracks m)) -> In (k, r) (tracks m) ->
  forall a, heap (updatePosition m (k, r)) !! r = Some a -> isPlaying a = true ->
            WebAudio.currentTime c - startTime a < duration a.
Proof.
  intros Hc Hnd Hin a. unfold updatePosition. rewrite Hc.
  destruct (heap m !! r) as [a0|] eqn:Ha0; [|congruence].
  destruct (isPlaying a0) eqn:Hp0; [|intros Ha Hp; congruence].
  set (m1 := mapTrack r _ m).
  assert (Ha1 : heap m1 !! r
                = Some (with_currentTime (WebAudio.currentTime c - startTime a0) a0))
    by (apply ManagerFacts.mapTrack_lookup; exact Ha0).
  destruct (Rge_dec _ _) as [Hge|Hlt].
  - assert (Hr1 : trackRef k m1 = Some r) by (apply ManagerFacts.In_tracks_get; assumption).
    destruct (ManagerFacts.stopTrack_stops k m1 r _ Hr1 Ha1) as (_ & _ & _ & _ & Hh & _).
    rewrite Hh. intros [= <-]. discriminate.
  - unfold notifyPosition.
    assert (Hh : heap (if callbacksSet m1
                       then set_onPositionUpdateCalls
                              (onPositionUpdateCalls m1
                               ++ [(k, WebAudio.currentTime c - startTime a0, duration a0)]) m1
                       else m1) !! r
                 = Some (with_currentTime (WebAudio.currentTime c - startTime a0) a0))
      by (destruct (callbacksSet m1); exact Ha1).
    rewrite Hh. intros [= <-] _. simpl. lra.
Qed.

Lemma updatePosition_other m k r r' :
  NoDup (map fst (tracks m)) -> In (k, r) (tracks m) -> r <> r' ->
  heap (updatePosition m (k, r)) !! r' = heap m !! r'.
Proof.
  intros Hnd Hin Hne. unfold updatePosition.
  destruct (heap m !! r) as [a0|] eqn:Ha0; [|reflexivity].
  destruct (audioContext m) as [c|]; [|reflexivity].
  destruct (isPlaying a0); [|reflexivity].
  set (m1 := mapTrack r _ m).
  assert (H1 : heap m1 !! r' = heap m !! r')
    by (apply ManagerFacts.mapTrack_lookup_ne; exact Hne).
  destruct (Rge_dec _ _).
  - unfold stopTrack.
    assert (Hr1 : trackRef k m1 = Some r) by (apply ManagerFacts.In_tracks_get; assumption).
    rewrite Hr1. destruct (heap m1 !! r) as [b|]; [|exact H1].
    cbn [fst]. rewrite ManagerFacts.mapTrack_lookup_ne by assumption.
    destruct (source b); exact H1.
  - unfold notifyPosition. destruct (callbacksSet _); exact H1.
Qed.

Lemma updatePositions_settle l : forall m c,
  audioContext m = Some c -> NoDup (map fst (tracks m)) ->
  (forall x, In x l -> In x (tracks m)) ->
  forall k r, In (k, r) l ->
  forall a, heap (fold_left updatePosition l m) !! r = Some a -> isPlaying a = true ->
            WebAudio.currentTime c - startTime a < duration a.
Proof.
  induction l as [|[k0 r0] l IH]; intros m c Hc Hnd Hsub k r Hin a; [destruct Hin|].
  cbn [fold_left].
  assert (Hc1 : audioContext (updatePosition m (k0, r0)) = Some c)
    by (now rewrite ManagerFacts.updatePosition_context).
  assert (Hnd1 : NoDup (map fst (tracks (updatePosition m (k0, r0)))))
    by (now rewrite ManagerFacts.updatePosition_tracks).
  assert (Hsub1 : forall x, In x l -> In x (tracks (updatePosition m (k0, r0))))
    by (intros x Hx; rewrite ManagerFacts.updatePosition_tracks; apply Hsub; now right).
  destruct (in_dec (fun x y : string * nat => decide (x = y)) (k, r) l) as [Hl|Hnl].
  - now apply (IH _ c Hc1 Hnd1 Hsub1 k r Hl).
  - destruct Hin as [Heq|Hl]; [|contradiction]. injection Heq as -> ->.
    (* the entries left do not refer to [r] again, or settle it again *)
    assert (Hkeep : forall l' s,
               audioContext s = Some c -> NoDup (map fst (tracks s)) ->
               (forall x, In x l' -> In x (tracks s)) ->
               (forall b, heap s !! r = Some b -> isPlaying b = true ->
                          WebAudio.currentTime c - startTime b < duration b) ->
               forall b, heap (fold_left updatePosition l' s) !! r = Some b ->
                         isPlaying b = true ->
                         WebAudio.currentTime c - startTime b < duration b).
    { clear. induction l' as [|[k1 r1] l' IH']; intros s Hc Hnd Hsub Hs; [exact Hs|].
      cbn [fold_left]. apply IH'.
      - now rewrite ManagerFacts.updatePosition_context.
      - now rewrite ManagerFacts.updatePosition_tracks.
      - intros x Hx. rewrite ManagerFacts.updatePosition_tracks. apply Hsub. now right.
      - destruct (Nat.eq_dec r1 r) as [->|Hne].
        + apply (updatePosition_settles s k1 r c Hc Hnd). apply Hsub. now left.
        + intros b'. rewrite (updatePosition_other s k1 r1 r Hnd); [apply Hs| |exact Hne].
          apply Hsub. now left. }
    apply (Hkeep l _ Hc1 Hnd1 Hsub1).
    apply (updatePosition_settles m k r c Hc Hnd). apply Hsub. now left.
Qed.

(** X14.  One animation frame leaves no track of the map playing beyond its
    duration: every playing track whose elapsed time had reached its
    duration has been stopped. *)
Theorem frame_stops_overdue_tracks m c :
  reachable m -> audioContext m = Some c ->
  noneOverdue (WebAudio.currentTime c) (updatePositions m).
Proof.
  intros Hr Hc k a Ha Hp.
  destruct (getTrack_inv k _ a Ha) as (r & _ & Hh & Hin).
  rewrite ManagerFacts.updatePositions_tracks in Hin.
  destruct (ManagerFacts.reachable_wf m Hr) as [Hnd _ _].
  exact (updatePositions_settle (tracks m) m c Hc Hnd (fun x H => H) k r Hin a Hh Hp).
Qed.

Lemma frame_stops_overdue_tracks_witness :
  reachable Scenario.managerPast10 /\
  audioContext Scenario.managerPast10 = Some (mkContext (0 + 11) Running) /\
  noneOverdue (0 + 11) (updatePositions Scenario.managerPast10).
Proof.
  assert (Hr : reachable Scenario.managerPast10)
    by (do 2 apply manager_reachable_run; constructor).
  assert (Hc : audioContext Scenario.managerPast10 = Some (mkContext (0 + 11) Running))
    by (evaluate; reflexivity).
  split; [exact Hr|]. split; [exact Hc|].
  exact (frame_stops_overdue_tracks _ _ Hr Hc).
Defined.

(** *** Loading and looking up *)

(** X15.  [loadTrack] and [getTrackInfo] round-trip: in a manager with a
    context, a decoded file is registered at rest under its id, with the
    duration of its buffer, position 0 and no source, and every other id
    reads as before; without a context, or when decoding fails, the call
    answers [false] and changes nothing. *)
Theorem load_then_getTrackInfo m k b :
  reachable m ->
  (present (audioContext m) = true ->
   let m' := fst (loadTrack (Some b) k m) in
   snd (loadTrack (Some b) k m) = true /\
   getTrackInfo k m' = Some (mkTrack k b None None false 0 0 (buffer_duration b) 0) /\
   getCurrentTime k m' = 0 /\
   forall k', k' <> k -> getTrackInfo k' m' = getTrackInfo k' m) /\
  loadTrack None k m = (m, false) /\
  (audioContext m = None -> loadTrack (Some b) k m = (m, false)).
Proof.
  intros Hr. split; [|split].
  - intros Hc. destruct (audioContext m) as [c|] eqn:Ec; [|discriminate].
    destruct (ManagerFacts.loadTrack_registers b k m c Ec) as (Hok & Hget & Hother & _ & Hheap).
    intros m'. fold m' in Hget, Hother, Hheap.
    assert (Hc' : audioContext m' = Some c)
      by (unfold m', loadTrack; rewrite Ec; exact Ec).
    split; [exact Hok|]. split; [exact Hget|]. split.
    + unfold getCurrentTime. rewrite Hget, Hc'. reflexivity.
    + intros k' Hne. unfold getTrackInfo, getTrack. rewrite (Hother k' Hne).
      destruct (trackRef k' m) as [r|] eqn:Er; [|reflexivity].
      destruct (ManagerFacts.reachable_wf m Hr) as [_ Hrefs _].
      destruct (Hrefs k' r (tracks_get_In _ _ _ Er)) as [a Ha].
      rewrite Ha. now apply Hheap.
  - unfold loadTrack. now destruct (audioContext m).
  - intros Hc. unfold loadTrack. now rewrite Hc.
Qed.

Lemma load_then_getTrackInfo_witness :
  reachable Scenario.manager180 /\
  present (audioContext Scenario.manager180) = true /\
  getTrackInfo "b" (fst (loadTrack (Some (mkBuffer 60)) "b" Scenario.manager180))
  = Some (mkTrack "b" (mkBuffer 60) None None false 0 0 60 0).
Proof.
  assert (Hr : reachable Scenario.manager180)
    by (do 2 apply manager_reachable_run; constructor).
  assert (Hc : present (audioContext Scenario.manager180) = true) by reflexivity.
  split; [exact Hr|]. split; [exact Hc|].
  exact (proj1 (proj2 (proj1 (load_then_getTrackInfo _ "b" (mkBuffer 60) Hr) Hc))).
Defined.

End ManagerTracks.

Module ManagerCleanup.
Import AudioManager AudioManagerLifecycle.

(** *** [cleanup] *)












End ManagerCleanup.

Module ManagerReady.
Import AudioManager AudioManagerLifecycle.

Lemma stopTrack_context k m : audioContext (fst (stopTrack k m)) = audioContext m.
Proof.
  unfold stopTrack. destruct (trackRef k m) as [r|]; [|reflexivity].
  destruct (heap m !! r) as [a|]; [|reflexivity]. now destruct (source a).
Qed.

Lemma playTrack_context k d m :
  audioContext (fst (playTrack k d m)) = audioContext m \/
  exists c, audioContext m = Some c /\
            audioContext (fst (playTrack k d m)) = Some (resumeIfSuspended c).
Proof.
  unfold playTrack. destruct (audioContext m) as [c|] eqn:Hc; [|left; exact Hc].
  destruct (trackRef k m) as [r|]; [|left; exact Hc].
  destruct (heap m !! r) as [a|]; [|left; exact Hc].
  destruct (deckGain d m); [|left; exact Hc].
  right. exists c. split; [reflexivity|]. now destruct (source a).
Qed.

(** A call other than [initializeAudioContext] and [cleanup] leaves the
    context alone, resumes it, or lets its clock run. *)
Lemma manager_step_context m o :
  (forall c, o <> Initialize c) -> o <> Cleanup ->
  audioContext (step m o) = audioContext m \/
  exists c, audioContext m = Some c /\
    (audioContext (step m o) = Some (resumeIfSuspended c) \/
     exists dt, audioContext (step m o) = Some (advanceContext dt c)).
Proof.
  intros Hno Hnc.
  destruct o as [c| |decoded k|k d|k|k|k pos d|d v|v|p| |dt|i|created f dur k| ];
    unfold step.
  - now destruct (Hno c).
  - now left.
  - left. unfold loadTrack. destruct (audioContext m) eqn:Hc; [|exact Hc].
    destruct decoded; exact Hc.
  - destruct (playTrack_context k d m) as [H|(c & Hc & H)]; [now left|].
    right. exists c. auto.
  - left. unfold pauseTrack. destruct (trackRef k m) as [r|]; [|reflexivity].
    destruct (audioContext m) as [c|] eqn:Hc; [|exact Hc].
    destruct (heap m !! r) as [a|]; [|exact Hc].
    destruct (isPlaying a); [|exact Hc]. destruct (source a); exact Hc.
  - left. apply stopTrack_context.
  - unfold seekTo. destruct (trackRef k m) as [r|]; [|now left].
    destruct (heap m !! r) as [a|]; [|now left]. cbn [fst].
    set (m2 := mapTrack r _ _).
    assert (H2 : audioContext m2 = audioContext m) by apply (stopTrack_context k m).
    destruct (_ && _); [|now left].
    destruct (playTrack_context k d m2) as [H|(c & Hc & H)].
    + left. now rewrite H.
    + right. exists c. rewrite <- H2. auto.
  - left. unfold setDeckVolume. destruct (deckGain d m); [|reflexivity]. now destruct d.
  - left. unfold setMasterVolume. destruct (masterGain m); [|reflexivity].
    destruct (audioContext m) eqn:Hc; exact Hc.
  - left. unfold setCrossfader. destruct (deckAGain m); [|reflexivity].
    destruct (deckBGain m); [|reflexivity]. destruct (audioContext m) eqn:Hc; exact Hc.
  - left. apply ManagerFacts.updatePositions_context.
  - unfold advance. simpl. destruct (audioContext m) as [c|]; [|now left].
    right. exists c. split; [reflexivity|]. right. now exists dt.
  - left. unfold dispatchEnded. destruct (nodes m !! i) as [n|]; [|reflexivity].
    destruct (audioContext m) as [c|] eqn:Hc; [|exact Hc].
    destruct (_ && _); [|exact Hc].
    unfold onended. cbn [heap set_nodes].
    destruct (heap m !! node_track n) as [tr|]; [|exact Hc].
    destruct (isPlaying tr); [|exact Hc].
    unfold notifyTrackEnd. cbn [callbacksSet mapTrack set_heap set_nodes].
    destruct (callbacksSet m); exact Hc.
  - left. unfold createDemoTrack. destruct (audioContext m) eqn:Hc; [|exact Hc].
    destruct created; exact Hc.
  - now destruct Hnc.
Qed.

(** X17.  The state [getAudioContextState] reports: [closed] before the
    manager is initialised; [running] after [initializeAudioContext] on a
    context that is not closed; [closed] after [cleanup]; and every other
    call, animation frame and platform event keeps a running context running
    and a closed or missing context closed. *)
Theorem context_state_follows_lifecycle m o :
  getAudioContextState empty = Closed /\
  (forall c, state c <> Closed ->
             getAudioContextState (initializeAudioContext c m) = Running) /\
  getAudioContextState (cleanup m) = Closed /\
  ((forall c, o <> Initialize c) -> o <> Cleanup ->
   (getAudioContextState m = Running -> getAudioContextState (step m o) = Running) /\
   (getAudioContextState m = Closed -> getAudioContextState (step m o) = Closed)).
Proof.
  split; [reflexivity|]. split; [|split].
  - intros c Hs. unfold getAudioContextState, initializeAudioContext.
    rewrite ManagerFacts.updatePositions_context. simpl.
    now apply resumeIfSuspended_state.
  - unfold getAudioContextState, cleanup. simpl.
    now destruct (audioContext (stopAll (tracks m) m)).
  - unfold getAudioContextState. intros Hno Hnc.
    destruct (manager_step_context m o Hno Hnc) as [->|(c & Hc & [->|[dt ->]])];
      [tauto| |]; rewrite Hc.
    + split; intros Hs.
      * apply resumeIfSuspended_state. congruence.
      * unfold resumeIfSuspended, isSuspended. now rewrite Hs.
    + split; intros Hs; unfold advanceContext; rewrite Hs; [|exact Hs].
      destruct (Rle_dec 0 dt); [reflexivity | exact Hs].
Qed.

Lemma context_state_follows_lifecycle_witness :
  getAudioContextState Scenario.manager180 = Running /\
  getAudioContextState (step Scenario.manager180 (PlayTrack "a" A)) = Running /\
  getAudioContextState (step (cleanup Scenario.manager180) (PlayTrack "a" A)) = Closed.
Proof.
  assert (H : getAudioContextState Scenario.manager180 = Running) by reflexivity.
  assert (Hno : forall c, PlayTrack "a" A <> Initialize c) by (intros c; discriminate).
  assert (Hnc : PlayTrack "a" A <> Cleanup) by discriminate.
  split; [exact H|]. split.
  - exact (proj1 (proj2 (proj2 (proj2
             (context_state_follows_lifecycle Scenario.manager180 (PlayTrack "a" A))))
             Hno Hnc) H).
  - pose proof (context_state_follows_lifecycle Scenario.manager180 (PlayTrack "a" A))
      as (_ & _ & Hc & _).
    exact (proj2 (proj2 (proj2 (proj2
             (context_state_follows_lifecycle (cleanup Scenario.manager180)
                (PlayTrack "a" A)))) Hno Hnc) Hc).
Defined.

End ManagerReady.

Module ManagerEnd.
Import AudioManager AudioManagerLifecycle.



End ManagerEnd.

Module ManagerIndependence.
Import AudioManager AudioManagerLifecycle.

Lemma stopTrack_elsewhere k m r' :
  trackRef k m <> Some r' ->
  heap (fst (stopTrack k m)) !! r' = heap m !! r' /\
  tracks (fst (stopTrack k m)) = tracks m.
Proof.
  intros Hne. unfold stopTrack. destruct (trackRef k m) as [r|] eqn:Hr; [|auto].
  destruct (heap m !! r) as [a|]; [|auto]. cbn [fst]. simpl.
  rewrite ManagerTracks.heap_stopSource.
  split; [|now destruct (source a)].
  apply list_lookup_alter_ne. congruence.
Qed.

Lemma playTrack_elsewhere k d m r' :
  trackRef k m <> Some r' ->
  heap (fst (playTrack k d m)) !! r' = heap m !! r' /\
  tracks (fst (playTrack k d m)) = tracks m.
Proof.
  intros Hne. unfold playTrack. destruct (audioContext m) as [c|]; [|auto].
  destruct (trackRef k m) as [r|] eqn:Hr; [|auto].
  destruct (heap m !! r) as [a|]; [|auto].
  destruct (deckGain d m); [|auto]. cbn [fst]. simpl.
  rewrite ManagerTracks.heap_stopSource.
  split; [|now destruct (source a)].
  apply list_lookup_alter_ne. congruence.
Qed.

(** X19.  The tracks of the manager are independent, and a deck is not
    exclusive: [playTrack], [pauseTrack], [stopTrack] and [seekTo] on one
    track leave every other track object and the map as they were.  In
    particular, starting a track on a deck does not stop a track that is
    already playing on that deck. *)
Theorem track_calls_leave_other_tracks m k d pos r' :
  trackRef k m <> Some r' ->
  (heap (fst (playTrack k d m)) !! r' = heap m !! r' /\
   tracks (fst (playTrack k d m)) = tracks m) /\
  (heap (fst (pauseTrack k m)) !! r' = heap m !! r' /\
   tracks (fst (pauseTrack k m)) = tracks m) /\
  (heap (fst (stopTrack k m)) !! r' = heap m !! r' /\
   tracks (fst (stopTrack k m)) = tracks m) /\
  (heap (fst (seekTo k pos d m)) !! r' = heap m !! r' /\
   tracks (fst (seekTo k pos d m)) = tracks m).
Proof.
  intros Hne. split; [|split; [|split]].
  - now apply playTrack_elsewhere.
  - unfold pauseTrack. destruct (trackRef k m) as [r|] eqn:Hr; [|auto].
    destruct (audioContext m) as [c|]; [|auto].
    destruct (heap m !! r) as [a|]; [|auto].
    destruct (isPlaying a); [|auto]. cbn [fst]. simpl.
    rewrite ManagerTracks.heap_stopSource.
    split; [|now destruct (source a)].
    apply list_lookup_alter_ne. congruence.
  - now apply stopTrack_elsewhere.
  - destruct (stopTrack_elsewhere k m r' Hne) as [Hs1 Hs2].
    unfold seekTo. destruct (trackRef k m) as [r|] eqn:Hr; [|auto].
    destruct (heap m !! r) as [a|]; [|auto]. cbn [fst].
    set (m2 := mapTrack r _ _).
    assert (Hh2 : heap m2 !! r' = heap m !! r').
    { unfold m2. rewrite ManagerFacts.mapTrack_lookup_ne by congruence. exact Hs1. }
    assert (Ht2 : tracks m2 = tracks m) by exact Hs2.
    destruct (_ && _); [|auto].
    destruct (playTrack_elsewhere k d m2 r') as [Hp1 Hp2].
    { unfold trackRef. rewrite Ht2. fold (trackRef k m). rewrite Hr. exact Hne. }
    split; congruence.
Qed.

Lemma track_calls_leave_other_tracks_witness :
  getTrack "a" (fst (playTrack "b" A
     (fst (loadTrack (Some (mkBuffer 60)) "b" Scenario.managerPlaying5))))
  = getTrack "a" (fst (loadTrack (Some (mkBuffer 60)) "b" Scenario.managerPlaying5)).
Proof.
  set (m := fst (loadTrack (Some (mkBuffer 60)) "b" Scenario.managerPlaying5)).
  assert (Hne : trackRef "b" m <> Some 0%nat) by (evaluate; discriminate).
  assert (Ha : trackRef "a" m = Some 0%nat) by (evaluate; reflexivity).
  destruct (proj1 (track_calls_leave_other_tracks m "b" A 0 0%nat Hne)) as [Hh Ht].
  unfold getTrack, trackRef in *. rewrite Ht, Ha. exact Hh.
Defined.

End ManagerIndependence.

(** ** The demo tone and the components that call the manager *)

Module CallerFacts.

(** Case analysis on [Rmin] and [Rmax], innermost comparison first. *)
Ltac split_min :=
  unfold Rmin, Rmax;
  repeat match goal with
         | |- context [Rle_dec ?a ?b] =>
             lazymatch a with context [Rle_dec _ _] => fail | _ => idtac end;
             lazymatch b with context [Rle_dec _ _] => fail | _ => idtac end;
             destruct (Rle_dec a b)
         end.

(** *** The demo tone *)

Lemma envelope_bounds duration t :
  0 <= t <= duration -> 0 <= DemoTone.envelope duration t <= 1.
Proof.
  intros [H0 H1]. unfold DemoTone.envelope. split_min; lra.
Qed.

(** X20.  The tone [createDemoTrack] writes is faded: at every sample of the
    buffer the envelope lies between 0 and 1, the sample is at most 0.3 times
    the envelope in absolute value, the envelope rises by 10 per second from
    0 at the first sample and falls to 0 at the end of the tone, and it is
    the same at equal distances from both ends. *)
Theorem demo_tone_is_faded frequency duration sampleRate i :
  0 < sampleRate -> INR i <= sampleRate * duration ->
  let t := INR i / sampleRate in
  0 <= DemoTone.envelope duration t <= 1 /\
  - (0.3 * DemoTone.envelope duration t)
    <= DemoTone.sample frequency duration sampleRate i
    <= 0.3 * DemoTone.envelope duration t /\
  DemoTone.sample frequency duration sampleRate 0 = 0 /\
  DemoTone.envelope duration duration = 0 /\
  DemoTone.envelope duration (duration - t) = DemoTone.envelope duration t /\
  (t <= 1 / 10 -> t <= duration - t -> DemoTone.envelope duration t = t * 10).
Proof.
  intros Hsr Hi t.
  assert (Ht0 : 0 <= t).
  { unfold t. apply Rmult_le_pos; [apply pos_INR|].
    left. now apply Rinv_0_lt_compat. }
  assert (Ht1 : t <= duration).
  { unfold t. apply (Rmult_le_reg_r sampleRate); [exact Hsr|].
    unfold Rdiv. rewrite Rmult_assoc, Rinv_l by lra. lra. }
  pose proof (envelope_bounds duration t (conj Ht0 Ht1)) as He.
  split; [exact He|]. split; [|split; [|split; [|split]]].
  - unfold DemoTone.sample. fold t.
    pose proof (SIN_bound (frequency * 2 * PI * t)) as [Hs1 Hs2].
    destruct He as [He0 He1].
    set (s := sin (frequency * 2 * PI * t)) in *.
    set (en := DemoTone.envelope duration t) in *.
    split; nra.
  - unfold DemoTone.sample, DemoTone.envelope. simpl INR.
    replace (0 / sampleRate) with 0 by (unfold Rdiv; lra).
    assert (Hd : 0 <= duration) by lra.
    assert (Hin : Rmin (0 * 10) ((duration - 0) * 10) = 0)
      by (unfold Rmin; destruct (Rle_dec _ _); lra).
    rewrite Hin.
    assert (Hout : Rmin 1 0 = 0) by (unfold Rmin; destruct (Rle_dec _ _); lra).
    rewrite Hout. lra.
  - unfold DemoTone.envelope. split_min; lra.
  - unfold DemoTone.envelope. split_min; lra.
  - intros Ha Hb. unfold DemoTone.envelope. split_min; lra.
Qed.

Lemma demo_tone_is_faded_witness :
  0 < 44100 /\ INR 4410 <= 44100 * 30 /\
  - (0.3 * DemoTone.envelope 30 (INR 4410 / 44100))
    <= DemoTone.sample 440 30 44100 4410
    <= 0.3 * DemoTone.envelope 30 (INR 4410 / 44100).
Proof.
  assert (H1 : 0 < 44100) by lra.
  assert (H2 : INR 4410 <= 44100 * 30).
  { replace 4410%nat with (Z.to_nat 4410) by reflexivity.
    rewrite INR_IZR_INZ, Z2Nat.id by lia. lra. }
  split; [exact H1|]. split; [exact H2|].
  exact (proj1 (proj2 (demo_tone_is_faded 440 30 44100 4410 H1 H2))).
Defined.

(** *** The crossfader component *)

Lemma jsRound_integer (z : Z) : RealCrossfader.jsRound (IZR z) = z.
Proof.
  unfold RealCrossfader.jsRound. symmetry. apply Int_part_spec. lra.
Qed.

Lemma jsRound_bounds x (lo hi : Z) :
  IZR lo <= x <= IZR hi -> (lo <= RealCrossfader.jsRound x <= hi)%Z.
Proof.
  intros [H1 H2]. unfold RealCrossfader.jsRound.
  destruct (base_Int_part (x + 1 / 2)) as [Ha Hb].
  split.
  - apply Z.lt_succ_r, lt_IZR. rewrite succ_IZR. lra.
  - apply Z.lt_succ_r, lt_IZR. rewrite succ_IZR. lra.
Qed.

(** X21.  Dragging the crossfader: for a slider of positive width the new
    position lies between -1 and 1, so [AudioManager.setCrossfader] clamps
    nothing; the handle is drawn between 0% and 100%, under the pointer
    while the pointer is over the slider, and at the nearer end otherwise. *)
Theorem crossfader_handle_follows_pointer rect clientX p0 :
  0 < RealCrossfader.rect_width rect ->
  let p := RealCrossfader.updateCrossfaderPosition (Some rect) clientX p0 in
  let x := clientX - RealCrossfader.rect_left rect in
  -1 <= p <= 1 /\
  jsClamp (-1) 1 p = p /\
  0 <= RealCrossfader.getCrossfaderPercentage p <= 100 /\
  (0 <= x <= RealCrossfader.rect_width rect ->
   RealCrossfader.getCrossfaderPercentage p = x / RealCrossfader.rect_width rect * 100) /\
  (x <= 0 -> RealCrossfader.getCrossfaderPercentage p = 0) /\
  (RealCrossfader.rect_width rect <= x -> RealCrossfader.getCrossfaderPercentage p = 100).
Proof.
  intros Hw p x.
  assert (Hp : -1 <= p <= 1)
    by (apply (jsClamp_bounds (-1) 1); lra).
  set (w := RealCrossfader.rect_width rect) in *.
  assert (Hq : forall y, y / w * w = y)
    by (intros y; unfold Rdiv; rewrite Rmult_assoc, Rinv_l by lra; lra).
  assert (Hmono : forall y z, y <= z -> y / w <= z / w).
  { intros y z Hyz. unfold Rdiv. apply Rmult_le_compat_r; [|exact Hyz].
    left. now apply Rinv_0_lt_compat. }
  assert (H0 : 0 / w = 0) by (unfold Rdiv; lra).
  assert (H1 : w / w = 1) by (unfold Rdiv; apply Rinv_r; lra).
  split; [exact Hp|]. split; [apply jsClamp_inside; exact Hp|].
  unfold RealCrossfader.getCrossfaderPercentage.
  split; [lra|].
  unfold p, RealCrossfader.updateCrossfaderPosition. fold x. fold w.
  split; [|split].
  - intros [Hx0 Hx1]. pose proof (Hmono 0 x Hx0). pose proof (Hmono x w Hx1).
    split_min; lra.
  - intros Hx. pose proof (Hmono x 0 Hx). split_min; lra.
  - intros Hx. pose proof (Hmono w x Hx). split_min; lra.
Qed.

Lemma crossfader_handle_follows_pointer_witness :
  0 < RealCrossfader.rect_width (RealCrossfader.mkRect 100 200) /\
  RealCrossfader.getCrossfaderPercentage
    (RealCrossfader.updateCrossfaderPosition
       (Some (RealCrossfader.mkRect 100 200)) 150 0) = (150 - 100) / 200 * 100.
Proof.
  assert (Hw : 0 < RealCrossfader.rect_width (RealCrossfader.mkRect 100 200))
    by (simpl; lra).
  split; [exact Hw|].
  apply (proj1 (proj2 (proj2 (proj2
           (crossfader_handle_follows_pointer (RealCrossfader.mkRect 100 200) 150 0 Hw))))).
  simpl. lra.
Defined.

(** X22.  The channel meters of the crossfader show what the manager
    applies: at a position between -1 and 1, once the graph is built, each
    meter is the gain [setCrossfader] gives the deck, as a rounded
    percentage; both meters lie between 0 and 100 and one of them reads
    100. *)
Theorem crossfader_meters_show_deck_gains p m ga gb :
  -1 <= p <= 1 ->
  AudioManager.deckGains (RealCrossfader.onCrossfaderPosition p m) = Some (ga, gb) ->
  present (AudioManager.audioContext m) = true ->
  RealCrossfader.getChannelVolume A p = RealCrossfader.jsRound (ga * 100) /\
  RealCrossfader.getChannelVolume B p = RealCrossfader.jsRound (gb * 100) /\
  (0 <= RealCrossfader.getChannelVolume A p <= 100)%Z /\
  (0 <= RealCrossfader.getChannelVolume B p <= 100)%Z /\
  (RealCrossfader.getChannelVolume A p = 100%Z \/
   RealCrossfader.getChannelVolume B p = 100%Z).
Proof.
  intros Hp Hg Hc.
  unfold RealCrossfader.onCrossfaderPosition, AudioManager.setCrossfader,
    AudioManager.deckGains in Hg.
  destruct (AudioManager.audioContext m) as [c|]; [|discriminate].
  assert (Hga : ga = AudioManager.crossfadeA p /\ gb = AudioManager.crossfadeB p).
  { destruct (AudioManager.deckAGain m) as [a|] eqn:Ea;
      [|simpl in Hg; rewrite ?Ea in Hg; discriminate].
    destruct (AudioManager.deckBGain m) as [b|] eqn:Eb;
      [|simpl in Hg; rewrite ?Ea, ?Eb in Hg; discriminate].
    simpl in Hg. rewrite (jsClamp_inside (-1) 1 p Hp) in Hg.
    injection Hg as <- <-. split; reflexivity. }
  destruct Hga as [-> ->].
  unfold RealCrossfader.getChannelVolume, AudioManager.crossfadeA, AudioManager.crossfadeB.
  assert (H100 : RealCrossfader.jsRound (1 * 100) = 100%Z).
  { replace (1 * 100) with (IZR 100) by lra. apply jsRound_integer. }
  destruct (Rle_dec p 0) as [Hle|Hgt], (Rge_dec p 0) as [Hge|Hlt]; rewrite ?H100.
  - repeat split; try reflexivity; lia.
  - assert (HbB : (0 <= RealCrossfader.jsRound ((1 + p) * 100) <= 100)%Z)
      by (apply jsRound_bounds; lra).
    repeat split; try reflexivity; lia.
  - assert (HbA : (0 <= RealCrossfader.jsRound ((1 - p) * 100) <= 100)%Z)
      by (apply jsRound_bounds; lra).
    repeat split; try reflexivity; lia.
  - exfalso. lra.
Qed.

Lemma crossfader_meters_show_deck_gains_witness :
  -1 <= 0.25 <= 1 /\
  AudioManager.deckGains (RealCrossfader.onCrossfaderPosition 0.25 Scenario.manager180)
  = Some (1 - 0.25, 1) /\
  RealCrossfader.getChannelVolume A 0.25 = RealCrossfader.jsRound ((1 - 0.25) * 100).
Proof.
  assert (Hp : -1 <= 0.25 <= 1) by lra.
  assert (Hg : AudioManager.deckGains
                 (RealCrossfader.onCrossfaderPosition 0.25 Scenario.manager180)
               = Some (1 - 0.25, 1)).
  { unfold RealCrossfader.onCrossfaderPosition, AudioManager.deckGains.
    destruct (ManagerFacts.track_setCrossfader_gains 0.25 Scenario.manager180
                eq_refl eq_refl eq_refl) as [-> ->].
    rewrite (jsClamp_inside (-1) 1 0.25 Hp).
    unfold AudioManager.crossfadeA, AudioManager.crossfadeB. simpl.
    destruct (Rle_dec 0.25 0); [exfalso; lra|].
    destruct (Rge_dec 0.25 0); [reflexivity | exfalso; lra]. }
  split; [exact Hp|]. split; [exact Hg|].
  exact (proj1 (crossfader_meters_show_deck_gains 0.25 Scenario.manager180 _ _ Hp Hg eq_refl)).
Defined.

End CallerFacts.

Module DisplayFacts.

(** *** The time display *)

(** X23.  [formatTime] splits a time that is not negative into whole minutes
    and whole seconds: the seconds lie between 0 and 59, the minutes are not
    negative, and together they are the time rounded down to a second. *)
Theorem formatTime_splits_seconds seconds :
  0 <= seconds ->
  let mins := fst (DeckController.formatTime seconds) in
  let secs := snd (DeckController.formatTime seconds) in
  (0 <= secs <= 59)%Z /\ (0 <= mins)%Z /\
  (60 * mins + secs)%Z = DeckController.jsFloor seconds.
Proof.
  intros Hs. unfold DeckController.formatTime, DeckController.jsRem,
    DeckController.jsFloor. cbn [fst snd].
  assert (Hq : 0 <= seconds / 60) by (unfold Rdiv; lra).
  destruct (Rle_dec 0 (seconds / 60)) as [_|Hn]; [|contradiction].
  set (m := Int_part (seconds / 60)).
  destruct (base_Int_part (seconds / 60)) as [Hm1 Hm2]. fold m in Hm1, Hm2.
  set (rem := seconds - 60 * IZR m).
  assert (Hrem : 0 <= rem < 60) by (unfold rem, Rdiv in *; lra).
  set (sec := Int_part rem).
  destruct (base_Int_part rem) as [Hs1 Hs2]. fold sec in Hs1, Hs2.
  assert (Hsec : (0 <= sec <= 59)%Z).
  { split.
    - apply Z.lt_succ_r, lt_IZR. rewrite succ_IZR. lra.
    - apply Z.lt_succ_r, lt_IZR. rewrite succ_IZR. simpl. lra. }
  assert (Hmin : (0 <= m)%Z).
  { apply Z.lt_succ_r, lt_IZR. rewrite succ_IZR. lra. }
  split; [exact Hsec|]. split; [exact Hmin|].
  apply Int_part_spec. rewrite plus_IZR, mult_IZR. unfold rem in *. lra.
Qed.

Lemma formatTime_splits_seconds_witness :
  0 <= 125.5 /\
  (60 * fst (DeckController.formatTime 125.5)
   + snd (DeckController.formatTime 125.5))%Z = DeckController.jsFloor 125.5.
Proof.
  assert (H : 0 <= 125.5) by lra.
  split; [exact H|].
  exact (proj2 (proj2 (formatTime_splits_seconds 125.5 H))).
Defined.

(** *** The title of an uploaded file *)

Import Stdlib.Strings.Ascii.

Lemma plainTail_dot (b ext : string) :
  Uploader.plainTail (b ++ String "."%char ext)%string = false.
Proof.
  induction b as [|c b IH]; simpl.
  - reflexivity.
  - rewrite IH. apply andb_false_r.
Qed.

Lemma plainSuffix_dot (b ext : string) :
  Uploader.plainSuffix (b ++ String "."%char ext)%string = false.
Proof.
  destruct b as [|c b]; [reflexivity|].
  change (Uploader.plainTail (String c b ++ String "."%char ext)%string = false).
  apply plainTail_dot.
Qed.

(** X24.  The title of an uploaded file is the file name without its last
    extension: a name that ends in a dot followed by one or more characters
    other than dots and slashes loses that ending, whatever comes before it;
    every other name is kept as it is.  The title is always the beginning of
    the name. *)
Theorem stripExtension_cuts_last_extension (name : string) :
  (forall base ext,
     Uploader.plainSuffix ext = true ->
     Uploader.stripExtension (base ++ String "."%char ext)%string = base) /\
  (Uploader.stripExtension name = name \/
   exists base ext,
     name = (base ++ String "."%char ext)%string /\
     Uploader.plainSuffix ext = true /\ Uploader.stripExtension name = base) /\
  exists rest, name = (Uploader.stripExtension name ++ rest)%string.
Proof.
  split; [|split].
  - intros base ext Hext. induction base as [|c b IH]; simpl.
    + now rewrite Hext.
    + rewrite plainSuffix_dot, andb_false_r. now rewrite IH.
  - induction name as [|c s IH]; simpl; [now left|].
    destruct (Stdlib.Strings.Ascii.eqb c "."%char && Uploader.plainSuffix s) eqn:Hc.
    + right. apply andb_true_iff in Hc as [Hdot Hs].
      apply Stdlib.Strings.Ascii.eqb_eq in Hdot. subst c.
      exists EmptyString, s. auto.
    + destruct IH as [IH|(base & ext & -> & Hext & Hb)].
      * left. now rewrite IH.
      * right. exists (String c base), ext. simpl. rewrite Hb. auto.
  - induction name as [|c s IH]; simpl; [now exists EmptyString|].
    destruct (Stdlib.Strings.Ascii.eqb c "."%char && Uploader.plainSuffix s).
    + now exists (String c s).
    + destruct IH as [rest Hrest]. exists rest. rewrite Hrest at 1. reflexivity.
Qed.

Lemma stripExtension_cuts_last_extension_witness :
  Uploader.plainSuffix "mp3" = true /\
  Uploader.stripExtension "my.mix/set.v2.mp3" = "my.mix/set.v2"%string /\
  Uploader.stripExtension ".mp3" = ""%string.
Proof.
  assert (H : Uploader.plainSuffix "mp3" = true) by reflexivity.
  split; [exact H|]. split.
  - exact (proj1 (stripExtension_cuts_last_extension "") "my.mix/set.v2" "mp3" H).
  - exact (proj1 (stripExtension_cuts_last_extension "") "" "mp3" H).
Defined.

End DisplayFacts.

Module SessionFacts.
Import SpotifyAPI.

#[local] Open Scope Z_scope.

(** X25.  The mock Spotify session: after [authenticate] the client is
    authenticated for exactly one hour; [refreshToken] on a client that
    holds a token leaves it authenticated for at least the next five
    minutes; on a client that never signed in, or signed out, it answers
    [true] and the client stays unauthenticated. *)
Theorem spotify_session_window (s : t) :
  (forall stamp now t,
     isAuthenticated t (fst (authenticate stamp now s)) = true <-> t < now + 3600000) /\
  (forall now stamp now' tok expiry t,
     accessToken s = Some tok -> tokenExpiry s = Some expiry -> expiry <> 0 ->
     now <= now' -> t < now + 300000 ->
     snd (refreshToken now stamp now' s) = true /\
     isAuthenticated t (fst (refreshToken now stamp now' s)) = true) /\
  (forall now stamp now' t,
     refreshToken now stamp now' signedOut = (signedOut, true) /\
     refreshToken now stamp now' (logout s) = (logout s, true) /\
     isAuthenticated t (logout s) = false).
Proof.
  split; [|split].
  - intros stamp now t. unfold isAuthenticated, authenticate. simpl.
    rewrite Z.ltb_lt. lia.
  - intros now stamp now' tok expiry t Htok Hexp Hne Hle Ht.
    unfold refreshToken. rewrite Hexp.
    destruct (expiry =? 0) eqn:E0; [apply Z.eqb_eq in E0; contradiction|].
    destruct (expiry - 300000 <? now) eqn:E1; simpl.
    + split; [reflexivity|]. apply Z.ltb_lt. lia.
    + split; [reflexivity|]. unfold isAuthenticated. rewrite Htok, Hexp.
      apply Z.ltb_ge in E1. apply Z.ltb_lt. lia.
  - intros now stamp now' t. repeat split.
Qed.

Lemma spotify_session_window_witness :
  isAuthenticated 5000000
    (fst (refreshToken 4900000 "4900001" 4900002
            (fst (authenticate "1000" 1000 signedOut)))) = true.
Proof.
  refine (proj2 (proj1 (proj2 (spotify_session_window
            (fst (authenticate "1000" 1000 signedOut))))
            4900000 "4900001"%string 4900002 _ 3601000 5000000 eq_refl eq_refl _ _ _)).
  - discriminate.
  - lia.
  - lia.
Defined.

End SessionFacts.
